(** * MiniDB: tokenizer, parser, table store and engine

    A shallow embedding of the Python package [minidb] (types.py, parser.py,
    table.py, database.py, engine.py) and the properties of its tokenizer,
    its recursive-descent parser and its in-memory table store.

    Conventions of the embedding.
    - A Python [str] is a [string]: a sequence of characters with code
      points 0..255.  The character classes [\s] and [\d] of the token
      pattern are the Unicode-aware ones of Python's [re] module restricted
      to that range.
    - A Python exception is a value of [exn]; the text of its message is
      kept as structured data (the values interpolated in the f-string).
    - A function that may raise returns a [result]; a method that mutates
      the database takes the database and returns it next to its result,
      so that what an exception leaves behind is part of the model.
    - A [dict] whose order is observable (a row) is an association list
      with unique keys in insertion order; the table registry, which is
      only ever looked up by key, is a [gmap]. *)

From Stdlib Require Import Ascii String ZArith NArith List Lia.
From stdpp Require Import base option list strings gmap fin_maps.
From Equations Require Import Equations.
From Equations.Prop Require Import Logic.
From Stdlib Require DecimalString.

Local Open Scope string_scope.
Local Open Scope list_scope.

(** ** Exceptions and results *)

(** Token kinds: the group names of [_TOKEN_REGEX]. *)
Inductive Kind :=
  WS | NUMBER | STRING | IDENT | LPAREN | RPAREN | COMMA | STAR | SEMICOLON.

#[global] Instance Kind_eq_dec : EqDecision Kind.
Proof. solve_decision. Defined.

(** [Token.text] is declared [str], but [tokenize] stores [None] in it for
    STRING tokens (see [tokenize_step]); hence the option. *)
Record Token := mkToken { kind : Kind; text : option string }.

#[global] Instance Token_eq_dec : EqDecision Token.
Proof. solve_decision. Defined.

Inductive syntax_msg :=
| UnexpectedCharacter (pos : nat) (c : ascii)
    (* "Unexpected character at position {pos}: {sql[pos]!r}" *)
| ExpectedKindEOF (k : Kind)
    (* "Expected {kind}, got end of input" *)
| ExpectedKind (k : Kind) (got : Token)
    (* "Expected {kind}, got {tok.kind} ({tok.text!r})" *)
| ExpectedText (text_upper : string) (got : option string)
    (* "Expected {text_upper}, got {tok.text!r}" *)
| ExpectedKeyword (keyword : string) (got : option Token)
    (* "Expected keyword {keyword}, got {tok.text if tok else 'EOF'}" *)
| EmptyInput
    (* "Empty input" *)
| UnknownStatement (got : option string)
    (* "Unknown statement starting with {tok.text!r}" *)
| UnexpectedEndInValues
    (* "Unexpected end of input in VALUES list" *)
| ExpectedLiteral (got : Token)
    (* "Expected NUMBER or STRING literal, got {tok.kind} ({tok.text!r})" *)
| UnexpectedEndAfterSelect
    (* "Unexpected end after SELECT" *)
| UnexpectedTokenAfterStatement (got : option string)
    (* "Unexpected token after statement: {extra.text!r}" *).

Inductive value_msg :=
| UnsupportedColumnType (type_name : string)
    (* "Unsupported column type: {type_name!r}" *)
| InvalidIntLiteral (s : string)
    (* int(): "invalid literal for int() with base 10: {s!r}" *)
| IntTooManyDigits (digits : nat)
    (* int(): "Exceeds the limit (4300 digits) for integer string
       conversion: value has {digits} digits; ..." *)
| TableAlreadyExists (name : string)
    (* "Table {name!r} already exists" *)
| ExpectedValues (expected got : nat)
    (* "Expected {len(self.columns)} values, got {len(values)}" *).

Inductive key_msg :=
| TableDoesNotExist (name : string)
    (* "Table {name!r} does not exist" *)
| UnknownColumns (missing : list string)
    (* "Unknown columns in SELECT: {missing}" *)
| MissingKey (key : string)
    (* raised by row[col] when the row has no such key *).

Inductive exn :=
| SyntaxError (m : syntax_msg)
| ValueError (m : value_msg)
| KeyError (m : key_msg)
| AttributeError   (* 'NoneType' object has no attribute 'upper' *)
| TypeError        (* int() argument must be a string ..., not 'NoneType' *).

Inductive result (A : Type) :=
| Ok (a : A)
| Raise (e : exn).
Arguments Ok {A} a.
Arguments Raise {A} e.

Definition bind {A B} (r : result A) (k : A -> result B) : result B :=
  match r with
  | Ok a => k a
  | Raise e => Raise e
  end.

(** ** Characters and strings *)

Definition code (c : ascii) : N := N_of_ascii c.

Definition in_range (lo hi : N) (c : ascii) : bool :=
  ((lo <=? code c) && (code c <=? hi))%N.

(** [\s] on a [str] pattern: the characters for which [str.isspace] holds.
    Below 256 these are TAB..CR, FS..US, SPACE, NEL and NBSP. *)
Definition is_space (c : ascii) : bool :=
  in_range 9 13 c || in_range 28 32 c
  || (code c =? 133)%N || (code c =? 160)%N.

(** [\d]: the decimal digits; below 256 only 0..9. *)
Definition is_digit (c : ascii) : bool := in_range 48 57 c.

Definition is_upper_az (c : ascii) : bool := in_range 65 90 c.
Definition is_lower_az (c : ascii) : bool := in_range 97 122 c.

(** [[A-Za-z_]] and [[A-Za-z0-9_]]. *)
Definition is_ident_start (c : ascii) : bool :=
  is_upper_az c || is_lower_az c || (code c =? 95)%N.
Definition is_ident_char (c : ascii) : bool :=
  is_ident_start c || is_digit c.

Definition is_quote (c : ascii) : bool := (code c =? 39)%N.

(** [str.lower] on one character: A..Z, and the Latin-1 capitals
    U+00C0..U+00DE except the multiplication sign U+00D7. *)
Definition lower_char (c : ascii) : ascii :=
  if is_upper_az c || (in_range 192 222 c && negb (code c =? 215)%N)
  then ascii_of_N (code c + 32) else c.

(** [str.upper] on one character.  a..z and the Latin-1 small letters
    U+00E0..U+00FE except the division sign U+00F7 move down by 32; the
    sharp s becomes "SS".  The upper-case forms of U+00B5 and U+00FF are
    U+039C and U+0178, outside the range of [ascii]: they are left as they
    are, which like their true images equals no ASCII character. *)
Definition upper_char (c : ascii) : string :=
  if is_lower_az c || (in_range 224 254 c && negb (code c =? 247)%N)
  then String (ascii_of_N (code c - 32)) ""
  else if (code c =? 223)%N then "SS"
  else String c "".

Fixpoint lower (s : string) : string :=
  match s with
  | "" => ""
  | String c s' => String (lower_char c) (lower s')
  end.

Fixpoint upper (s : string) : string :=
  match s with
  | "" => ""
  | String c s' => upper_char c +:+ upper s'
  end.

(** The longest prefix of [s] whose characters satisfy [p]; the greedy
    match of a starred character class. *)
Fixpoint take_while (p : ascii -> bool) (s : string) : string :=
  match s with
  | "" => ""
  | String c s' => if p c then String c (take_while p s') else ""
  end.

(** [sql[n:]] *)
Fixpoint suffix (n : nat) (s : string) : string :=
  match n, s with
  | O, _ => s
  | S n', String _ s' => suffix n' s'
  | S _, "" => ""
  end.

Fixpoint all_chars (p : ascii -> bool) (s : string) : bool :=
  match s with
  | "" => true
  | String c s' => p c && all_chars p s'
  end.

(** [str.isascii] *)
Definition is_ascii (s : string) : bool :=
  all_chars (fun c => (code c <? 128)%N) s.

(** ** Tokenizer *)

(** What [tokenize] reads from a match object: [lastgroup], [group(0)] and
    [group(2)].  Groups are numbered by their opening parenthesis: 1 is WS,
    2 is NUMBER, 3 is STRING, 4 is the unnamed group inside STRING, 5 is
    IDENT, and so on.  Group 2 therefore holds the matched digits when the
    NUMBER alternative matched, and [None] otherwise. *)
Record Match := mkMatch {
  lastgroup : Kind;
  group0 : string;
  group2 : option string
}.

Definition punctuation (c : ascii) : option Kind :=
  if (code c =? 40)%N then Some LPAREN
  else if (code c =? 41)%N then Some RPAREN
  else if (code c =? 44)%N then Some COMMA
  else if (code c =? 42)%N then Some STAR
  else if (code c =? 59)%N then Some SEMICOLON
  else None.

(** [_TOKEN_REGEX.match(sql, pos)] on the suffix [s] of [sql] that starts at
    [pos]: the alternatives are tried in the order they are written, each
    is greedy, and none matches the empty string. *)
Definition regex_match (s : string) : option Match :=
  match s with
  | "" => None
  | String c rest =>
      if is_space c then
        Some (mkMatch WS (take_while is_space s) None)
      else if is_digit c then
        let digits := take_while is_digit s in
        Some (mkMatch NUMBER digits (Some digits))
      else if is_quote c then
        let inner := take_while (fun x => negb (is_quote x)) rest in
        match suffix (String.length inner) rest with
        | String q _ =>
            (* [q] is the closing quote: [take_while] stopped on it *)
            Some (mkMatch STRING (String c (inner +:+ String q "")) None)
        | "" => None
        end
      else if is_ident_start c then
        Some (mkMatch IDENT (String c (take_while is_ident_char rest)) None)
      else
        match punctuation c with
        | Some k => Some (mkMatch k (String c "") None)
        | None => None
        end
  end.

(** One round of the [while] loop after a successful match: the new
    [tokens] list. *)
Definition tokenize_step (m : Match) (tokens : list Token) : list Token :=
  match lastgroup m with
  | WS => tokens
  | STRING => tokens ++ [mkToken STRING (group2 m)]
  | k => tokens ++ [mkToken k (Some (group0 m))]
  end.

Lemma length_suffix n s : String.length (suffix n s) = String.length s - n.
Proof.
  revert s; induction n as [|n IH]; intros [|c s]; simpl; auto with arith.
Qed.

Lemma regex_match_nonempty s m :
  regex_match s = Some m -> 0 < String.length (group0 m).
Proof.
  destruct s as [|c rest]; simpl; [discriminate|].
  repeat case_match; intros [= <-]; simpl; try rewrite Hc; simpl; lia.
Qed.

(** The loop of [tokenize]; [s] is [sql[pos:]]. *)
Equations? tokenize_from (s : string) (pos : nat) (tokens : list Token)
  : result (list Token) by wf (String.length s) lt :=
  tokenize_from "" pos tokens := Ok tokens;
  tokenize_from (String c rest) pos tokens
    with inspect (regex_match (String c rest)) := {
    | exist _ None _ := Raise (SyntaxError (UnexpectedCharacter pos c));
    | exist _ (Some m) Hm :=
        tokenize_from (suffix (String.length (group0 m)) (String c rest))
                      (pos + String.length (group0 m))
                      (tokenize_step m tokens) }.
Proof.
  pose proof (regex_match_nonempty (String c rest) m Hm) as Hlen.
  rewrite length_suffix. simpl. lia.
Qed.

Definition tokenize (sql : string) : result (list Token) :=
  tokenize_from sql 0 [].

(** ** Values and schema (types.py) *)

(** [Value = Union[int, str, bool, None]]. *)
Inductive Value :=
| VInt (z : Z)
| VStr (s : string)
| VBool (b : bool)
| VNone.

#[global] Instance Value_eq_dec : EqDecision Value.
Proof. solve_decision. Defined.

Inductive ColumnType := INT | TEXT | BOOL.

#[global] Instance ColumnType_eq_dec : EqDecision ColumnType.
Proof. solve_decision. Defined.

Record ColumnDef := mkColumnDef {
  col_name : string;
  col_type : ColumnType;
  nullable : bool;
  primary_key : bool
}.

#[global] Instance ColumnDef_eq_dec : EqDecision ColumnDef.
Proof. solve_decision. Defined.

(** [ColumnDef(name=..., col_type=...)] with the dataclass defaults. *)
Definition ColumnDef_new (name : string) (ty : ColumnType) : ColumnDef :=
  mkColumnDef name ty true false.

(** [ColumnType.from_sql]: [cls[upper]] looks the member up by its name and
    its [KeyError] is turned into a [ValueError].  [type_name] is the text
    of a token; on [None] the call of [upper] fails. *)
Definition from_sql (type_name : option string) : result ColumnType :=
  match type_name with
  | None => Raise AttributeError
  | Some type_name =>
      let upper := upper type_name in
      if String.eqb upper "INT" then Ok INT
      else if String.eqb upper "TEXT" then Ok TEXT
      else if String.eqb upper "BOOL" then Ok BOOL
      else Raise (ValueError (UnsupportedColumnType type_name))
  end.

(** ** int() on a token text *)

Fixpoint lstrip (space : ascii -> bool) (s : string) : string :=
  match s with
  | String c s' => if space c then lstrip space s' else s
  | "" => ""
  end.

(** The whitespace [int] skips before the sign and after the digits.
    CPython leaves the characters below 127 as they are and turns each
    Unicode whitespace character from 127 up into a SPACE (here NEL, 133,
    and NBSP, 160); it then skips the whitespace of the C locale, TAB..CR
    and SPACE.  The separators FS..US (28..31) are therefore not skipped,
    although [\s] and [str.isspace] accept them. *)
Definition int_space (c : ascii) : bool :=
  in_range 9 13 c || (code c =? 32)%N
  || (code c =? 133)%N || (code c =? 160)%N.

(** The scan over the digits of a decimal literal after its sign, left to
    right, up to the first character that is neither a digit nor an
    underscore; that character and what follows it are returned with the
    value.  [acc] is the value so far, [n] the number of digits so far and
    [prev] tells whether the previous character was a digit: an underscore
    may only stand between two digits, and the scan must start on a
    digit. *)
Fixpoint int_digits (s : string) (acc : Z) (n : nat) (prev : bool)
  : option (Z * nat * string) :=
  match s with
  | "" => if prev then Some (acc, n, "") else None
  | String c s' =>
      if is_digit c then
        int_digits s' (10 * acc + Z.of_N (code c - 48)) (S n) true
      else if (code c =? 95)%N && prev then
        int_digits s' acc n false
      else if prev then Some (acc, n, s)
      else None
  end.

(** [sys.get_int_max_str_digits()], at its default. *)
Definition int_max_str_digits : nat := 4300.

(** [int(x)] where [x] is [None] or a [str]: whitespace before the literal
    is skipped, one sign is allowed, single underscores may separate
    digits, a literal of more than [int_max_str_digits] digits is refused
    as soon as its digits are counted, and only whitespace may follow the
    digits. *)
Definition int (x : option string) : result Z :=
  match x with
  | None => Raise TypeError
  | Some s =>
      let body := lstrip int_space s in
      let '(neg, ds) :=
        match body with
        | String c ds' =>
            if (code c =? 45)%N then (true, ds')
            else if (code c =? 43)%N then (false, ds')
            else (false, body)
        | "" => (false, body)
        end in
      match int_digits ds 0 0 false with
      | Some (z, n, rest) =>
          if (int_max_str_digits <? n)%nat
          then Raise (ValueError (IntTooManyDigits n))
          else
            match lstrip int_space rest with
            | "" => Ok (if neg then (- z)%Z else z)
            | String _ _ => Raise (ValueError (InvalidIntLiteral s))
            end
      | None => Raise (ValueError (InvalidIntLiteral s))
      end
  end.

(** ** Statements (parser.py, AST definitions) *)

Inductive Statement :=
| CreateTableStmt (name : string) (columns : list ColumnDef)
| InsertStmt (table_name : string) (values : list Value)
| SelectStmt (table_name : string) (columns : option (list string)).

(** ** Parser *)

(** A method of [Parser]: it reads [self.tokens], reads and writes
    [self.pos], and returns or raises.  After an exception the parser
    object is dropped, so no position is kept. *)
Definition Parser (A : Type) : Type := list Token -> nat -> result (A * nat).

Definition ret {A} (a : A) : Parser A := fun _ pos => Ok (a, pos).

Definition raise {A} (e : exn) : Parser A := fun _ _ => Raise e.

Definition pbind {A B} (p : Parser A) (k : A -> Parser B) : Parser B :=
  fun toks pos =>
    match p toks pos with
    | Ok (a, pos') => k a toks pos'
    | Raise e => Raise e
    end.

Definition lift {A} (r : result A) : Parser A :=
  fun _ pos => match r with Ok a => Ok (a, pos) | Raise e => Raise e end.

Notation "'let*' x ':=' p 'in' k" := (pbind p (fun x => k))
  (at level 10, x pattern, p at level 100, k at level 200).

(** [self.pos += 1] *)
Definition advance : Parser unit := fun _ pos => Ok (tt, S pos).

Definition _peek : Parser (option Token) :=
  fun toks pos => Ok (toks !! pos, pos).

(** [Token.upper] *)
Definition Token_upper (tok : Token) : result string :=
  match text tok with
  | Some s => Ok (upper s)
  | None => Raise AttributeError
  end.

Definition _match (k : Kind) (text_upper : option string) : Parser Token :=
  let* tok := _peek in
  match tok with
  | None => raise (SyntaxError (ExpectedKindEOF k))
  | Some tok =>
      if negb (bool_decide (kind tok = k)) then
        raise (SyntaxError (ExpectedKind k tok))
      else
        let* _ :=
          match text_upper with
          | None => ret tt
          | Some t =>
              let* u := lift (Token_upper tok) in
              if negb (String.eqb u t)
              then raise (SyntaxError (ExpectedText t (text tok)))
              else ret tt
          end in
        let* _ := advance in
        ret tok
  end.

Definition _match_keyword (keyword : string) : Parser Token :=
  let* tok := _peek in
  match tok with
  | None => raise (SyntaxError (ExpectedKeyword keyword None))
  | Some tok =>
      if negb (bool_decide (kind tok = IDENT)) then
        raise (SyntaxError (ExpectedKeyword keyword (Some tok)))
      else
        let* u := lift (Token_upper tok) in
        if negb (String.eqb u keyword) then
          raise (SyntaxError (ExpectedKeyword keyword (Some tok)))
        else
          let* _ := advance in
          ret tok
  end.

Definition _optional (k : Kind) (text_upper : option string)
  : Parser (option Token) :=
  let* tok := _peek in
  match tok with
  | None => ret None
  | Some tok =>
      if negb (bool_decide (kind tok = k)) then ret None
      else
        let* stop :=
          match text_upper with
          | None => ret false
          | Some t =>
              let* u := lift (Token_upper tok) in
              ret (negb (String.eqb u t))
          end in
        if stop : bool then ret None
        else
          let* _ := advance in
          ret (Some tok)
  end.

(** A name read off an IDENT token.  The pattern gives every IDENT token a
    string; an IDENT token built by hand with text [None] breaks the
    declared type of [Token.text], and where Python would carry the [None]
    along until its first use as a string ([name.lower()], an
    AttributeError), the same exception is raised here at once. *)
Definition name_of (tok : Token) : Parser string :=
  match text tok with
  | Some s => ret s
  | None => raise AttributeError
  end.

(** [while True: <step>; if <comma>: continue; break].  A step returns the
    loop variable and whether the loop goes on; [advances] says that a step
    that goes on has moved [self.pos] forward, which is what makes the
    loop end. *)
Definition advances {A} (step : A -> Parser (A * bool)) : Prop :=
  forall a toks pos a' pos',
    step a toks pos = Ok ((a', true), pos') ->
    length toks - pos' < length toks - pos.

Equations? while_true {A} (step : A -> Parser (A * bool))
  (Hadv : advances step) (a : A) (toks : list Token) (pos : nat)
  : result (A * nat) by wf (length toks - pos) lt :=
  while_true step Hadv a toks pos with inspect (step a toks pos) := {
    | exist _ (Raise e) _ := Raise e;
    | exist _ (Ok ((a', true), pos')) Hs :=
        while_true step Hadv a' toks pos';
    | exist _ (Ok ((a', false), pos')) _ := Ok (a', pos') }.
Proof. exact (Hadv _ _ _ _ _ Hs). Qed.

(** [True] when the comma that continues a list was consumed. *)
Definition comma_follows : Parser bool :=
  let* c := _optional COMMA None in
  ret (bool_decide (c <> None)).

Lemma _match_inv k t toks pos tok pos' :
  _match k t toks pos = Ok (tok, pos') ->
  toks !! pos = Some tok /\ kind tok = k /\ pos' = S pos.
Proof.
  unfold _match, pbind, _peek, raise, ret, advance, lift.
  destruct (toks !! pos) as [tk|]; [|discriminate].
  case_bool_decide; simpl; [|discriminate].
  destruct t as [t|]; [destruct (Token_upper tk); [|discriminate];
    destruct (negb _); [discriminate|] |]; intros [= <- <-]; auto.
Qed.

Lemma _optional_inv k t toks pos r pos' :
  _optional k t toks pos = Ok (r, pos') ->
  (r = None /\ pos' = pos) \/
  (exists tok, r = Some tok /\ toks !! pos = Some tok /\ kind tok = k
               /\ pos' = S pos).
Proof.
  unfold _optional, pbind, _peek, raise, ret, advance, lift.
  destruct (toks !! pos) as [tk|]; [|intros [= <- <-]; auto].
  case_bool_decide; simpl; [|intros [= <- <-]; auto].
  destruct t as [t|]; [destruct (Token_upper tk); [|discriminate];
    destruct (negb _); [intros [= <- <-]; auto|] |];
    intros [= <- <-]; right; eauto.
Qed.

Lemma comma_follows_inv toks pos b pos' :
  comma_follows toks pos = Ok (b, pos') -> pos <= pos'.
Proof.
  unfold comma_follows, pbind, ret.
  destruct (_optional COMMA None toks pos) as [[r p]|] eqn:Ho; [|discriminate].
  intros [= <- <-]. apply _optional_inv in Ho as [[_ ->]|(?&_&_&_&->)]; lia.
Qed.

(** *** CREATE TABLE *)

(** The body of the column loop of [_parse_create_table]. *)
Definition column_step (columns : list ColumnDef)
  : Parser (list ColumnDef * bool) :=
  let* col_name_tok := _match IDENT None in
  let* type_tok := _match IDENT None in
  let* ty := lift (from_sql (text type_tok)) in
  let* name := name_of col_name_tok in
  let columns := columns ++ [ColumnDef_new name ty] in
  let* more := comma_follows in
  ret (columns, more).

Lemma column_step_advances : advances column_step.
Proof.
  intros cols toks pos cols' pos'. unfold column_step, pbind, lift, name_of.
  destruct (_match IDENT None toks pos) as [[t1 p1]|] eqn:H1; [|discriminate].
  destruct (_match IDENT None toks p1) as [[t2 p2]|] eqn:H2; [|discriminate].
  destruct (from_sql _); [|discriminate].
  destruct (text t1); [|discriminate]. unfold ret at 1.
  destruct (comma_follows toks p2) as [[b p3]|] eqn:H3; [|discriminate].
  intros [= _ _ <-].
  apply _match_inv in H1 as (Hl & _ & ->), H2 as (_ & _ & ->).
  apply comma_follows_inv in H3. apply lookup_lt_Some in Hl. lia.
Qed.

Definition _parse_create_table : Parser Statement :=
  let* _ := _match_keyword "CREATE" in
  let* _ := _match_keyword "TABLE" in
  let* name_tok := _match IDENT None in
  let* table_name := name_of name_tok in
  let* _ := _match LPAREN None in
  let* columns := while_true column_step column_step_advances [] in
  let* _ := _match RPAREN None in
  let* _ := _optional SEMICOLON None in
  ret (CreateTableStmt table_name columns).

(** *** INSERT *)

(** The body of the value loop of [_parse_insert]. *)
Definition value_step (values : list Value) : Parser (list Value * bool) :=
  let* tok := _peek in
  match tok with
  | None => raise (SyntaxError UnexpectedEndInValues)
  | Some tok =>
      let* values :=
        match kind tok with
        | NUMBER =>
            let* _ := advance in
            let* z := lift (int (text tok)) in
            ret (values ++ [VInt z])
        | STRING =>
            let* _ := advance in
            ret (values ++ [match text tok with
                            | Some s => VStr s
                            | None => VNone
                            end])
        | _ => raise (SyntaxError (ExpectedLiteral tok))
        end in
      let* more := comma_follows in
      ret (values, more)
  end.

Lemma value_step_advances : advances value_step.
Proof.
  intros vs toks pos vs' pos'. unfold value_step, pbind, _peek.
  destruct (toks !! pos) as [tok|] eqn:Hl; [|discriminate].
  apply lookup_lt_Some in Hl.
  assert (forall (v : list Value) p,
    match comma_follows toks p with
    | Ok (a, p') => ret (v, a) toks p'
    | Raise e => Raise e
    end = Ok (vs', true, pos') -> p <= pos') as Hc.
  { intros v p. destruct (comma_follows toks p) as [[b p3]|] eqn:H3;
      [|discriminate].
    intros [= _ _ <-]. by apply comma_follows_inv in H3. }
  destruct (kind tok); try discriminate; unfold advance, lift, ret at 1.
  - destruct (int _); [|discriminate]. intros H%Hc. lia.
  - intros H%Hc. lia.
Qed.

Definition _parse_insert : Parser Statement :=
  let* _ := _match_keyword "INSERT" in
  let* _ := _match_keyword "INTO" in
  let* table_tok := _match IDENT None in
  let* table_name := name_of table_tok in
  let* _ := _match_keyword "VALUES" in
  let* _ := _match LPAREN None in
  let* values := while_true value_step value_step_advances [] in
  let* _ := _match RPAREN None in
  let* _ := _optional SEMICOLON None in
  ret (InsertStmt table_name values).

(** *** SELECT *)

(** The body of the column-name loop of [_parse_select]. *)
Definition select_step (cols : list string) : Parser (list string * bool) :=
  let* ident_tok := _match IDENT None in
  let* name := name_of ident_tok in
  let cols := cols ++ [name] in
  let* more := comma_follows in
  ret (cols, more).

Lemma select_step_advances : advances select_step.
Proof.
  intros cols toks pos cols' pos'. unfold select_step, pbind, name_of.
  destruct (_match IDENT None toks pos) as [[t1 p1]|] eqn:H1; [|discriminate].
  destruct (text t1); [|discriminate]. unfold ret at 1.
  destruct (comma_follows toks p1) as [[b p3]|] eqn:H3; [|discriminate].
  intros [= _ _ <-].
  apply _match_inv in H1 as (Hl & _ & ->).
  apply comma_follows_inv in H3. apply lookup_lt_Some in Hl. lia.
Qed.

Definition _parse_select : Parser Statement :=
  let* _ := _match_keyword "SELECT" in
  let* tok := _peek in
  match tok with
  | None => raise (SyntaxError UnexpectedEndAfterSelect)
  | Some tok =>
      let* columns :=
        if bool_decide (kind tok = STAR) then
          let* _ := advance in
          ret None
        else
          let* cols := while_true select_step select_step_advances [] in
          ret (Some cols)
      in
      let* _ := _match_keyword "FROM" in
      let* table_tok := _match IDENT None in
      let* table_name := name_of table_tok in
      let* _ := _optional SEMICOLON None in
      ret (SelectStmt table_name columns)
  end.

Definition parse_statement : Parser Statement :=
  let* tok := _peek in
  match tok with
  | None => raise (SyntaxError EmptyInput)
  | Some tok =>
      let unknown := raise (SyntaxError (UnknownStatement (text tok))) in
      if bool_decide (kind tok = IDENT) then
        let* upper := lift (Token_upper tok) in
        if String.eqb upper "CREATE" then _parse_create_table
        else if String.eqb upper "INSERT" then _parse_insert
        else if String.eqb upper "SELECT" then _parse_select
        else unknown
      else unknown
  end.

(** [Parser(tokens).parse_statement()] followed by the check for trailing
    tokens. *)
Definition parse_tokens (tokens : list Token) : result Statement :=
  match parse_statement tokens 0 with
  | Raise e => Raise e
  | Ok (stmt, pos) =>
      match tokens !! pos with
      | Some extra =>
          Raise (SyntaxError (UnexpectedTokenAfterStatement (text extra)))
      | None => Ok stmt
      end
  end.

Definition parse (sql : string) : result Statement :=
  bind (tokenize sql) parse_tokens.

(** ** Rows and tables (table.py) *)

(** [Row = Dict[str, Value]]: a Python dict keeps its keys in insertion
    order, and assigning to a key that is present replaces its value where
    it stands. *)
Definition Row : Type := list (string * Value).

(** [row[key] = val] *)
Fixpoint dict_set (key : string) (val : Value) (row : Row) : Row :=
  match row with
  | [] => [(key, val)]
  | (k, v) :: row' =>
      if String.eqb k key then (k, val) :: row'
      else (k, v) :: dict_set key val row'
  end.

(** [row.get(key)]; [row[key]] is [dict_getitem]. *)
Fixpoint dict_get (key : string) (row : Row) : option Value :=
  match row with
  | [] => None
  | (k, v) :: row' => if String.eqb k key then Some v else dict_get key row'
  end.

Definition dict_getitem (key : string) (row : Row) : result Value :=
  match dict_get key row with
  | Some v => Ok v
  | None => Raise (KeyError (MissingKey key))
  end.

Definition keys (row : Row) : list string := map fst row.

Record Table := mkTable {
  name : string;
  columns : list ColumnDef;
  _rows : list Row
}.

Definition column_names (t : Table) : list string :=
  map col_name (columns t).

(** The row that [insert_row] builds:
    [for col, val in zip(self.columns, values): row[col.name] = val]. *)
Definition make_row (columns : list ColumnDef) (values : list Value) : Row :=
  fold_left (fun row cv => dict_set (col_name (fst cv)) (snd cv) row)
            (zip columns values) [].

(** [Table.insert_row].  The table is mutated in place: the table after the
    call is returned with the result. *)
Definition insert_row (values : list Value) (t : Table)
  : result unit * Table :=
  if negb (length values =? length (columns t))%nat then
    (Raise (ValueError (ExpectedValues (length (columns t)) (length values))),
     t)
  else
    let row := make_row (columns t) values in
    (Ok tt, mkTable (name t) (columns t) (_rows t ++ [row])).

(** [{col: row[col] for col in column_names}] *)
Fixpoint project_onto (column_names : list string) (row : Row) (acc : Row)
  : result Row :=
  match column_names with
  | [] => Ok acc
  | col :: rest =>
      bind (dict_getitem col row) (fun v =>
      project_onto rest row (dict_set col v acc))
  end.

Definition project (column_names : list string) (row : Row) : result Row :=
  project_onto column_names row [].

(** The [for row in self.scan()] loop of [Table.select]. *)
Fixpoint project_rows (column_names : list string) (rows : list Row)
  (res : list Row) : result (list Row) :=
  match rows with
  | [] => Ok res
  | row :: rows' =>
      bind (project column_names row) (fun projected =>
      project_rows column_names rows' (res ++ [projected]))
  end.

Definition Table_select (column_names' : option (list string)) (t : Table)
  : result (list Row) :=
  match column_names' with
  | None => Ok (_rows t)
  | Some cn =>
      let missing := filter (fun c => c ∉ column_names t) cn in
      if negb (bool_decide (missing = [])) then
        Raise (KeyError (UnknownColumns missing))
      else project_rows cn (_rows t) []
  end.

(** ** Database (database.py) *)

(** [Database.tables]: a dict from lower-cased name to table. *)
Abbreviation Database := (gmap string Table).

Definition create_table (name : string) (columns : list ColumnDef)
  (db : Database) : result unit * Database :=
  let key := lower name in
  match db !! key with
  | Some _ => (Raise (ValueError (TableAlreadyExists name)), db)
  | None => (Ok tt, <[key := mkTable name columns []]> db)
  end.

Definition get_table (name : string) (db : Database) : result Table :=
  let key := lower name in
  match db !! key with
  | Some t => Ok t
  | None => Raise (KeyError (TableDoesNotExist name))
  end.

(** [Database.insert]: [insert_row] mutates the table object that the dict
    holds under the key. *)
Definition insert (table_name : string) (values : list Value)
  (db : Database) : result unit * Database :=
  match get_table table_name db with
  | Raise e => (Raise e, db)
  | Ok table =>
      let '(r, table') := insert_row values table in
      (r, <[lower table_name := table']> db)
  end.

Definition select (table_name : string) (columns : option (list string))
  (db : Database) : result (list Row) :=
  bind (get_table table_name db) (Table_select columns).

(** ** Engine (engine.py) *)

(** [Engine.execute]: [None] for CREATE TABLE and INSERT, the rows for
    SELECT. *)
Definition execute (stmt : Statement) (db : Database)
  : result (option (list Row)) * Database :=
  match stmt with
  | CreateTableStmt name columns =>
      let '(r, db') := create_table name columns db in
      (bind r (fun _ => Ok None), db')
  | InsertStmt table_name values =>
      let '(r, db') := insert table_name values db in
      (bind r (fun _ => Ok None), db')
  | SelectStmt table_name columns =>
      (bind (select table_name columns db) (fun rows => Ok (Some rows)), db)
  end.

(** The database after a sequence of statements, each executed whether or
    not the one before raised (the REPL of main.py reports the error and
    goes on). *)
Definition run (stmts : list Statement) (db : Database) : Database :=
  fold_left (fun db stmt => snd (execute stmt db)) stmts db.

(** The states a session can be in: the empty database and what executing
    statements makes of it. *)
Inductive reachable : Database -> Prop :=
| reachable_empty : reachable ∅
| reachable_execute stmt db :
    reachable db -> reachable (snd (execute stmt db)).

(** [N] inserts into one table, one after the other, stopping at the first
    that raises. *)
Fixpoint insert_all (table_name : string) (rows : list (list Value))
  (db : Database) : result unit * Database :=
  match rows with
  | [] => (Ok tt, db)
  | values :: rows' =>
      match insert table_name values db with
      | (Ok _, db') => insert_all table_name rows' db'
      | (Raise e, db') => (Raise e, db')
      end
  end.

(** * Vocabulary of the properties *)

(** ** Rows and databases *)

(** The keys of a dict filled by assigning to the keys of [ks] in order,
    starting from a dict with keys [acc]: each name once, where it first
    occurred. *)
Definition assign_keys (acc ks : list string) : list string :=
  fold_left (fun acc k => if decide (k ∈ acc) then acc else acc ++ [k])
            ks acc.

(** The distinct names of a list, in order of first occurrence. *)
Definition distinct (ks : list string) : list string := assign_keys [] ks.

(** The loop of [insert_row], from any dict. *)
Definition fill (pairs : list (ColumnDef * Value)) (acc : Row) : Row :=
  fold_left (fun row cv => dict_set (col_name (fst cv)) (snd cv) row)
            pairs acc.

(** What the invariant of the data model asks of a row: one value per
    declared column, in declared order. *)
Definition one_value_per_column (t : Table) (row : Row) : Prop :=
  keys row = column_names t.

(** The invariant as the data model states it, over a whole database. *)
Definition rows_match_columns (db : Database) : Prop :=
  forall key t, db !! key = Some t ->
    Forall (one_value_per_column t) (_rows t).

(** What the rows have: one value per distinct declared name, in order of
    first declaration. *)
Definition one_value_per_name (t : Table) (row : Row) : Prop :=
  keys row = distinct (column_names t).

(** Every table is filed under its lower-cased name and holds rows of the
    shape of its columns. *)
Definition db_ok (db : Database) : Prop :=
  forall key t, db !! key = Some t ->
    key = lower (name t) /\ Forall (one_value_per_name t) (_rows t).

(** ** Strings and tokens *)

(** An identifier: a word of the IDENT alternative. *)
Definition is_identifier (s : string) : bool :=
  match s with
  | "" => false
  | String c rest => is_ident_start c && all_chars is_ident_char rest
  end.

(** The states of the [while] loop of [tokenize]: [scanned sql pos tokens]
    when the loop, started on [sql], comes back to its head at position
    [pos] with the list [tokens]. *)
Inductive scanned (sql : string) : nat -> list Token -> Prop :=
| scanned_start : scanned sql 0 []
| scanned_match pos tokens m :
    scanned sql pos tokens ->
    regex_match (suffix pos sql) = Some m ->
    scanned sql (pos + String.length (group0 m)) (tokenize_step m tokens).

(** What holds of every token [tokenize] returns: it is no whitespace
    token, a STRING token has the text [None] (group 2 of the match is
    the NUMBER group, which took no part in it), and every other token
    has the matched text. *)
Definition produced (tok : Token) : Prop :=
  kind tok <> WS
  /\ (kind tok = STRING -> text tok = None)
  /\ (kind tok <> STRING -> is_Some (text tok)).

(** The tokens [tokenize] makes of an identifier and of the punctuation. *)
Definition ident (s : string) : Token := mkToken IDENT (Some s).
Definition lparen : Token := mkToken LPAREN (Some "(").
Definition rparen : Token := mkToken RPAREN (Some ")").
Definition comma : Token := mkToken COMMA (Some ",").

(** A column as written: its name, its type keyword and a comma; with the
    type the keyword names. *)
Definition column_tokens (g : string * string * ColumnType) : list Token :=
  [ident g.1.1; ident g.1.2; comma].

Definition column_def (g : string * string * ColumnType) : ColumnDef :=
  ColumnDef_new g.1.1 g.2.

Definition column_valid (g : string * string * ColumnType) : Prop :=
  from_sql (Some g.1.2) = Ok g.2.

(** The tokens of [CREATE TABLE name (], of the columns [good], each with
    its comma, and of whatever follows. *)
Definition create_table_tokens (kw1 kw2 table_name : string)
  (good : list (string * string * ColumnType)) (rest : list Token)
  : list Token :=
  [ident kw1; ident kw2; ident table_name; lparen]
  ++ concat (map column_tokens good) ++ rest.

(** A selected column as written: its name and a comma. *)
Definition name_tokens (c : string) : list Token := [ident c; comma].

Definition is_SyntaxError {A} (r : result A) : bool :=
  match r with
  | Raise (SyntaxError _) => true
  | _ => false
  end.

(** ** Databases and statements of the examples *)

Definition users_columns : list ColumnDef :=
  [ColumnDef_new "id" INT; ColumnDef_new "name" TEXT].

Definition users_db : Database :=
  snd (create_table "users" users_columns ∅).

Definition create_t_a_a : Statement :=
  CreateTableStmt "t" [ColumnDef_new "a" INT; ColumnDef_new "a" INT].

Definition insert_t_1_2 : Statement := InsertStmt "t" [VInt 1; VInt 2].

(** * The result table of the REPL (main.py) *)

(** ** format_rows *)

(** [str(z)] for an [int]: the decimal digits, after a minus sign for a
    negative number; the conversion is refused for more than
    [int_max_str_digits] digits. *)
Definition str_int (z : Z) : result string :=
  let digits :=
    DecimalString.NilZero.string_of_uint (N.to_uint (Z.abs_N z)) in
  if (int_max_str_digits <? String.length digits)%nat
  then Raise (ValueError (IntTooManyDigits (String.length digits)))
  else Ok (if (z <? 0)%Z then String "-" digits else digits).

(** [cell_str(row.get(c))]: the empty string for [None], which is also
    what [row.get] gives for a missing key, and [str(v)] otherwise. *)
Definition cell_str (v : option Value) : result string :=
  match v with
  | None | Some VNone => Ok ""
  | Some (VInt z) => str_int z
  | Some (VStr s) => Ok s
  | Some (VBool b) => Ok (if b then "True" else "False")
  end.

(** ["x" * n] *)
Fixpoint replicate_char (c : ascii) (n : nat) : string :=
  match n with
  | O => ""
  | S n' => String c (replicate_char c n')
  end.

(** [s.ljust(width)] *)
Definition ljust (s : string) (width : nat) : string :=
  s +:+ replicate_char " " (width - String.length s).

(** [sep.join(parts)] *)
Fixpoint join (sep : string) (parts : list string) : string :=
  match parts with
  | [] => ""
  | [s] => s
  | s :: parts' => s +:+ sep +:+ join sep parts'
  end.

(** A generator expression consumed in order: the first element that
    raises ends it. *)
Fixpoint mapM {A B} (f : A -> result B) (l : list A) : result (list B) :=
  match l with
  | [] => Ok []
  | a :: l' => bind (f a) (fun b => bind (mapM f l') (fun bs => Ok (b :: bs)))
  end.

(** The union of the keys of the rows, in order of first appearance. *)
Definition all_keys (rows : list Row) : list string :=
  fold_left (fun cols row => assign_keys cols (keys row)) rows [].

(** [col_widths[c]] *)
Definition width_of (col_widths : gmap string nat) (c : string)
  : result nat :=
  match col_widths !! c with
  | Some w => Ok w
  | None => Raise (KeyError (MissingKey c))
  end.

(** [{c: len(c) for c in cols}] *)
Definition initial_widths (cols : list string) : gmap string nat :=
  fold_left (fun w c => <[c := String.length c]> w) cols ∅.

(** [for c in cols: col_widths[c] = max(col_widths[c], len(cell_str(...)))]
    for one row. *)
Fixpoint widen_row (row : Row) (cols : list string)
  (col_widths : gmap string nat) : result (gmap string nat) :=
  match cols with
  | [] => Ok col_widths
  | c :: cols' =>
      bind (width_of col_widths c) (fun old =>
      bind (cell_str (dict_get c row)) (fun cell =>
      widen_row row cols'
        (<[c := Nat.max old (String.length cell)]> col_widths)))
  end.

Fixpoint widen (rows : list Row) (cols : list string)
  (col_widths : gmap string nat) : result (gmap string nat) :=
  match rows with
  | [] => Ok col_widths
  | row :: rows' =>
      bind (widen_row row cols col_widths) (widen rows' cols)
  end.

Definition header_line (cols : list string) (col_widths : gmap string nat)
  : result string :=
  bind (mapM (fun c => bind (width_of col_widths c) (fun w =>
                       Ok (ljust c w))) cols)
       (fun parts => Ok (join " | " parts)).

Definition separator_line (cols : list string)
  (col_widths : gmap string nat) : result string :=
  bind (mapM (fun c => bind (width_of col_widths c) (fun w =>
                       Ok (replicate_char "-" w))) cols)
       (fun parts => Ok (join "-+-" parts)).

Definition row_line (cols : list string) (col_widths : gmap string nat)
  (row : Row) : result string :=
  bind (mapM (fun c => bind (cell_str (dict_get c row)) (fun cell =>
                       bind (width_of col_widths c) (fun w =>
                       Ok (ljust cell w)))) cols)
       (fun parts => Ok (join " | " parts)).

(** [f"({len(rows)} rows)"] *)
Definition footer_line (rows : list Row) : string :=
  "(" +:+ DecimalString.NilZero.string_of_uint (Nat.to_uint (length rows))
  +:+ " rows)".

(** The list [lines] of [format_rows], for a non-empty [rows]. *)
Definition format_lines (rows : list Row) : result (list string) :=
  let cols := all_keys rows in
  bind (widen rows cols (initial_widths cols)) (fun col_widths =>
  bind (header_line cols col_widths) (fun header =>
  bind (separator_line cols col_widths) (fun sep =>
  bind (mapM (row_line cols col_widths) rows) (fun body =>
  Ok ([header; sep] ++ body ++ [footer_line rows]))))).

Definition newline : string := String (ascii_of_nat 10) "".

Definition format_rows (rows : list Row) : result string :=
  match rows with
  | [] => Ok "(0 rows)"
  | _ => bind (format_lines rows) (fun lines => Ok (join newline lines))
  end.

(** * Further vocabulary of the properties *)

(** The shape of a token by its kind: the text the pattern of the kind
    matches, and [None] for a STRING token. *)
Definition token_shape (tok : Token) : Prop :=
  match kind tok with
  | WS => False
  | NUMBER =>
      exists s, text tok = Some s /\ s <> "" /\ all_chars is_digit s = true
  | STRING => text tok = None
  | IDENT => exists s, text tok = Some s /\ is_identifier s = true
  | LPAREN => text tok = Some "("
  | RPAREN => text tok = Some ")"
  | COMMA => text tok = Some ","
  | STAR => text tok = Some "*"
  | SEMICOLON => text tok = Some ";"
  end.

(** The exceptions [parse] raises on a source string: a SyntaxError, the
    ValueError of [ColumnType.from_sql], and the ValueError of [int] for a
    literal of too many digits. *)
Definition parse_error (e : exn) : Prop :=
  match e with
  | SyntaxError _ => True
  | ValueError (UnsupportedColumnType _) => True
  | ValueError (IntTooManyDigits _) => True
  | _ => False
  end.

Definition parsed_column (c : ColumnDef) : Prop :=
  is_identifier (col_name c) = true
  /\ nullable c = true /\ primary_key c = false.

Definition parsed_value (v : Value) : Prop :=
  v = VNone \/ exists z, v = VInt z /\ (0 <= z)%Z.

(** The statements [parse] returns on a source string. *)
Definition parsed_statement (stmt : Statement) : Prop :=
  match stmt with
  | CreateTableStmt name columns =>
      is_identifier name = true
      /\ columns <> [] /\ Forall parsed_column columns
  | InsertStmt table_name values =>
      is_identifier table_name = true
      /\ values <> [] /\ Forall parsed_value values
  | SelectStmt table_name None => is_identifier table_name = true
  | SelectStmt table_name (Some cols) =>
      is_identifier table_name = true
      /\ cols <> [] /\ Forall (fun c => is_identifier c = true) cols
  end.

(** A triple for the methods of [Parser] on a fixed token list: whatever
    the position, the method returns a value that satisfies [Q] or raises
    an exception that [parse_error] allows. *)
Definition returns {A} (toks : list Token) (p : Parser A) (Q : A -> Prop)
  : Prop :=
  forall pos,
    match p toks pos with
    | Ok (a, _) => Q a
    | Raise e => parse_error e
    end.

(** What [parse] makes of the tokens [rest] that follow a statement: one
    semicolon is skipped, and any token after that is an error. *)
Definition after_statement (stmt : Statement) (rest : list Token)
  : result Statement :=
  let unexpected (extra : Token) :=
    Raise (SyntaxError (UnexpectedTokenAfterStatement (text extra))) in
  match rest with
  | [] => Ok stmt
  | tok :: rest' =>
      if bool_decide (kind tok = SEMICOLON) then
        match rest' with
        | [] => Ok stmt
        | extra :: _ => unexpected extra
        end
      else unexpected tok
  end.

(** The value [_parse_insert] reads off a literal token, if it is one. *)
Definition literal_value (tok : Token) : option Value :=
  match kind tok with
  | NUMBER =>
      match int (text tok) with
      | Ok z => Some (VInt z)
      | Raise _ => None
      end
  | STRING =>
      Some (match text tok with Some s => VStr s | None => VNone end)
  | _ => None
  end.

(** A literal as written before another one: the token and a comma. *)
Definition literal_tokens (tv : Token * Value) : list Token :=
  [fst tv; comma].

Definition literal_valid (tv : Token * Value) : Prop :=
  literal_value (fst tv) = Some (snd tv).

Definition insert_tokens (kw1 kw2 table_name kw3 : string)
  (literals : list (Token * Value)) (last : Token) : list Token :=
  [ident kw1; ident kw2; ident table_name; ident kw3; lparen]
  ++ concat (map literal_tokens literals) ++ [last; rparen].

Definition select_tokens (kw1 : string) (cs : list string) (c kw2 : string)
  (table_name : string) : list Token :=
  [ident kw1] ++ concat (map name_tokens cs)
  ++ [ident c; ident kw2; ident table_name].

(** Widths only grow. *)
Definition widths_le (W W' : gmap string nat) : Prop :=
  forall c n, W !! c = Some n -> exists n', W' !! c = Some n' /\ n <= n'.

(** The widths are wide enough for the cells of [row] under [cols]. *)
Definition fits (cols : list string) (W : gmap string nat) (row : Row)
  : Prop :=
  forall c, c ∈ cols ->
    exists cell n, cell_str (dict_get c row) = Ok cell
                   /\ W !! c = Some n /\ String.length cell <= n.

(** An exception of [format_rows] comes from [str] on an integer of some
    cell. *)
Definition from_cell (rows : list Row) (e : exn) : Prop :=
  exists row c z,
    row ∈ rows /\ dict_get c row = Some (VInt z) /\ str_int z = Raise e.

(** The length every line of the table has: the widths of the columns and
    three characters between two columns. *)
Definition line_width (cols : list string) (W : gmap string nat) : nat :=
  sum_list (map (fun c => default 0 (W !! c)) cols) + 3 * (length cols - 1).

(** The text of the cell of [row] under [c]: [cell_str(row.get(c))] where
    [str] accepts the value, and the empty string where it does not. *)
Definition cell_text (c : string) (row : Row) : string :=
  match cell_str (dict_get c row) with
  | Ok s => s
  | Raise _ => ""
  end.

(** The width of column [c]: the longest of its name and its cells. *)
Definition column_width (rows : list Row) (c : string) : nat :=
  max_list (String.length c
            :: map (fun row => String.length (cell_text c row)) rows).

(** The lines of the result table, column by column: the names, the
    dashes and the cells of a row, each as wide as its column. *)
Definition table_header (rows : list Row) : string :=
  join " | " (map (fun c => ljust c (column_width rows c)) (all_keys rows)).

Definition table_separator (rows : list Row) : string :=
  join "-+-" (map (fun c => replicate_char "-" (column_width rows c))
                  (all_keys rows)).

Definition table_row (rows : list Row) (row : Row) : string :=
  join " | " (map (fun c => ljust (cell_text c row) (column_width rows c))
                  (all_keys rows)).

(** Two rows of a result. *)
Definition people_rows : list Row :=
  [[("id", VInt 1); ("name", VStr "Alice")];
   [("id", VInt 20); ("name", VNone)]].

(** * Properties *)

(** ** Dictionaries *)

Section dict.
Implicit Types (row : Row) (k key : string) (v : Value).
Implicit Types (ks : list string).

Lemma eqb_decide k1 k2 : String.eqb k1 k2 = bool_decide (k1 = k2).
Proof.
  destruct (String.eqb_spec k1 k2); case_bool_decide; congruence.
Qed.

Lemma keys_dict_set key v row :
  keys (dict_set key v row) =
  if decide (key ∈ keys row) then keys row else keys row ++ [key].
Proof.
  induction row as [|[k w] row IH]; cbn [dict_set keys map fst app].
  - rewrite decide_False; [done | apply not_elem_of_nil].
  - rewrite eqb_decide. fold (keys row) in *.
    case_bool_decide as Hk; cbn [keys map fst].
    + subst. rewrite decide_True; [done | left].
    + fold (keys (dict_set key v row)). rewrite IH.
      destruct (decide (key ∈ keys row)) as [Hin|Hin].
      * rewrite decide_True; [done | by right].
      * rewrite decide_False; [done|].
        intros [?|?]%elem_of_cons; congruence.
Qed.

Lemma dict_get_set key k v row :
  dict_get k (dict_set key v row) =
  if decide (k = key) then Some v else dict_get k row.
Proof.
  induction row as [|[k' w] row IH]; simpl.
  - rewrite eqb_decide. case_bool_decide; case_decide; congruence.
  - rewrite (eqb_decide k' key). case_bool_decide as Hk; simpl;
      rewrite (eqb_decide k' k); case_bool_decide; case_decide;
      try congruence.
    all: rewrite IH; case_decide; congruence.
Qed.

Lemma dict_get_is_Some k row : is_Some (dict_get k row) <-> k ∈ keys row.
Proof.
  induction row as [|[k' w] row IH]; simpl.
  - split; [intros [? [=]] | intros []%elem_of_nil].
  - rewrite eqb_decide, elem_of_cons. case_bool_decide; simpl.
    + split; eauto.
    + rewrite IH. split; [auto | intros [?|?]; [congruence | done]].
Qed.

Lemma elem_of_assign_keys (acc : list string) ks k :
  k ∈ assign_keys acc ks <-> k ∈ acc \/ k ∈ ks.
Proof.
  revert acc; induction ks as [|k' ks IH]; intros acc; simpl.
  - rewrite elem_of_nil. tauto.
  - rewrite IH, elem_of_cons. case_decide.
    + split; [tauto | intros [?|[->|?]]; auto].
    + rewrite elem_of_app, list_elem_of_singleton. tauto.
Qed.

Lemma NoDup_assign_keys (acc : list string) ks :
  NoDup acc -> NoDup (assign_keys acc ks).
Proof.
  revert acc; induction ks as [|k' ks IH]; intros acc Hacc; simpl; [done|].
  apply IH. case_decide; [done|].
  apply NoDup_app. split_and!; [done | | apply NoDup_singleton].
  intros x Hx ->%list_elem_of_singleton. done.
Qed.

Lemma assign_keys_NoDup (acc : list string) ks :
  NoDup (acc ++ ks) -> assign_keys acc ks = acc ++ ks.
Proof.
  revert acc; induction ks as [|k' ks IH]; intros acc Hnd; simpl.
  - by rewrite app_nil_r.
  - rewrite decide_False.
    + rewrite IH; rewrite <- app_assoc; done.
    + apply NoDup_app in Hnd as (_ & Hd & _). intros Hin.
      apply (Hd _ Hin). left.
Qed.

Lemma distinct_NoDup ks : NoDup ks -> distinct ks = ks.
Proof. intros. by apply (assign_keys_NoDup []). Qed.

Lemma elem_of_distinct ks k : k ∈ distinct ks <-> k ∈ ks.
Proof.
  unfold distinct. rewrite elem_of_assign_keys, elem_of_nil. tauto.
Qed.

Lemma NoDup_distinct ks : NoDup (distinct ks).
Proof. apply NoDup_assign_keys, NoDup_nil_2. Qed.

(** An element of a list without repetition occurs in it exactly once. *)
Lemma count_occ_NoDup (l : list string) k :
  NoDup l -> k ∈ l -> count_occ string_dec l k = 1.
Proof.
  intros Hnd Hin. apply NoDup_ListNoDup in Hnd.
  apply list_elem_of_In in Hin.
  pose proof (proj1 (NoDup_count_occ string_dec l) Hnd k).
  apply (count_occ_In string_dec) in Hin. lia.
Qed.

Lemma keys_fill pairs (acc : Row) :
  keys (fill pairs acc) =
  assign_keys (keys acc) (map (fun cv => col_name (fst cv)) pairs).
Proof.
  revert acc; induction pairs as [|[c v] pairs IH]; intros acc; simpl;
    [done|].
  unfold fill in *. rewrite IH, keys_dict_set. done.
Qed.

Lemma fill_NoDup pairs (acc : Row) :
  NoDup (keys acc ++ map (fun cv => col_name (fst cv)) pairs) ->
  fill pairs acc = acc ++ map (fun cv => (col_name (fst cv), snd cv)) pairs.
Proof.
  revert acc; induction pairs as [|[c v] pairs IH]; intros acc Hnd; simpl.
  - by rewrite app_nil_r.
  - assert (dict_set (col_name c) v acc = acc ++ [(col_name c, v)]) as Hs.
    { simpl in Hnd. apply NoDup_app in Hnd as (_ & Hd & _).
      assert (col_name c ∉ keys acc) as Hn
        by (intros Hin; apply (Hd _ Hin); left).
      clear -Hn. induction acc as [|[k w] acc IHa]; simpl; [done|].
      rewrite eqb_decide. case_bool_decide as Hk.
      - subst. destruct Hn. left.
      - rewrite IHa; [done|]. intros ?. apply Hn. by right. }
    unfold fill in *. rewrite Hs, IH.
    + by rewrite <- app_assoc.
    + unfold keys in *. rewrite map_app. simpl.
      by rewrite <- app_assoc.
Qed.
End dict.

(** ** Rows built by [insert_row] *)

Section rows.
Implicit Types (cols : list ColumnDef) (vs : list Value) (t : Table).

Lemma zip_names cols vs :
  length vs = length cols ->
  map (fun cv : ColumnDef * Value => col_name (fst cv)) (zip cols vs)
  = map col_name cols.
Proof.
  revert vs; induction cols as [|c cols IH]; intros [|v vs] Hlen;
    simpl in *; try done.
  f_equal. apply IH. lia.
Qed.

Lemma keys_make_row cols vs :
  length vs = length cols ->
  keys (make_row cols vs) = distinct (map col_name cols).
Proof.
  intros Hlen. unfold make_row. fold (fill (zip cols vs) []).
  by rewrite keys_fill, zip_names.
Qed.

Lemma make_row_NoDup cols vs :
  length vs = length cols ->
  NoDup (map col_name cols) ->
  make_row cols vs = zip (map col_name cols) vs.
Proof.
  intros Hlen Hnd. unfold make_row. fold (fill (zip cols vs) []).
  rewrite fill_NoDup; simpl; [|by rewrite zip_names].
  clear Hnd. revert vs Hlen; induction cols as [|c cols IH];
    intros [|v vs] Hlen; simpl in *; try done.
  f_equal. apply IH. lia.
Qed.

Lemma dict_get_fill_other pairs (acc : Row) k :
  k ∉ map (fun cv : ColumnDef * Value => col_name (fst cv)) pairs ->
  dict_get k (fill pairs acc) = dict_get k acc.
Proof.
  revert acc; induction pairs as [|[c v] pairs IH]; intros acc Hk;
    [done|].
  cbn [map fst] in Hk. apply not_elem_of_cons in Hk as [Hne Hk].
  unfold fill in *. cbn [fold_left fst snd].
  rewrite IH by done. rewrite dict_get_set. by rewrite decide_False.
Qed.

(** The value given at position [i] is bound to the name of column [i],
    unless a later column has the same name. *)
Lemma make_row_lookup (cols : list ColumnDef) (vs : list Value) i c v :
  cols !! i = Some c ->
  vs !! i = Some v ->
  (forall j c', i < j -> cols !! j = Some c' -> col_name c' <> col_name c) ->
  dict_get (col_name c) (make_row cols vs) = Some v.
Proof.
  intros Hc Hv Hlater.
  assert (zip cols vs !! i = Some (c, v)) as Hz.
  { apply lookup_zip_with_Some. eauto. }
  unfold make_row. rewrite <- (take_drop_middle _ _ _ Hz).
  rewrite fold_left_app. cbn [fold_left fst snd].
  fold (fill (take i (zip cols vs)) []).
  fold (fill (drop (S i) (zip cols vs))
             (dict_set (col_name c) v (fill (take i (zip cols vs)) []))).
  rewrite dict_get_fill_other.
  - rewrite dict_get_set. by rewrite decide_True.
  - intros ([c' v'] & Heq & Hin)%list_elem_of_fmap.
    apply list_elem_of_lookup in Hin as [j Hj].
    rewrite lookup_drop in Hj.
    apply lookup_zip_with_Some in Hj as (c'' & v'' & [= <- <-] & Hc' & _).
    apply (Hlater (S i + j) c'); [lia | done | done].
Qed.

Lemma insert_row_ok vs t :
  length vs = length (columns t) ->
  insert_row vs t =
    (Ok tt, mkTable (name t) (columns t)
                    (_rows t ++ [make_row (columns t) vs])).
Proof.
  intros Hlen. unfold insert_row.
  by rewrite (proj2 (Nat.eqb_eq _ _) Hlen).
Qed.

Lemma insert_row_mismatch vs t :
  length vs <> length (columns t) ->
  insert_row vs t =
    (Raise (ValueError (ExpectedValues (length (columns t)) (length vs))),
     t).
Proof.
  intros Hlen. unfold insert_row.
  by rewrite (proj2 (Nat.eqb_neq _ _) Hlen).
Qed.
End rows.

(** ** The table registry *)

Section database.
Implicit Types (db : Database) (t : Table) (vs : list Value).

Lemma get_table_Ok table_name db t :
  get_table table_name db = Ok t <-> db !! lower table_name = Some t.
Proof.
  unfold get_table. destruct (db !! lower table_name); split; congruence.
Qed.

Lemma insert_ok table_name vs db t :
  get_table table_name db = Ok t ->
  length vs = length (columns t) ->
  insert table_name vs db =
    (Ok tt,
     <[lower table_name :=
         mkTable (name t) (columns t)
                 (_rows t ++ [make_row (columns t) vs])]> db).
Proof.
  intros Ht Hlen. unfold insert. by rewrite Ht, insert_row_ok.
Qed.

Lemma insert_mismatch table_name vs db t :
  get_table table_name db = Ok t ->
  length vs <> length (columns t) ->
  insert table_name vs db =
    (Raise (ValueError (ExpectedValues (length (columns t)) (length vs))),
     db).
Proof.
  intros Ht Hlen. unfold insert. rewrite Ht, insert_row_mismatch by done.
  f_equal. apply insert_id. by apply get_table_Ok.
Qed.

Lemma insert_all_ok table_name rows db db' t :
  get_table table_name db = Ok t ->
  insert_all table_name rows db = (Ok tt, db') ->
  Forall (fun vs => length vs = length (columns t)) rows /\
  get_table table_name db' =
    Ok (mkTable (name t) (columns t)
                (_rows t ++ map (make_row (columns t)) rows)).
Proof.
  revert db t; induction rows as [|vs rows IH]; intros db t Ht; simpl.
  - intros [= <-]. split; [constructor|].
    rewrite app_nil_r. by destruct t.
  - destruct (decide (length vs = length (columns t))) as [Hlen|Hlen].
    + rewrite (insert_ok _ _ _ _ Ht Hlen). intros Hall.
      eapply IH in Hall as [Hf Hg].
      2:{ apply get_table_Ok. apply lookup_insert_eq. }
      simpl in *. split; [by constructor|].
      by rewrite Hg, <- app_assoc.
    + by rewrite (insert_mismatch _ _ _ _ Ht Hlen).
Qed.
End database.

(** ** C1, C2: inserting and reading back *)

(** C2, as stated, fails: in the table of [CREATE TABLE t (a INT, a INT)]
    the insert of the two values [1] and [2] succeeds, and the row it
    appends has the single entry [a: 2]: the first value is bound to no
    column, and the row is not the columns zipped with the values. *)
Lemma repeated_column_breaks_positional_binding :
  exists db t,
    db = run [create_t_a_a] ∅
    /\ reachable db
    /\ get_table "t" db = Ok t
    /\ column_names t = ["a"; "a"]
    /\ _rows t = []
    /\ insert "t" [VInt 1; VInt 2] db =
         (Ok tt, <["t" := mkTable "t" (columns t) [[("a", VInt 2)]]]> db)
    /\ dict_get "a" [("a", VInt 2)] <> Some (VInt 1)
    /\ [("a", VInt 2)] <> zip (column_names t) [VInt 1; VInt 2].
Proof.
  eexists. eexists. split; [reflexivity|]. split_and!.
  - exact (reachable_execute create_t_a_a ∅ reachable_empty).
  - vm_compute. reflexivity.
  - reflexivity.
  - reflexivity.
  - vm_compute. reflexivity.
  - discriminate.
  - discriminate.
Qed.

(** C2, amended.  For a table that exists, [Database.insert] succeeds
    exactly when the number of values is the number of declared columns.
    On success one row is appended after the rows the table had, and the
    table keeps its name and columns; the keys of the row are the distinct
    column names in order of first declaration, and the row binds the
    value at each position to the name of the column at that position
    unless a later column repeats the name, so for column names that are
    all different it is the column names zipped with the values.  On a
    mismatch a ValueError carrying both counts is raised and the database
    is the one before the call. *)
Theorem insert_succeeds_iff_count_matches
  (db : Database) (table_name : string) (t : Table) (values : list Value) :
  get_table table_name db = Ok t ->
  ((exists db', insert table_name values db = (Ok tt, db'))
     <-> length values = length (columns t))
  /\ (length values = length (columns t) ->
      let row := make_row (columns t) values in
      let t' := mkTable (name t) (columns t) (_rows t ++ [row]) in
      insert table_name values db = (Ok tt, <[lower table_name := t']> db)
      /\ get_table table_name (snd (insert table_name values db)) = Ok t'
      /\ length (_rows t') = S (length (_rows t))
      /\ keys row = distinct (column_names t)
      /\ (forall i c v,
            columns t !! i = Some c -> values !! i = Some v ->
            (forall j c', i < j -> columns t !! j = Some c' ->
                          col_name c' <> col_name c) ->
            dict_get (col_name c) row = Some v)
      /\ (NoDup (column_names t) -> row = zip (column_names t) values))
  /\ (length values <> length (columns t) ->
      insert table_name values db =
        (Raise (ValueError
                  (ExpectedValues (length (columns t)) (length values))),
         db)).
Proof.
  intros Ht. split_and!.
  - split.
    + intros [db' Hins].
      destruct (decide (length values = length (columns t))) as [|Hne];
        [done|].
      by rewrite (insert_mismatch _ _ _ _ Ht Hne) in Hins.
    + intros Hlen. eexists. by apply insert_ok.
  - intros Hlen row t'. rewrite (insert_ok _ _ _ _ Ht Hlen). simpl.
    split_and!; [done | | | | | ].
    + apply get_table_Ok, lookup_insert_eq.
    + rewrite length_app. simpl. lia.
    + by apply keys_make_row.
    + intros i c v. apply make_row_lookup.
    + intros Hnd. by apply make_row_NoDup.
  - intros Hne. by apply insert_mismatch.
Qed.

Lemma insert_succeeds_iff_count_matches_witness :
  get_table "Users" users_db = Ok (mkTable "users" users_columns [])
  /\ insert "Users" [VInt 1; VStr "a"] users_db =
       (Ok tt,
        <["users" := mkTable "users" users_columns
                       [[("id", VInt 1); ("name", VStr "a")]]]> users_db).
Proof.
  assert (get_table "Users" users_db = Ok (mkTable "users" users_columns []))
    as Ht by (vm_compute; reflexivity).
  split; [exact Ht|].
  destruct (insert_succeeds_iff_count_matches users_db "Users" _
              [VInt 1; VStr "a"] Ht) as (_ & Hok & _).
  exact (proj1 (Hok eq_refl)).
Defined.

(** C1.  Create a table with columns [cols], then do [N] inserts into it
    that all succeed: [SELECT *] returns [N] rows, the i-th holding the
    values of the i-th insert.  Its keys are the distinct column names in
    order of first declaration; under the name of each column it holds the
    value the insert gave at the position of that column (of the last
    column of that name, where a name repeats), so for column names that
    are all different it is the column names zipped with the values of the
    insert; and it has a value under the name of every declared column. *)
Theorem create_insert_select_star
  (db0 db1 db2 : Database) (table_name : string) (cols : list ColumnDef)
  (inserted : list (list Value)) :
  create_table table_name cols db0 = (Ok tt, db1) ->
  insert_all table_name inserted db1 = (Ok tt, db2) ->
  exists rows,
    select table_name None db2 = Ok rows
    /\ length rows = length inserted
    /\ Forall2 (fun values row =>
         length values = length cols
         /\ keys row = distinct (map col_name cols)
         /\ (forall i c v,
               cols !! i = Some c -> values !! i = Some v ->
               (forall j c', i < j -> cols !! j = Some c' ->
                             col_name c' <> col_name c) ->
               dict_get (col_name c) row = Some v)
         /\ (NoDup (map col_name cols) ->
             row = zip (map col_name cols) values)
         /\ (forall c, c ∈ cols -> is_Some (dict_get (col_name c) row)))
       inserted rows.
Proof.
  intros Hc Hins.
  assert (get_table table_name db1 = Ok (mkTable table_name cols [])) as Ht.
  { unfold create_table in Hc.
    destruct (db0 !! lower table_name); [discriminate|].
    injection Hc as <-. apply get_table_Ok, lookup_insert_eq. }
  destruct (insert_all_ok _ _ _ _ _ Ht Hins) as [Hlen Ht2]. simpl in *.
  exists (map (make_row cols) inserted). split_and!.
  - unfold select. by rewrite Ht2.
  - by rewrite length_map.
  - apply Forall2_fmap_r, Forall_Forall2_diag.
    eapply Forall_impl; [exact Hlen|].
    intros values Hl. simpl in Hl. split_and!.
    + done.
    + by apply keys_make_row.
    + intros i c v. apply make_row_lookup.
    + intros Hnd. by apply make_row_NoDup.
    + intros c Hcin. apply dict_get_is_Some. rewrite keys_make_row by done.
      apply elem_of_distinct, list_elem_of_fmap. eauto.
Qed.

Lemma create_insert_select_star_witness :
  select "users" None
    (snd (insert_all "users" [[VInt 1; VNone]; [VInt 2; VStr "b"]] users_db))
  = Ok [[("id", VInt 1); ("name", VNone)];
        [("id", VInt 2); ("name", VStr "b")]].
Proof.
  destruct (create_insert_select_star ∅ users_db
              (snd (insert_all "users" [[VInt 1; VNone]; [VInt 2; VStr "b"]]
                      users_db))
              "users" users_columns [[VInt 1; VNone]; [VInt 2; VStr "b"]])
    as (rows & Hsel & _ & Hrows).
  - vm_compute; reflexivity.
  - vm_compute; reflexivity.
  - assert (NoDup (map col_name users_columns)) as Hnd
      by (apply (bool_decide_unpack _); vm_compute; reflexivity).
    apply Forall2_cons_inv_l in Hrows
      as (row1 & rows1 & (_ & _ & _ & Hrow1 & _) & Hrows & ->).
    apply Forall2_cons_inv_l in Hrows
      as (row2 & rows2 & (_ & _ & _ & Hrow2 & _) & Hrows & ->).
    apply Forall2_nil_inv_l in Hrows as ->.
    rewrite (Hrow1 Hnd), (Hrow2 Hnd) in Hsel. exact Hsel.
Defined.

(** ** C6: the shape of stored rows *)

Lemma create_table_preserves name columns db :
  db_ok db -> db_ok (snd (create_table name columns db)).
Proof.
  intros Hok. unfold create_table.
  destruct (db !! lower name) eqn:Hl; simpl; [done|].
  intros key t. rewrite lookup_insert. case_decide as Hk.
  - intros [= <-]. simpl. split; [done | constructor].
  - apply Hok.
Qed.

Lemma insert_preserves table_name values db :
  db_ok db -> db_ok (snd (insert table_name values db)).
Proof.
  intros Hok. unfold insert.
  destruct (get_table table_name db) as [t|e] eqn:Ht; simpl; [|done].
  apply get_table_Ok in Ht. destruct (Hok _ _ Ht) as [Hkey Hrows].
  destruct (decide (length values = length (columns t))) as [Hlen|Hlen].
  - rewrite insert_row_ok by done. simpl.
    intros key t'. rewrite lookup_insert. case_decide as Hk; [|apply Hok].
    intros [= <-]. simpl. split; [congruence|].
    apply Forall_app. split; [exact Hrows|]. constructor; [|constructor].
    unfold one_value_per_name, column_names. simpl.
    by apply keys_make_row.
  - rewrite insert_row_mismatch by done. simpl. by rewrite insert_id.
Qed.

Lemma execute_preserves stmt db : db_ok db -> db_ok (snd (execute stmt db)).
Proof.
  intros Hok. destruct stmt as [n cols | n vs | n cols]; simpl.
  - pose proof (create_table_preserves n cols db Hok).
    by destruct (create_table n cols db).
  - pose proof (insert_preserves n vs db Hok).
    by destruct (insert n vs db).
  - done.
Qed.

Lemma reachable_ok db : reachable db -> db_ok db.
Proof.
  induction 1 as [|stmt db _ IH].
  - intros key t. by rewrite lookup_empty.
  - by apply execute_preserves.
Qed.

Lemma run_reachable stmts db : reachable db -> reachable (run stmts db).
Proof.
  revert db; induction stmts as [|stmt stmts IH]; intros db Hr; simpl;
    [done|].
  apply IH. by constructor.
Qed.

(** C6, as stated, fails: [CREATE TABLE t (a INT, a INT)] is accepted, and
    after [INSERT INTO t VALUES (1, 2)] the table has two declared columns
    and a row with the single entry [a: 2]. *)
Lemma repeated_column_breaks_rows_match_columns :
  parse "CREATE TABLE t (a INT, a INT)" = Ok create_t_a_a
  /\ parse "INSERT INTO t VALUES (1, 2)" = Ok insert_t_1_2
  /\ exists db,
       db = run [create_t_a_a; insert_t_1_2] ∅
       /\ reachable db
       /\ db !! "t" = Some (mkTable "t" [ColumnDef_new "a" INT;
                                        ColumnDef_new "a" INT]
                                   [[("a", VInt 2)]])
       /\ ~ rows_match_columns db.
Proof.
  split; [vm_compute; reflexivity|]. split; [vm_compute; reflexivity|].
  eexists. split; [reflexivity|].
  assert (run [create_t_a_a; insert_t_1_2] ∅ !! "t" =
          Some (mkTable "t" [ColumnDef_new "a" INT; ColumnDef_new "a" INT]
                        [[("a", VInt 2)]])) as Hl
    by (vm_compute; reflexivity).
  split_and!.
  - apply run_reachable. constructor.
  - exact Hl.
  - intros Hinv. specialize (Hinv _ _ Hl). simpl in Hinv.
    apply Forall_cons in Hinv as [Hrow _]. discriminate Hrow.
Qed.

(** C6, amended.  In every reachable state every row of every table has
    exactly one value per distinct declared column name, the names in
    order of first declaration; so in a table whose declared column names
    are all different every row has exactly one value per declared column,
    in declared order. *)
Theorem reachable_rows_one_value_per_name
  (db : Database) (key : string) (t : Table) :
  reachable db ->
  db !! key = Some t ->
  Forall (fun row =>
            one_value_per_name t row
            /\ NoDup (keys row)
            /\ (forall c, c ∈ column_names t -> is_Some (dict_get c row))
            /\ (NoDup (column_names t) ->
                one_value_per_column t row
                /\ length row = length (columns t)))
         (_rows t).
Proof.
  intros Hr Hl. destruct (reachable_ok db Hr key t Hl) as [_ Hrows].
  eapply Forall_impl; [exact Hrows|]. intros row Hrow.
  unfold one_value_per_name, one_value_per_column in *. split_and!.
  - done.
  - rewrite Hrow. apply NoDup_distinct.
  - intros c Hc. apply dict_get_is_Some. rewrite Hrow.
    by apply elem_of_distinct.
  - intros Hnd. rewrite Hrow, distinct_NoDup by done. split; [done|].
    apply (f_equal length) in Hrow. unfold keys, column_names in Hrow.
    rewrite distinct_NoDup in Hrow by done.
    by rewrite !length_map in Hrow.
Qed.

Lemma reachable_rows_one_value_per_name_witness :
  Forall (fun row =>
            one_value_per_name (mkTable "users" users_columns
                                  [[("id", VInt 1); ("name", VNone)]]) row
            /\ keys row = ["id"; "name"])
         [[("id", VInt 1); ("name", VNone)]].
Proof.
  pose proof (reachable_rows_one_value_per_name
    (run [CreateTableStmt "users" users_columns;
          InsertStmt "USERS" [VInt 1; VNone]] ∅)
    "users"
    (mkTable "users" users_columns [[("id", VInt 1); ("name", VNone)]])
    (run_reachable _ _ reachable_empty)
    ltac:(vm_compute; reflexivity)) as H.
  simpl in H. eapply Forall_impl; [exact H|].
  intros row (H1 & _ & _ & H2). split; [exact H1|].
  apply H2. apply (bool_decide_unpack _). vm_compute. exact I.
Defined.

(** ** Projection *)

Section projection.
Implicit Types (cn : list string) (row acc : Row) (rows : list Row).

(** The dict comprehension of [Table.select] either fails on the first
    requested name the row lacks, or yields a dict with the requested
    names, each once, bound as in the row. *)
Lemma project_onto_spec cn row acc :
  match project_onto cn row acc with
  | Ok p =>
      keys p = assign_keys (keys acc) cn
      /\ (forall k, dict_get k p =
                    if decide (k ∈ cn) then dict_get k row
                    else dict_get k acc)
      /\ (forall c, c ∈ cn -> c ∈ keys row)
  | Raise e =>
      exists c, e = KeyError (MissingKey c) /\ c ∈ cn /\ c ∉ keys row
  end.
Proof.
  revert acc; induction cn as [|col cn IH]; intros acc;
    cbn [project_onto].
  - split_and!; [done | | by intros c ?%elem_of_nil].
    intros k. rewrite decide_False; [done | apply not_elem_of_nil].
  - unfold dict_getitem.
    destruct (dict_get col row) as [v|] eqn:Hv; cbn [bind].
    + specialize (IH (dict_set col v acc)).
      destruct (project_onto cn row (dict_set col v acc)) as [p|e].
      * destruct IH as (Hk & Hg & Hin). split_and!.
        -- by rewrite Hk, keys_dict_set.
        -- intros k. rewrite Hg, dict_get_set.
           destruct (decide (k ∈ cn)) as [Hc|Hc].
           ++ rewrite decide_True; [done | by right].
           ++ destruct (decide (k = col)) as [->|Hne].
              ** rewrite decide_True; [done | left].
              ** rewrite decide_False; [done|].
                 by intros [?|?]%elem_of_cons.
        -- intros c [->|?]%elem_of_cons; [|by apply Hin].
           apply dict_get_is_Some. by rewrite Hv.
      * destruct IH as (c & -> & Hc & Hn). exists c.
        split_and!; [done | by right | done].
    + exists col. split_and!; [done | left |].
      rewrite <- dict_get_is_Some, Hv. by intros [? [=]].
Qed.

Lemma project_rows_spec cn rows res :
  match project_rows cn rows res with
  | Ok out =>
      exists ps, out = res ++ ps
                 /\ Forall2 (fun row p => project cn row = Ok p) rows ps
  | Raise e =>
      exists row c, row ∈ rows /\ e = KeyError (MissingKey c)
                    /\ c ∈ cn /\ c ∉ keys row
  end.
Proof.
  revert res; induction rows as [|row rows IH]; intros res; simpl.
  - exists []. by rewrite app_nil_r.
  - pose proof (project_onto_spec cn row []) as Hp. fold (project cn row) in Hp.
    destruct (project cn row) as [p|e] eqn:Hpr; simpl.
    + specialize (IH (res ++ [p])).
      destruct (project_rows cn rows (res ++ [p])) as [out|e].
      * destruct IH as (ps & -> & Hf). exists (p :: ps).
        rewrite <- app_assoc. split; [done|]. by constructor.
      * destruct IH as (r & c & Hr & ? & ? & ?). exists r, c.
        split_and!; [by right | done..].
    + destruct Hp as (c & -> & ? & ?). exists row, c.
      split_and!; [left | done..].
Qed.
End projection.

(** ** C3: unknown columns *)

(** C3.  For a table of a reachable database, a select with an explicit
    column list raises exactly when some requested name is not a column
    name of the table; what it raises is then a KeyError carrying the list
    of all requested names that are not column names.  A select with no
    column list returns the stored rows, in their order. *)
Theorem select_raises_iff_unknown_column
  (db : Database) (table_name : string) (t : Table) (cn : list string) :
  reachable db ->
  get_table table_name db = Ok t ->
  let missing := filter (fun c => c ∉ column_names t) cn in
  ((exists e, select table_name (Some cn) db = Raise e)
     <-> (exists c, c ∈ cn /\ c ∉ column_names t))
  /\ (forall e, select table_name (Some cn) db = Raise e ->
                e = KeyError (UnknownColumns missing))
  /\ (forall c, c ∈ missing <-> c ∈ cn /\ c ∉ column_names t)
  /\ select table_name None db = Ok (_rows t).
Proof.
  intros Hr Ht missing.
  assert (forall c, c ∈ missing <-> c ∈ cn /\ c ∉ column_names t) as Hmiss.
  { intros c. unfold missing. rewrite list_elem_of_filter. tauto. }
  assert (missing = [] ->
          exists rows, project_rows cn (_rows t) [] = Ok rows) as Hproj.
  { intros Hnil.
    pose proof (project_rows_spec cn (_rows t) []) as Hp.
    destruct (project_rows cn (_rows t) []) as [out|e]; [eauto|].
    destruct Hp as (row & c & Hrow & _ & Hc & Hn). exfalso.
    apply get_table_Ok in Ht.
    destruct (reachable_ok db Hr _ _ Ht) as [_ Hrows].
    rewrite Forall_forall in Hrows. specialize (Hrows row Hrow).
    unfold one_value_per_name in Hrows.
    rewrite Hrows, elem_of_distinct in Hn.
    assert (c ∈ missing) as Hcm by (apply Hmiss; done).
    rewrite Hnil in Hcm. by apply elem_of_nil in Hcm. }
  unfold select. rewrite Ht. simpl. fold missing.
  split_and!; [ | | exact Hmiss | done].
  - case_bool_decide as Hm; simpl.
    + destruct (Hproj Hm) as [rows ->]. split.
      * intros [e [=]].
      * intros (c & Hc & Hn). assert (c ∈ missing) as Hcm by (by apply Hmiss).
        rewrite Hm in Hcm. by apply elem_of_nil in Hcm.
    + split; [|eauto]. intros _.
      destruct missing as [|c ?] eqn:Hmm; [done|].
      exists c. apply Hmiss. left.
  - intros e. case_bool_decide as Hm; simpl; [|congruence].
    destruct (Hproj Hm) as [rows ->]. discriminate.
Qed.

Lemma select_raises_iff_unknown_column_witness :
  exists e,
    select "users" (Some ["age"; "id"; "Name"])
      (run [CreateTableStmt "users" users_columns;
            InsertStmt "users" [VInt 1; VNone]] ∅)
    = Raise e.
Proof.
  destruct (select_raises_iff_unknown_column
    (run [CreateTableStmt "users" users_columns;
          InsertStmt "users" [VInt 1; VNone]] ∅)
    "users"
    (mkTable "users" users_columns [[("id", VInt 1); ("name", VNone)]])
    ["age"; "id"; "Name"]
    (run_reachable _ _ reachable_empty)
    ltac:(vm_compute; reflexivity)) as (Hiff & _).
  apply Hiff. exists "age". split; [left|].
  apply (bool_decide_unpack _). vm_compute. exact I.
Defined.

(** ** C7: a column requested more than once *)

(** C7.  When a select with an explicit column list returns, it returns one
    row per stored row, in order; if the name [c] was requested more than
    once, it is a key of each returned row exactly once (no key of a
    returned row repeats), and its value there is the value the stored row
    has for [c]. *)
Theorem select_collapses_repeated_column
  (db : Database) (table_name : string) (cn : list string) (c : string)
  (returned : list Row) :
  select table_name (Some cn) db = Ok returned ->
  1 < count_occ string_dec cn c ->
  exists t,
    get_table table_name db = Ok t
    /\ length returned = length (_rows t)
    /\ forall i out, returned !! i = Some out ->
         exists stored v,
           _rows t !! i = Some stored
           /\ NoDup (keys out)
           /\ count_occ string_dec (keys out) c = 1
           /\ dict_get c stored = Some v
           /\ dict_get c out = Some v.
Proof.
  intros Hsel Hcount. unfold select in Hsel.
  destruct (get_table table_name db) as [t|] eqn:Ht; [|discriminate].
  simpl in Hsel. exists t. split; [done|].
  destruct (negb _); [discriminate|].
  pose proof (project_rows_spec cn (_rows t) []) as Hp. rewrite Hsel in Hp.
  destruct Hp as (ps & -> & Hf). simpl.
  split; [symmetry; by eapply Forall2_length|].
  intros i out Hi.
  destruct (Forall2_lookup_r _ _ _ _ _ Hf Hi) as (stored & Hs & Hproj).
  pose proof (project_onto_spec cn stored []) as Hspec.
  fold (project cn stored) in Hspec. rewrite Hproj in Hspec.
  destruct Hspec as (Hkeys & Hget & Hin).
  assert (c ∈ cn) as Hc.
  { apply list_elem_of_In, (count_occ_In string_dec). lia. }
  fold (distinct cn) in Hkeys.
  destruct (proj2 (dict_get_is_Some c stored) (Hin c Hc)) as [v Hv].
  exists stored, v. split_and!.
  - done.
  - rewrite Hkeys. apply NoDup_distinct.
  - rewrite Hkeys. apply count_occ_NoDup; [apply NoDup_distinct|].
    by apply elem_of_distinct.
  - done.
  - rewrite Hget, decide_True; done.
Qed.

Lemma select_collapses_repeated_column_witness :
  exists t,
    get_table "users"
      (run [CreateTableStmt "users" users_columns;
            InsertStmt "users" [VInt 1; VNone]] ∅) = Ok t
    /\ length [[("name", VNone); ("id", VInt 1)]] = length (_rows t).
Proof.
  destruct (select_collapses_repeated_column
    (run [CreateTableStmt "users" users_columns;
          InsertStmt "users" [VInt 1; VNone]] ∅)
    "users" ["name"; "id"; "name"] "name"
    [[("name", VNone); ("id", VInt 1)]]) as (t & Ht & Hlen & _).
  - vm_compute; reflexivity.
  - vm_compute; lia.
  - exists t. split; [exact Ht | exact Hlen].
Defined.

(** ** C4: creating tables *)

Section casing.
Lemma lower_char_idemp c : lower_char (lower_char c) = lower_char c.
Proof. destruct c as [[] [] [] [] [] [] [] []]; reflexivity. Qed.

Lemma lower_idemp s : lower (lower s) = lower s.
Proof.
  induction s as [|c s IH]; simpl; [done|].
  by rewrite lower_char_idemp, IH.
Qed.

Lemma lower_app s1 s2 : lower (s1 +:+ s2) = lower s1 +:+ lower s2.
Proof. induction s1 as [|c s1 IH]; simpl; [done|]. by rewrite IH. Qed.

Lemma lower_upper_char c :
  (code c <? 128)%N = true ->
  lower (upper_char c) = String (lower_char c) "".
Proof.
  destruct c as [[] [] [] [] [] [] [] []]; (reflexivity || discriminate).
Qed.

Lemma lower_upper s : is_ascii s = true -> lower (upper s) = lower s.
Proof.
  induction s as [|c s IH]; simpl; [done|].
  intros [Hc Hs]%andb_prop.
  by rewrite lower_app, lower_upper_char, IH.
Qed.
End casing.

(** C4.  In a reachable database [create_table] raises exactly when some
    table has a name that lower-cases to the same string as [name]; it is
    then a ValueError and the database is the one before the call.
    Otherwise the database gains, under the key [lower name], an empty
    table with the name as given and the columns as given, every other key
    is as before, and [get_table] returns that table for every name that
    lower-cases to the same key: the lower-cased name, and for an ASCII
    name the upper-cased one. *)
Theorem create_table_raises_iff_name_taken
  (db : Database) (name' : string) (cols : list ColumnDef) :
  reachable db ->
  let r := fst (create_table name' cols db) in
  let db' := snd (create_table name' cols db) in
  let t := mkTable name' cols [] in
  ((exists e, r = Raise e)
     <-> (exists key t0, db !! key = Some t0 /\ lower (name t0) = lower name'))
  /\ (forall e, r = Raise e ->
        e = ValueError (TableAlreadyExists name') /\ db' = db)
  /\ (r = Ok tt ->
        db' !! lower name' = Some t
        /\ (forall key, key <> lower name' -> db' !! key = db !! key)
        /\ (forall other, lower other = lower name' ->
              get_table other db' = Ok t)
        /\ get_table (lower name') db' = Ok t
        /\ (is_ascii name' = true -> get_table (upper name') db' = Ok t)).
Proof.
  intros Hr r db' t. subst r db'. unfold create_table.
  destruct (db !! lower name') as [t0|] eqn:Hl; simpl.
  - split_and!.
    + split; [intros _ | eauto].
      exists (lower name'), t0. split; [done|].
      by destruct (reachable_ok db Hr _ _ Hl) as [<- _].
    + by intros e [= <-].
    + discriminate.
  - split_and!.
    + split; [intros [e [=]]|]. intros (key & t0 & Hk & Hn).
      destruct (reachable_ok db Hr _ _ Hk) as [-> _]. congruence.
    + discriminate.
    + intros _.
      assert (forall other, lower other = lower name' ->
                get_table other (<[lower name' := t]> db) = Ok t) as Hget.
      { intros other Ho. apply get_table_Ok. rewrite Ho.
        apply lookup_insert_eq. }
      split_and!.
      * apply lookup_insert_eq.
      * intros key Hk. by apply lookup_insert_ne.
      * exact Hget.
      * apply Hget, lower_idemp.
      * intros Ha. by apply Hget, lower_upper.
Qed.

Lemma create_table_raises_iff_name_taken_witness :
  (exists e, fst (create_table "USERS" [] users_db) = Raise e)
  /\ get_table "MiXeD" (snd (create_table "Mixed" users_columns users_db))
     = Ok (mkTable "Mixed" users_columns []).
Proof.
  split.
  - destruct (create_table_raises_iff_name_taken users_db "USERS" []
                (reachable_execute (CreateTableStmt "users" users_columns)
                   ∅ reachable_empty)) as (Hiff & _).
    apply Hiff. exists "users", (mkTable "users" users_columns []).
    split; vm_compute; reflexivity.
  - destruct (create_table_raises_iff_name_taken users_db "Mixed"
                users_columns
                (reachable_execute (CreateTableStmt "users" users_columns)
                   ∅ reachable_empty)) as (_ & _ & Hok).
    destruct (Hok ltac:(vm_compute; reflexivity)) as (_ & _ & Hget & _).
    apply Hget. vm_compute; reflexivity.
Defined.

(** ** The tokenizer loop *)

Section tokenizer.
Implicit Types (sql s : string) (pos : nat) (tokens : list Token).

Lemma tokenize_from_match s pos tokens m :
  regex_match s = Some m ->
  tokenize_from s pos tokens =
  tokenize_from (suffix (String.length (group0 m)) s)
                (pos + String.length (group0 m)) (tokenize_step m tokens).
Proof.
  intros Hm.
  funelim (tokenize_from s pos tokens); first [discriminate | congruence].
Qed.

Lemma tokenize_from_no_match c rest pos tokens :
  regex_match (String c rest) = None ->
  tokenize_from (String c rest) pos tokens =
  Raise (SyntaxError (UnexpectedCharacter pos c)).
Proof.
  intros Hm. remember (String c rest) as s eqn:Hs.
  funelim (tokenize_from s pos tokens); first [discriminate | congruence].
Qed.

Lemma suffix_suffix n m s : suffix n (suffix m s) = suffix (m + n) s.
Proof.
  revert s; induction m as [|m IH]; intros s; simpl; [done|].
  destruct s as [|c s]; [by destruct n | apply IH].
Qed.

Lemma suffix_get pos sql c :
  String.get pos sql = Some c -> exists rest, suffix pos sql = String c rest.
Proof.
  revert sql; induction pos as [|pos IH]; intros [|c' sql]; simpl;
    try discriminate.
  - intros [= ->]. eauto.
  - apply IH.
Qed.

Lemma tokenize_scanned sql pos tokens :
  scanned sql pos tokens ->
  tokenize sql = tokenize_from (suffix pos sql) pos tokens.
Proof.
  induction 1 as [|pos tokens m _ IH Hm]; [done|].
  by rewrite IH, (tokenize_from_match _ _ _ _ Hm), suffix_suffix.
Qed.

Lemma take_while_all p s : all_chars p s = true -> take_while p s = s.
Proof.
  induction s as [|c s IH]; simpl; [done|].
  intros [-> Hs]%andb_prop. by rewrite IH.
Qed.

Lemma suffix_all s : suffix (String.length s) s = "".
Proof. induction s; simpl; auto. Qed.

(** A quote with no quote after it matches no alternative. *)
Lemma regex_match_unterminated q body :
  is_quote q = true ->
  all_chars (fun x => negb (is_quote x)) body = true ->
  regex_match (String q body) = None.
Proof.
  intros Hq Hbody. unfold regex_match.
  assert (is_space q = false /\ is_digit q = false) as [-> ->].
  { unfold is_quote in Hq. apply N.eqb_eq in Hq.
    unfold is_space, is_digit, in_range. rewrite Hq. done. }
  rewrite Hq, (take_while_all _ _ Hbody), suffix_all. done.
Qed.
End tokenizer.

(** ** C8: tokenizer errors *)

(** C8.  When the loop of [tokenize] stands at a position [pos] of the
    input where no alternative of the pattern matches, [tokenize] raises
    the SyntaxError that carries [pos] and the character at [pos].  A quote
    that no later quote closes is such a position.  The empty string gives
    the empty token list. *)
Theorem tokenize_raises_where_nothing_matches
  (sql : string) (pos : nat) (tokens : list Token) (c : ascii) :
  (scanned sql pos tokens ->
   String.get pos sql = Some c ->
   regex_match (suffix pos sql) = None ->
   tokenize sql = Raise (SyntaxError (UnexpectedCharacter pos c)))
  /\ (scanned sql pos tokens ->
      String.get pos sql = Some c ->
      is_quote c = true ->
      all_chars (fun x => negb (is_quote x)) (suffix (S pos) sql) = true ->
      tokenize sql = Raise (SyntaxError (UnexpectedCharacter pos c)))
  /\ tokenize "" = Ok [].
Proof.
  assert (scanned sql pos tokens ->
          String.get pos sql = Some c ->
          regex_match (suffix pos sql) = None ->
          tokenize sql = Raise (SyntaxError (UnexpectedCharacter pos c)))
    as Hfail.
  { intros Hscan Hget Hnone. destruct (suffix_get _ _ _ Hget) as [rest Hrest].
    rewrite (tokenize_scanned _ _ _ Hscan).
    rewrite Hrest in *. by apply tokenize_from_no_match. }
  split_and!; [exact Hfail | | reflexivity].
  intros Hscan Hget Hq Hbody. apply Hfail; [done..|].
  destruct (suffix_get _ _ _ Hget) as [rest Hrest]. rewrite Hrest.
  apply regex_match_unterminated; [done|].
  replace (S pos) with (pos + 1) in Hbody by lia.
  by rewrite <- suffix_suffix, Hrest in Hbody.
Qed.

Lemma tokenize_raises_where_nothing_matches_witness :
  tokenize "SELECT 'abc" = Raise (SyntaxError (UnexpectedCharacter 7 "'"))
  /\ tokenize "a $ b" = Raise (SyntaxError (UnexpectedCharacter 2 "$")).
Proof.
  assert (forall sql, scanned sql 0 [] -> forall m m',
            regex_match sql = Some m ->
            regex_match (suffix (0 + String.length (group0 m)) sql) = Some m' ->
            scanned sql (0 + String.length (group0 m)
                         + String.length (group0 m'))
                    (tokenize_step m' (tokenize_step m []))) as Htwo.
  { intros sql H0 m m' Hm Hm'.
    apply scanned_match; [apply scanned_match|]; done. }
  split.
  - destruct (tokenize_raises_where_nothing_matches
                "SELECT 'abc" 7 [mkToken IDENT (Some "SELECT")] "'")
      as (_ & Hquote & _).
    apply Hquote; try reflexivity.
    apply (Htwo "SELECT 'abc" (scanned_start _)
             (mkMatch IDENT "SELECT" None) (mkMatch WS " " None));
      reflexivity.
  - destruct (tokenize_raises_where_nothing_matches
                "a $ b" 2 [mkToken IDENT (Some "a")] "$")
      as (Hnone & _).
    apply Hnone; try reflexivity.
    apply (Htwo "a $ b" (scanned_start _)
             (mkMatch IDENT "a" None) (mkMatch WS " " None));
      reflexivity.
Defined.

(** ** C9: the tokens of a source string *)

Section tokens.
Lemma regex_match_group2 s m :
  regex_match s = Some m -> lastgroup m = STRING -> group2 m = None.
Proof.
  destruct s as [|c rest]; simpl; [discriminate|].
  repeat case_match; intros [= <-]; simpl; congruence.
Qed.

Lemma tokenize_step_produced m tokens :
  (lastgroup m = STRING -> group2 m = None) ->
  Forall produced tokens -> Forall produced (tokenize_step m tokens).
Proof.
  intros Hg Hf. unfold tokenize_step.
  destruct (lastgroup m) eqn:Hk; try done.
  all: apply Forall_app; split; [done|]; constructor; [|constructor].
  all: unfold produced; simpl; split_and!; try done; eauto.
Qed.

Lemma tokenize_from_produced s pos tokens out :
  Forall produced tokens ->
  tokenize_from s pos tokens = Ok out -> Forall produced out.
Proof.
  intros Hf Hout. funelim (tokenize_from s pos tokens).
  - congruence.
  - rewrite <- Heqcall in Hout.
    match goal with IH : context [Forall produced _ -> _] |- _ =>
      eapply IH; [|exact Hout] end.
    apply tokenize_step_produced; [|done].
    by apply (regex_match_group2 (String c rest)).
  - congruence.
Qed.

Lemma tokenize_produced sql tokens :
  tokenize sql = Ok tokens -> Forall produced tokens.
Proof. apply tokenize_from_produced. constructor. Qed.
End tokens.

(** C9.  [tokenize] on [SELECT * FROM t;] gives the five tokens IDENT
    SELECT, STAR, IDENT FROM, IDENT t, SEMICOLON, no whitespace token among
    them; but the token of the quoted string ['a'] carries [None], not the
    quoted content [a], and an INSERT of that literal stores [None]. *)
Theorem tokenize_select_star_and_quoted_string :
  tokenize "SELECT * FROM t;" =
    Ok [mkToken IDENT (Some "SELECT"); mkToken STAR (Some "*");
        mkToken IDENT (Some "FROM"); mkToken IDENT (Some "t");
        mkToken SEMICOLON (Some ";")]
  /\ tokenize "'a'" = Ok [mkToken STRING None]
  /\ parse "INSERT INTO t VALUES ('a')" = Ok (InsertStmt "t" [VNone]).
Proof. split_and!; vm_compute; reflexivity. Qed.

(** ** The parser's loops *)

Section parser.
Implicit Types (toks pre tail : list Token) (pos : nat).

Lemma while_true_body {A} (step : A -> Parser (A * bool)) Hadv a toks pos :
  while_true step Hadv a toks pos =
  match step a toks pos with
  | Raise e => Raise e
  | Ok ((a', true), pos') => while_true step Hadv a' toks pos'
  | Ok ((a', false), pos') => Ok (a', pos')
  end.
Proof.
  funelim (while_true step Hadv a toks pos);
    match goal with H : step _ _ _ = _ |- _ => by rewrite H end.
Qed.

Lemma _match_ok k toks pos tok :
  toks !! pos = Some tok -> kind tok = k ->
  _match k None toks pos = Ok (tok, S pos).
Proof.
  intros Hl Hk. unfold _match, pbind, _peek. rewrite Hl.
  rewrite bool_decide_true by done. done.
Qed.

Lemma _match_keyword_ok keyword toks pos s :
  toks !! pos = Some (ident s) -> upper s = keyword ->
  _match_keyword keyword toks pos = Ok (ident s, S pos).
Proof.
  intros Hl Hk. unfold _match_keyword, pbind, _peek. rewrite Hl. simpl.
  by rewrite Hk, String.eqb_refl.
Qed.

Lemma comma_follows_yes toks pos :
  toks !! pos = Some comma -> comma_follows toks pos = Ok (true, S pos).
Proof.
  intros Hl. unfold comma_follows, _optional, pbind, _peek. by rewrite Hl.
Qed.

Lemma comma_follows_no toks pos :
  (forall tok, toks !! pos = Some tok -> kind tok <> COMMA) ->
  comma_follows toks pos = Ok (false, pos).
Proof.
  intros Hl. unfold comma_follows, _optional, pbind, _peek.
  destruct (toks !! pos) as [tok|]; [|done].
  rewrite bool_decide_false; [done | by apply Hl].
Qed.

Lemma column_step_comma cols toks pos g :
  toks !! pos = Some (ident g.1.1) ->
  toks !! S pos = Some (ident g.1.2) ->
  toks !! S (S pos) = Some comma ->
  column_valid g ->
  column_step cols toks pos =
    Ok ((cols ++ [column_def g], true), S (S (S pos))).
Proof.
  intros H0 H1 H2 Hg. unfold column_step, pbind.
  rewrite (_match_ok IDENT _ _ _ H0), (_match_ok IDENT _ _ _ H1) by done.
  change (text (ident g.1.2)) with (Some g.1.2).
  unfold column_valid in Hg. rewrite Hg.
  unfold lift, name_of, ret. cbn [text ident].
  by rewrite (comma_follows_yes _ _ H2).
Qed.

Lemma column_step_last cols toks pos g :
  toks !! pos = Some (ident g.1.1) ->
  toks !! S pos = Some (ident g.1.2) ->
  (forall tok, toks !! S (S pos) = Some tok -> kind tok <> COMMA) ->
  column_valid g ->
  column_step cols toks pos = Ok ((cols ++ [column_def g], false), S (S pos)).
Proof.
  intros H0 H1 H2 Hg. unfold column_step, pbind.
  rewrite (_match_ok IDENT _ _ _ H0), (_match_ok IDENT _ _ _ H1) by done.
  change (text (ident g.1.2)) with (Some g.1.2).
  unfold column_valid in Hg. rewrite Hg.
  unfold lift, name_of, ret. cbn [text ident].
  by rewrite (comma_follows_no _ _ H2).
Qed.

Lemma column_step_unsupported cols toks pos c bad e :
  toks !! pos = Some (ident c) ->
  toks !! S pos = Some (ident bad) ->
  from_sql (Some bad) = Raise e ->
  column_step cols toks pos = Raise e.
Proof.
  intros H0 H1 Hbad. unfold column_step, pbind.
  rewrite (_match_ok IDENT _ _ _ H0), (_match_ok IDENT _ _ _ H1) by done.
  change (text (ident bad)) with (Some bad). by rewrite Hbad.
Qed.

Lemma lookup_after pre (l : list Token) i :
  (pre ++ l) !! (length pre + i) = l !! i.
Proof. by rewrite lookup_app_r, Nat.add_comm, Nat.add_sub by lia. Qed.

Lemma lookup_after_0 pre a (l : list Token) :
  (pre ++ a :: l) !! length pre = Some a.
Proof. rewrite <- (Nat.add_0_r (length pre)) at 1. apply lookup_after. Qed.

Lemma lookup_after_1 pre a b (l : list Token) :
  (pre ++ a :: b :: l) !! S (length pre) = Some b.
Proof. rewrite <- Nat.add_1_r. apply lookup_after. Qed.

Lemma lookup_after_2 pre a b c (l : list Token) :
  (pre ++ a :: b :: c :: l) !! S (S (length pre)) = Some c.
Proof.
  replace (S (S (length pre))) with (length pre + 2) by lia.
  apply lookup_after.
Qed.

(** The column loop runs through the columns that are followed by a
    comma. *)
Lemma columns_loop_run good : forall pre cols tail,
  Forall column_valid good ->
  while_true column_step column_step_advances cols
    (pre ++ concat (map column_tokens good) ++ tail) (length pre) =
  while_true column_step column_step_advances (cols ++ map column_def good)
    (pre ++ concat (map column_tokens good) ++ tail)
    (length pre + 3 * length good).
Proof.
  induction good as [|g good IH]; intros pre cols tail Hgood.
  - cbn [map concat length]. rewrite app_nil_r, Nat.mul_0_r, Nat.add_0_r.
    reflexivity.
  - apply Forall_cons in Hgood as [Hg Hgood].
    rewrite while_true_body.
    cbn [map concat]. rewrite <- (app_assoc (column_tokens g)).
    unfold column_tokens at 1 3. cbn [app].
    rewrite (column_step_comma cols _ _ g
               (lookup_after_0 _ _ _) (lookup_after_1 _ _ _ _)
               (lookup_after_2 _ _ _ _ _) Hg).
    specialize (IH (pre ++ [ident g.1.1; ident g.1.2; comma])
                   (cols ++ [column_def g]) tail Hgood).
    rewrite length_app, <- !app_assoc in IH. cbn [length app] in IH.
    replace (length pre + 3) with (S (S (S (length pre)))) in IH by lia.
    rewrite IH. unfold column_tokens at 2. cbn [app length].
    f_equal. lia.
Qed.
End parser.

Section statements.
Implicit Types (toks rest : list Token) (pos : nat).

Lemma length_column_tokens good :
  length (concat (map column_tokens good)) = 3 * length good.
Proof. induction good as [|g good IH]; simpl; lia. Qed.

Lemma parse_statement_create kw rest :
  upper kw = "CREATE" ->
  parse_statement (ident kw :: rest) 0 =
  _parse_create_table (ident kw :: rest) 0.
Proof.
  intros Hkw. unfold parse_statement, pbind, _peek, lift.
  cbn [lookup list_lookup ident kind text Token_upper].
  rewrite bool_decide_true by done. by rewrite Hkw.
Qed.

(** [_parse_create_table] up to its loop. *)
Lemma _parse_create_table_head kw1 kw2 table_name rest :
  upper kw1 = "CREATE" -> upper kw2 = "TABLE" ->
  _parse_create_table
    (ident kw1 :: ident kw2 :: ident table_name :: lparen :: rest) 0 =
  (let* columns := while_true column_step column_step_advances [] in
   let* _ := _match RPAREN None in
   let* _ := _optional SEMICOLON None in
   ret (CreateTableStmt table_name columns))
    (ident kw1 :: ident kw2 :: ident table_name :: lparen :: rest) 4.
Proof.
  intros H1 H2. unfold _parse_create_table.
  unfold pbind at 1. rewrite (_match_keyword_ok _ _ 0 kw1) by done.
  unfold pbind at 1. rewrite (_match_keyword_ok _ _ 1 kw2) by done.
  unfold pbind at 1.
  rewrite (_match_ok IDENT _ 2 (ident table_name)) by done.
  unfold pbind at 1. unfold name_of at 1, ret at 1. cbn [text ident].
  unfold pbind at 1. rewrite (_match_ok LPAREN _ 3 lparen) by done.
  reflexivity.
Qed.

Lemma _parse_create_table_columns kw1 kw2 table_name good rest :
  upper kw1 = "CREATE" -> upper kw2 = "TABLE" ->
  Forall column_valid good ->
  let toks := create_table_tokens kw1 kw2 table_name good rest in
  _parse_create_table toks 0 =
  (let* columns := while_true column_step column_step_advances
                     (map column_def good) in
   let* _ := _match RPAREN None in
   let* _ := _optional SEMICOLON None in
   ret (CreateTableStmt table_name columns))
    toks (4 + 3 * length good).
Proof.
  intros H1 H2 Hgood toks. subst toks. unfold create_table_tokens.
  cbn [app]. rewrite (_parse_create_table_head _ _ _ _ H1 H2).
  unfold pbind at 1 4.
  pose proof (columns_loop_run good
                [ident kw1; ident kw2; ident table_name; lparen]
                [] rest Hgood) as Hrun.
  cbn [app length] in Hrun. by rewrite Hrun.
Qed.
End statements.

(** ** C5: unsupported column types *)

(** C5, as stated, fails: [FLOAT] is no column type, and parsing
    [CREATE TABLE t (a FLOAT)] raises the ValueError of
    [ColumnType.from_sql], which is not a SyntaxError. *)
Lemma unsupported_type_is_not_SyntaxError :
  parse "CREATE TABLE t (a FLOAT)" =
    Raise (ValueError (UnsupportedColumnType "FLOAT"))
  /\ is_SyntaxError (parse "CREATE TABLE t (a FLOAT)") = false.
Proof. split; vm_compute; reflexivity. Qed.

(** C5, amended.  When the tokens of the input are [CREATE TABLE name (],
    then columns with a type keyword among INT, TEXT and BOOL (in any
    case), each followed by a comma, then a column whose type keyword is
    none of the three, parsing raises the ValueError that carries that
    keyword as written, whatever follows it; it raises no SyntaxError.
    This holds of the token list and of every source string that
    tokenizes to it. *)
Theorem unsupported_type_raises_ValueError
  (kw1 kw2 table_name : string) (good : list (string * string * ColumnType))
  (c bad : string) (rest : list Token) :
  upper kw1 = "CREATE" ->
  upper kw2 = "TABLE" ->
  Forall column_valid good ->
  upper bad <> "INT" -> upper bad <> "TEXT" -> upper bad <> "BOOL" ->
  let toks := create_table_tokens kw1 kw2 table_name good
                (ident c :: ident bad :: rest) in
  parse_tokens toks = Raise (ValueError (UnsupportedColumnType bad))
  /\ (forall sql, tokenize sql = Ok toks ->
        parse sql = Raise (ValueError (UnsupportedColumnType bad))
        /\ is_SyntaxError (parse sql) = false).
Proof.
  intros H1 H2 Hgood Hi Ht Hb toks.
  assert (from_sql (Some bad) =
          Raise (ValueError (UnsupportedColumnType bad))) as Hbad.
  { unfold from_sql. rewrite !eqb_decide.
    by rewrite !bool_decide_false by done. }
  assert (parse_tokens toks = Raise (ValueError (UnsupportedColumnType bad)))
    as Hparse.
  { unfold parse_tokens. subst toks.
    unfold create_table_tokens at 1. cbn [app].
    rewrite (parse_statement_create _ _ H1).
    change (ident kw1 :: ident kw2 :: ident table_name :: lparen
              :: concat (map column_tokens good)
                 ++ ident c :: ident bad :: rest)
      with (create_table_tokens kw1 kw2 table_name good
              (ident c :: ident bad :: rest)).
    rewrite (_parse_create_table_columns _ _ _ _ _ H1 H2 Hgood).
    assert (forall a b l,
              create_table_tokens kw1 kw2 table_name good (a :: b :: l)
                !! (4 + 3 * length good) = Some a
              /\ create_table_tokens kw1 kw2 table_name good (a :: b :: l)
                   !! S (4 + 3 * length good) = Some b) as Hl.
    { intros a b l. unfold create_table_tokens. rewrite app_assoc.
      rewrite <- length_column_tokens.
      change 4 with (length [ident kw1; ident kw2; ident table_name; lparen]).
      rewrite <- length_app.
      split; [apply lookup_after_0 | apply lookup_after_1]. }
    destruct (Hl (ident c) (ident bad) rest) as [Hl0 Hl1].
    unfold pbind at 1. rewrite while_true_body.
    by rewrite (column_step_unsupported _ _ _ c bad _ Hl0 Hl1 Hbad). }
  split; [exact Hparse|].
  intros sql Hsql. unfold parse. rewrite Hsql. simpl bind.
  by rewrite Hparse.
Qed.

Lemma unsupported_type_raises_ValueError_witness :
  parse "create table t (a int, b Text, c varchar, d int)" =
    Raise (ValueError (UnsupportedColumnType "varchar")).
Proof.
  destruct (unsupported_type_raises_ValueError "create" "table" "t"
              [("a", "int", INT); ("b", "Text", TEXT)] "c" "varchar"
              [comma; ident "d"; ident "int"; rparen]) as [_ Hsql].
  - reflexivity.
  - reflexivity.
  - repeat constructor.
  - discriminate.
  - discriminate.
  - discriminate.
  - apply Hsql. vm_compute. reflexivity.
Defined.

(** ** C10: keywords are not reserved *)

Section names.
Implicit Types (toks rest pre : list Token) (pos : nat).

Lemma select_step_comma cols toks pos c :
  toks !! pos = Some (ident c) ->
  toks !! S pos = Some comma ->
  select_step cols toks pos = Ok ((cols ++ [c], true), S (S pos)).
Proof.
  intros H0 H1. unfold select_step, pbind.
  rewrite (_match_ok IDENT _ _ _ H0) by done.
  unfold name_of, ret. cbn [text ident].
  by rewrite (comma_follows_yes _ _ H1).
Qed.

Lemma select_step_last cols toks pos c :
  toks !! pos = Some (ident c) ->
  (forall tok, toks !! S pos = Some tok -> kind tok <> COMMA) ->
  select_step cols toks pos = Ok ((cols ++ [c], false), S pos).
Proof.
  intros H0 H1. unfold select_step, pbind.
  rewrite (_match_ok IDENT _ _ _ H0) by done.
  unfold name_of, ret. cbn [text ident].
  by rewrite (comma_follows_no _ _ H1).
Qed.

Lemma length_name_tokens cs :
  length (concat (map name_tokens cs)) = 2 * length cs.
Proof. induction cs as [|c cs IH]; simpl; lia. Qed.

(** The column-name loop runs through the names that are followed by a
    comma. *)
Lemma select_loop_run cs : forall pre cols rest,
  while_true select_step select_step_advances cols
    (pre ++ concat (map name_tokens cs) ++ rest) (length pre) =
  while_true select_step select_step_advances (cols ++ cs)
    (pre ++ concat (map name_tokens cs) ++ rest)
    (length pre + 2 * length cs).
Proof.
  induction cs as [|c cs IH]; intros pre cols rest.
  - cbn [map concat length]. rewrite app_nil_r, Nat.mul_0_r, Nat.add_0_r.
    reflexivity.
  - rewrite while_true_body.
    cbn [map concat]. rewrite <- (app_assoc (name_tokens c)).
    unfold name_tokens at 1 3. cbn [app].
    rewrite (select_step_comma cols _ _ c
               (lookup_after_0 _ _ _) (lookup_after_1 _ _ _ _)).
    specialize (IH (pre ++ [ident c; comma]) (cols ++ [c]) rest).
    rewrite length_app, <- !app_assoc in IH. cbn [length app] in IH.
    replace (length pre + 2) with (S (S (length pre))) in IH by lia.
    rewrite IH. unfold name_tokens at 2. cbn [app length].
    f_equal. lia.
Qed.

Lemma ident_start_class c :
  is_ident_start c = true ->
  is_space c = false /\ is_digit c = false /\ is_quote c = false.
Proof.
  destruct c as [[] [] [] [] [] [] [] []];
    (discriminate || (intros _; split_and!; reflexivity)).
Qed.

(** Every identifier, however it is spelled, is one IDENT token. *)
Lemma tokenize_identifier s :
  is_identifier s = true -> tokenize s = Ok [ident s].
Proof.
  destruct s as [|c rest]; [discriminate|]. simpl.
  intros [Hc Hrest]%andb_prop.
  destruct (ident_start_class c Hc) as (Hs & Hd & Hq).
  assert (regex_match (String c rest)
          = Some (mkMatch IDENT (String c rest) None)) as Hm.
  { unfold regex_match. rewrite Hs, Hd, Hq, Hc.
    by rewrite (take_while_all _ _ Hrest). }
  unfold tokenize. rewrite (tokenize_from_match _ _ _ _ Hm).
  cbn [group0]. rewrite suffix_all. reflexivity.
Qed.

Lemma _optional_end k toks pos :
  toks !! pos = None -> _optional k None toks pos = Ok (None, pos).
Proof. intros Hl. unfold _optional, pbind, _peek. by rewrite Hl. Qed.

(** CREATE TABLE with any table name and any column names. *)
Lemma parse_create_table_any_names kw1 kw2 table_name good c ty T :
  upper kw1 = "CREATE" -> upper kw2 = "TABLE" ->
  Forall column_valid good -> column_valid (c, ty, T) ->
  parse_tokens (create_table_tokens kw1 kw2 table_name good
                  [ident c; ident ty; rparen]) =
  Ok (CreateTableStmt table_name
        (map column_def good ++ [ColumnDef_new c T])).
Proof.
  intros H1 H2 Hgood Hlast. unfold parse_tokens.
  set (toks := create_table_tokens kw1 kw2 table_name good
                 [ident c; ident ty; rparen]).
  set (n := 4 + 3 * length good).
  assert (toks !! n = Some (ident c) /\ toks !! S n = Some (ident ty)
          /\ toks !! S (S n) = Some rparen
          /\ toks !! S (S (S n)) = None) as (Hl0 & Hl1 & Hl2 & Hl3).
  { subst toks n. unfold create_table_tokens. rewrite app_assoc.
    rewrite <- length_column_tokens.
    change 4 with (length [ident kw1; ident kw2; ident table_name; lparen]).
    rewrite <- length_app.
    split_and!; [apply lookup_after_0 | apply lookup_after_1
                 | apply lookup_after_2 |].
    apply lookup_ge_None. rewrite length_app. simpl. lia. }
  assert (parse_statement toks 0 = _parse_create_table toks 0) as ->
    by (by apply parse_statement_create).
  pose proof (_parse_create_table_columns kw1 kw2 table_name good
                [ident c; ident ty; rparen] H1 H2 Hgood) as Hcols.
  cbv zeta in Hcols. fold toks in Hcols. fold n in Hcols. rewrite Hcols.
  unfold pbind at 1. rewrite while_true_body.
  rewrite (column_step_last _ toks n (c, ty, T) Hl0 Hl1); [| | done].
  2:{ intros tok. rewrite Hl2. by intros [= <-]. }
  unfold pbind at 1. rewrite (_match_ok RPAREN _ _ _ Hl2) by done.
  unfold pbind at 1. rewrite (_optional_end _ _ _ Hl3).
  unfold ret. by rewrite Hl3.
Qed.

(** INSERT with any table name. *)
Lemma parse_insert_any_name kw1 kw2 kw3 table_name digits z :
  upper kw1 = "INSERT" -> upper kw2 = "INTO" -> upper kw3 = "VALUES" ->
  int (Some digits) = Ok z ->
  parse_tokens [ident kw1; ident kw2; ident table_name; ident kw3; lparen;
                mkToken NUMBER (Some digits); rparen] =
  Ok (InsertStmt table_name [VInt z]).
Proof.
  intros H1 H2 H3 Hint. unfold parse_tokens.
  set (toks := [ident kw1; ident kw2; ident table_name; ident kw3; lparen;
                mkToken NUMBER (Some digits); rparen]).
  assert (parse_statement toks 0 = _parse_insert toks 0) as ->.
  { unfold parse_statement, pbind, _peek, lift.
    cbn [toks lookup list_lookup ident kind text Token_upper].
    rewrite bool_decide_true by done. by rewrite H1. }
  unfold _parse_insert.
  unfold pbind at 1. rewrite (_match_keyword_ok _ _ 0 kw1) by done.
  unfold pbind at 1. rewrite (_match_keyword_ok _ _ 1 kw2) by done.
  unfold pbind at 1.
  rewrite (_match_ok IDENT _ 2 (ident table_name)) by done.
  unfold pbind at 1. unfold name_of at 1, ret at 1. cbn [text ident].
  unfold pbind at 1. rewrite (_match_keyword_ok _ _ 3 kw3) by done.
  unfold pbind at 1. rewrite (_match_ok LPAREN _ 4 lparen) by done.
  unfold pbind at 1. rewrite while_true_body.
  assert (value_step [] toks 5 = Ok (([VInt z], false), 6)) as ->.
  { unfold value_step, pbind, _peek, advance, lift.
    cbn [toks lookup list_lookup kind text]. rewrite Hint.
    unfold ret at 1. cbn [app].
    by rewrite (comma_follows_no toks 6) by (by intros tok [= <-]). }
  unfold pbind at 1. rewrite (_match_ok RPAREN _ 6 rparen) by done.
  unfold pbind at 1. rewrite (_optional_end _ _ 7) by done.
  reflexivity.
Qed.

(** SELECT with any column names and any table name. *)
Lemma parse_select_any_names kw1 kw2 cs c table_name :
  upper kw1 = "SELECT" -> upper kw2 = "FROM" ->
  parse_tokens ([ident kw1] ++ concat (map name_tokens cs)
                ++ [ident c; ident kw2; ident table_name]) =
  Ok (SelectStmt table_name (Some (cs ++ [c]))).
Proof.
  intros H1 H2. unfold parse_tokens.
  set (toks := [ident kw1] ++ concat (map name_tokens cs)
               ++ [ident c; ident kw2; ident table_name]).
  set (n := 1 + 2 * length cs).
  assert (toks !! n = Some (ident c) /\ toks !! S n = Some (ident kw2)
          /\ toks !! S (S n) = Some (ident table_name)
          /\ toks !! S (S (S n)) = None) as (Hl0 & Hl1 & Hl2 & Hl3).
  { subst toks n. rewrite app_assoc.
    rewrite <- length_name_tokens.
    change 1 with (length [ident kw1]).
    rewrite <- length_app.
    split_and!; [apply lookup_after_0 | apply lookup_after_1
                 | apply lookup_after_2 |].
    apply lookup_ge_None. rewrite length_app. simpl. lia. }
  assert (toks !! 0 = Some (ident kw1)) as Hk by done.
  assert (exists x, toks !! 1 = Some (ident x)) as [x Hx].
  { subst toks. destruct cs; simpl; eauto. }
  assert (parse_statement toks 0 = _parse_select toks 0) as ->.
  { unfold parse_statement, pbind, _peek, lift. rewrite Hk.
    cbn [ident kind text Token_upper].
    rewrite bool_decide_true by done. by rewrite H1. }
  unfold _parse_select.
  unfold pbind at 1. rewrite (_match_keyword_ok _ _ 0 kw1 Hk H1).
  unfold pbind at 1. unfold _peek at 1. rewrite Hx.
  rewrite bool_decide_false by done.
  unfold pbind at 1 2.
  pose proof (select_loop_run cs [ident kw1] []
                [ident c; ident kw2; ident table_name]) as Hrun.
  cbn [length] in Hrun. fold toks in Hrun. fold n in Hrun.
  rewrite Hrun, while_true_body.
  rewrite (select_step_last _ toks n c Hl0).
  2:{ intros tok. rewrite Hl1. by intros [= <-]. }
  unfold ret at 1.
  unfold pbind at 1. rewrite (_match_keyword_ok _ _ _ kw2 Hl1 H2).
  unfold pbind at 1. rewrite (_match_ok IDENT _ _ _ Hl2) by done.
  unfold pbind at 1. unfold name_of at 1, ret at 1. cbn [text ident].
  unfold pbind at 1. rewrite (_optional_end _ _ _ Hl3).
  unfold ret. by rewrite Hl3.
Qed.
End names.

(** C10.  The tokenizer has no keyword tokens: every identifier, a keyword
    or not, is one IDENT token.  The parser reads table names and column
    names with [_match("IDENT")], which does not look at the text: CREATE
    TABLE, INSERT and SELECT statements parse with any texts as table name
    and column names.  In particular [CREATE TABLE select (from INT)]
    parses, and the table it creates takes an insert and answers a
    select. *)
Theorem keywords_are_not_reserved
  (table_name c : string) (cs : list string)
  (good : list (string * string * ColumnType)) (ty : string)
  (T : ColumnType) :
  (is_identifier c = true -> tokenize c = Ok [ident c])
  /\ (Forall column_valid good -> column_valid (c, ty, T) ->
      parse_tokens (create_table_tokens "CREATE" "TABLE" table_name good
                      [ident c; ident ty; rparen]) =
      Ok (CreateTableStmt table_name
            (map column_def good ++ [ColumnDef_new c T])))
  /\ parse_tokens [ident "INSERT"; ident "INTO"; ident table_name;
                   ident "VALUES"; lparen; mkToken NUMBER (Some "7");
                   rparen] =
     Ok (InsertStmt table_name [VInt 7])
  /\ parse_tokens ([ident "SELECT"] ++ concat (map name_tokens cs)
                   ++ [ident c; ident "FROM"; ident table_name]) =
     Ok (SelectStmt table_name (Some (cs ++ [c])))
  /\ (let create := CreateTableStmt "select" [ColumnDef_new "from" INT] in
      let insert := InsertStmt "select" [VInt 7] in
      let select := SelectStmt "select" (Some ["from"]) in
      parse "CREATE TABLE select (from INT)" = Ok create
      /\ parse "INSERT INTO select VALUES (7)" = Ok insert
      /\ parse "SELECT from FROM select" = Ok select
      /\ fst (execute create ∅) = Ok None
      /\ fst (execute insert (run [create] ∅)) = Ok None
      /\ fst (execute select (run [create; insert] ∅)) =
           Ok (Some [[("from", VInt 7)]])).
Proof.
  split_and!.
  - apply tokenize_identifier.
  - intros Hgood Hlast. by apply parse_create_table_any_names.
  - by apply parse_insert_any_name.
  - by apply parse_select_any_names.
  - split_and!; vm_compute; reflexivity.
Qed.

Lemma keywords_are_not_reserved_witness :
  tokenize "values" = Ok [ident "values"]
  /\ parse_tokens [ident "CREATE"; ident "TABLE"; ident "table"; lparen;
                   ident "select"; ident "text"; comma;
                   ident "values"; ident "int"; rparen] =
     Ok (CreateTableStmt "table"
           [ColumnDef_new "select" TEXT; ColumnDef_new "values" INT]).
Proof.
  destruct (keywords_are_not_reserved "table" "values" []
              [("select", "text", TEXT)] "int" INT) as (Htok & Hcreate & _).
  split.
  - apply Htok. reflexivity.
  - apply Hcreate; [repeat constructor | reflexivity].
Defined.

(** * Further properties *)

(** ** What [tokenize] returns *)

Section matches.
Implicit Types (s sql : string) (p : ascii -> bool) (m : Match).

Lemma string_app_cons c s1 s2 : String c s1 +:+ s2 = String c (s1 +:+ s2).
Proof. reflexivity. Qed.

Lemma take_while_suffix p s :
  s = take_while p s +:+ suffix (String.length (take_while p s)) s.
Proof.
  induction s as [|c s IH]; simpl; [done|].
  destruct (p c); simpl; [|done].
  rewrite string_app_cons. f_equal. exact IH.
Qed.

Lemma all_chars_take_while p s : all_chars p (take_while p s) = true.
Proof.
  induction s as [|c s IH]; simpl; [done|].
  destruct (p c) eqn:Hc; simpl; [by rewrite Hc | done].
Qed.

Lemma string_app_assoc s1 s2 s3 : (s1 +:+ s2) +:+ s3 = s1 +:+ (s2 +:+ s3).
Proof.
  induction s1 as [|c s1 IH]; [done|]. by rewrite !string_app_cons, IH.
Qed.

Lemma length_string_app s1 s2 :
  String.length (s1 +:+ s2) = String.length s1 + String.length s2.
Proof.
  induction s1 as [|c s1 IH]; [done|].
  rewrite string_app_cons. simpl. by rewrite IH.
Qed.

Lemma punctuation_text c k :
  punctuation c = Some k ->
  match k with
  | LPAREN => String c "" = "("
  | RPAREN => String c "" = ")"
  | COMMA => String c "" = ","
  | STAR => String c "" = "*"
  | SEMICOLON => String c "" = ";"
  | _ => False
  end.
Proof.
  destruct c as [[] [] [] [] [] [] [] []]; vm_compute;
    intros [= <-]; reflexivity.
Qed.

(** A match starts where the scan stands: its text is a prefix of the rest
    of the input. *)
Lemma regex_match_prefix s m :
  regex_match s = Some m -> exists rest, s = group0 m +:+ rest.
Proof.
  destruct s as [|c rest]; cbn [regex_match]; [discriminate|].
  destruct (is_space c) eqn:Hs.
  { intros [= <-]. eexists.
    exact (take_while_suffix is_space (String c rest)). }
  destruct (is_digit c) eqn:Hd.
  { intros [= <-]. eexists.
    exact (take_while_suffix is_digit (String c rest)). }
  destruct (is_quote c) eqn:Hq.
  { set (inner := take_while _ rest).
    destruct (suffix (String.length inner) rest) as [|q rest'] eqn:Hrest;
      [discriminate|].
    intros [= <-]. exists rest'. cbn [group0].
    rewrite !string_app_cons, string_app_assoc, string_app_cons.
    f_equal. change ("" +:+ rest') with rest'. rewrite <- Hrest.
    apply take_while_suffix. }
  destruct (is_ident_start c) eqn:Hi.
  { intros [= <-]. eexists. cbn [group0]. rewrite string_app_cons.
    f_equal. apply take_while_suffix. }
  destruct (punctuation c); intros [= <-]. by exists rest.
Qed.

Lemma regex_match_length s m :
  regex_match s = Some m -> String.length (group0 m) <= String.length s.
Proof.
  intros [rest Hr]%regex_match_prefix.
  apply (f_equal String.length) in Hr. rewrite length_string_app in Hr. lia.
Qed.

(** The token made of a match has the shape of its kind. *)
Lemma regex_match_shape s m tokens :
  regex_match s = Some m ->
  Forall token_shape tokens -> Forall token_shape (tokenize_step m tokens).
Proof.
  intros Hm Hf. unfold tokenize_step.
  destruct s as [|c rest]; cbn [regex_match] in Hm; [discriminate|].
  destruct (is_space c) eqn:Hs.
  { injection Hm as <-. done. }
  destruct (is_digit c) eqn:Hd.
  { injection Hm as <-. cbn [lastgroup group0].
    apply Forall_app. split; [done|]. constructor; [|constructor].
    eexists. split_and!;
      [done | | exact (all_chars_take_while is_digit (String c rest))].
    simpl. by rewrite Hd. }
  destruct (is_quote c) eqn:Hq.
  { destruct (suffix _ rest); [discriminate|]. injection Hm as <-.
    apply Forall_app. split; [done|]. by repeat constructor. }
  destruct (is_ident_start c) eqn:Hi.
  { injection Hm as <-. cbn [lastgroup group0].
    apply Forall_app. split; [done|]. constructor; [|constructor].
    eexists. split; [done|]. simpl. rewrite Hi. apply all_chars_take_while. }
  destruct (punctuation c) as [k|] eqn:Hp; [|discriminate].
  injection Hm as <-. cbn [lastgroup group0 group2].
  apply punctuation_text in Hp.
  destruct k; try done.
  all: apply Forall_app; split; [done|]; constructor; [|constructor].
  all: unfold token_shape; cbn [kind text]; by rewrite Hp.
Qed.

Lemma suffix_nil_length pos sql :
  pos <= String.length sql -> suffix pos sql = "" -> pos = String.length sql.
Proof.
  intros Hle Hs. apply (f_equal String.length) in Hs.
  rewrite length_suffix in Hs. simpl in Hs. lia.
Qed.

Lemma get_suffix pos sql c rest :
  suffix pos sql = String c rest -> String.get pos sql = Some c.
Proof.
  revert sql; induction pos as [|pos IH]; intros [|c' sql]; simpl;
    try discriminate.
  - by intros [= -> _].
  - apply IH.
Qed.

(** What the loop makes of a state it has reached. *)
Lemma tokenize_from_outcome sql s pos tokens :
  scanned sql pos tokens ->
  Forall token_shape tokens ->
  s = suffix pos sql ->
  pos <= String.length sql ->
  match tokenize_from s pos tokens with
  | Ok out => scanned sql (String.length sql) out /\ Forall token_shape out
  | Raise e =>
      exists pos' c tokens',
        scanned sql pos' tokens'
        /\ String.get pos' sql = Some c
        /\ regex_match (suffix pos' sql) = None
        /\ e = SyntaxError (UnexpectedCharacter pos' c)
  end.
Proof.
  intros Hscan Hshape Hs Hle. funelim (tokenize_from s pos tokens).
  - match goal with H : "" = suffix _ _ |- _ =>
      symmetry in H; apply suffix_nil_length in H; [|done]; by rewrite <- H
    end.
  - match goal with
    | Hm : regex_match _ = Some _, Hs : String _ _ = suffix _ _,
      IH : forall _ : string, _ |- _ =>
        pose proof Hm as Hm'; rewrite Hs in Hm';
        pose proof (regex_match_length _ _ Hm') as Hlen;
        rewrite length_suffix in Hlen;
        apply IH; clear IH;
        [ by apply scanned_match
        | by apply (regex_match_shape _ _ _ Hm)
        | by rewrite Hs, suffix_suffix
        | lia ]
    end.
  - match goal with
    | Hm : regex_match _ = None, Hs : String _ _ = suffix _ _ |- _ =>
        exists pos, c, tokens; split_and!;
        [ done | by apply (get_suffix _ _ _ rest) | congruence | done ]
    end.
Qed.
End matches.

Lemma tokenize_outcome (sql : string) :
  match tokenize sql with
  | Ok tokens =>
      scanned sql (String.length sql) tokens /\ Forall token_shape tokens
  | Raise e =>
      exists pos c tokens,
        scanned sql pos tokens
        /\ String.get pos sql = Some c
        /\ regex_match (suffix pos sql) = None
        /\ e = SyntaxError (UnexpectedCharacter pos c)
  end.
Proof.
  exact (tokenize_from_outcome sql sql 0 [] (scanned_start sql)
           (Forall_nil_2 _) eq_refl (Nat.le_0_l _)).
Qed.

(** X1.  [tokenize] either consumes the whole input, the loop coming back
    to its head at the end of the string with the tokens it returns, or
    raises the SyntaxError for a position the loop reached where no
    alternative of the pattern matches, with the character at that
    position.  It raises nothing else. *)
Theorem tokenize_consumes_input_or_raises (sql : string) :
  match tokenize sql with
  | Ok tokens => scanned sql (String.length sql) tokens
  | Raise e =>
      exists pos c tokens,
        scanned sql pos tokens
        /\ String.get pos sql = Some c
        /\ regex_match (suffix pos sql) = None
        /\ e = SyntaxError (UnexpectedCharacter pos c)
  end.
Proof.
  pose proof (tokenize_outcome sql) as H.
  destruct (tokenize sql); [apply H | exact H].
Qed.

(** X2.  Every token [tokenize] returns has the shape of its kind: there
    is no whitespace token, a NUMBER token carries a non-empty string of
    digits, an IDENT token carries an identifier, a punctuation token
    carries its character, and a STRING token carries [None]. *)
Theorem tokenize_token_shapes (sql : string) :
  match tokenize sql with
  | Ok tokens => Forall token_shape tokens
  | Raise _ => True
  end.
Proof.
  pose proof (tokenize_outcome sql) as H.
  destruct (tokenize sql); [apply H | exact I].
Qed.

(** X3.  A source string of whitespace only, the empty string among them,
    has no tokens, and parsing it raises the SyntaxError for empty
    input. *)
Theorem parse_blank_input (sql : string) :
  all_chars is_space sql = true ->
  tokenize sql = Ok [] /\ parse sql = Raise (SyntaxError EmptyInput).
Proof.
  intros Hblank.
  assert (tokenize sql = Ok []) as Htok.
  { unfold tokenize. destruct sql as [|c rest]; [reflexivity|].
    assert (regex_match (String c rest)
            = Some (mkMatch WS (String c rest) None)) as Hm.
    { pose proof (take_while_all _ _ Hblank) as Ht.
      simpl in Hblank. apply andb_prop in Hblank as [Hc _].
      unfold regex_match. by rewrite Hc, Ht. }
    rewrite (tokenize_from_match _ _ _ _ Hm). cbn [group0].
    by rewrite suffix_all. }
  split; [exact Htok|]. unfold parse. by rewrite Htok.
Qed.

Lemma parse_blank_input_witness :
  parse "  " = Raise (SyntaxError EmptyInput).
Proof. apply (parse_blank_input "  "). reflexivity. Defined.

(** ** What [parse] returns and raises *)

Section int_of_digits.
Implicit Types (s acc : string) (p : ascii -> bool).

Lemma all_chars_impl p (q : ascii -> bool) s :
  (forall c, p c = true -> q c = true) ->
  all_chars p s = true -> all_chars q s = true.
Proof.
  intros Hpq. induction s as [|c s IH]; simpl; [done|].
  intros [Hc Hs]%andb_prop. by rewrite (Hpq _ Hc), IH.
Qed.

Lemma digit_not_space c : is_digit c = true -> int_space c = false.
Proof.
  destruct c as [[] [] [] [] [] [] [] []]; try discriminate; done.
Qed.

Lemma int_digits_all s : forall (acc : Z) n prev,
  all_chars is_digit s = true ->
  (0 <= acc)%Z ->
  s <> "" \/ prev = true ->
  exists z, int_digits s acc n prev = Some (z, n + String.length s, "")
            /\ (0 <= z)%Z.
Proof.
  induction s as [|c s IH]; intros acc n prev Hs Hacc Hne; simpl.
  - destruct Hne as [? | ->]; [done|]. rewrite Nat.add_0_r. eauto.
  - simpl in Hs. apply andb_prop in Hs as [Hc Hs]. rewrite Hc.
    destruct (IH (10 * acc + Z.of_N (code c - 48))%Z (S n) true Hs)
      as (z & Hz & Hpos); [lia | by right |].
    exists z. rewrite Hz. split; [do 3 f_equal; lia | done].
Qed.

(** [int] on the text of a NUMBER token. *)
Lemma int_digit_string s :
  s <> "" -> all_chars is_digit s = true ->
  match int (Some s) with
  | Ok z => (0 <= z)%Z
  | Raise e => e = ValueError (IntTooManyDigits (String.length s))
  end.
Proof.
  intros Hne Hs. unfold int.
  destruct s as [|c rest]; [done|].
  assert (is_digit c = true) as Hc
    by (simpl in Hs; by apply andb_prop in Hs as [? _]).
  cbn [lstrip]. rewrite (digit_not_space c Hc).
  assert ((code c =? 45)%N = false /\ (code c =? 43)%N = false) as [-> ->].
  { destruct c as [[] [] [] [] [] [] [] []]; try discriminate; done. }
  destruct (int_digits_all (String c rest) 0 0 false Hs) as (z & -> & Hz);
    [lia | by left |].
  cbn [Nat.add lstrip]. by destruct (_ <? _)%nat.
Qed.
End int_of_digits.

Section triples.
Variable toks : list Token.
Hypothesis Htoks : Forall token_shape toks.

Lemma returns_ret {A} (a : A) (Q : A -> Prop) : Q a -> returns toks (ret a) Q.
Proof. intros Ha pos. exact Ha. Qed.

Lemma returns_raise {A} e (Q : A -> Prop) :
  parse_error e -> returns toks (raise e) Q.
Proof. intros He pos. exact He. Qed.

Ltac raises := apply returns_raise; exact I.

Lemma returns_bind {A B} (p : Parser A) (k : A -> Parser B) Q R :
  returns toks p Q ->
  (forall a, Q a -> returns toks (k a) R) ->
  returns toks (pbind p k) R.
Proof.
  intros Hp Hk pos. unfold pbind. specialize (Hp pos).
  destruct (p toks pos) as [[a pos']|e]; [|done]. by apply Hk.
Qed.

Lemma returns_ret_bind {A B} (a : A) (k : A -> Parser B) R :
  returns toks (k a) R -> returns toks (pbind (ret a) k) R.
Proof. intros Hk pos. exact (Hk pos). Qed.

Lemma returns_weaken {A} (p : Parser A) (Q R : A -> Prop) :
  returns toks p Q -> (forall a, Q a -> R a) -> returns toks p R.
Proof.
  intros Hp HQR pos. specialize (Hp pos).
  destruct (p toks pos) as [[a pos']|e]; [by apply HQR | done].
Qed.

Lemma returns_advance : returns toks advance (fun _ => True).
Proof. by intros pos. Qed.

Lemma returns__peek :
  returns toks _peek (fun o => forall tok, o = Some tok -> token_shape tok).
Proof.
  intros pos tok Hl. simpl in Hl. rewrite Forall_lookup in Htoks. eauto.
Qed.

Lemma returns__match k :
  returns toks (_match k None) (fun tok => token_shape tok /\ kind tok = k).
Proof.
  unfold _match. eapply returns_bind; [apply returns__peek|].
  intros [tok|] Htok; [|raises].
  case_bool_decide as Hk; simpl; [|raises].
  apply returns_ret_bind.
  eapply returns_bind; [apply returns_advance|]. intros _ _.
  apply returns_ret. eauto.
Qed.

Lemma Token_upper_ident tok :
  token_shape tok -> kind tok = IDENT ->
  exists s, text tok = Some s /\ is_identifier s = true
            /\ Token_upper tok = Ok (upper s).
Proof.
  unfold token_shape, Token_upper. intros Hs Hk. rewrite Hk in Hs.
  destruct Hs as (s & -> & Hid). eauto.
Qed.

Lemma returns__match_keyword keyword :
  returns toks (_match_keyword keyword) (fun _ => True).
Proof.
  unfold _match_keyword. eapply returns_bind; [apply returns__peek|].
  intros [tok|] Htok; [|raises].
  case_bool_decide as Hk; simpl; [|raises].
  destruct (Token_upper_ident tok) as (s & _ & _ & ->); [eauto | done |].
  unfold lift. apply (returns_ret_bind (upper s)).
  destruct (negb _); [raises|].
  eapply returns_bind; [apply returns_advance|]. intros _ _.
  by apply returns_ret.
Qed.

Lemma returns__optional k :
  returns toks (_optional k None) (fun _ => True).
Proof.
  unfold _optional. eapply returns_bind; [apply returns__peek|].
  intros [tok|] Htok; [|by apply returns_ret].
  destruct (negb _); [by apply returns_ret|].
  apply returns_ret_bind.
  eapply returns_bind; [apply returns_advance|]. intros _ _.
  by apply returns_ret.
Qed.

Lemma returns_comma_follows : returns toks comma_follows (fun _ => True).
Proof.
  unfold comma_follows. eapply returns_bind; [apply returns__optional|].
  intros o _. by apply returns_ret.
Qed.

Lemma returns_name_of tok :
  token_shape tok -> kind tok = IDENT ->
  returns toks (name_of tok) (fun s => is_identifier s = true).
Proof.
  intros Hs Hk. destruct (Token_upper_ident tok Hs Hk) as (s & Ht & Hid & _).
  unfold name_of. rewrite Ht. by apply returns_ret.
Qed.

Lemma returns_from_sql tok :
  token_shape tok -> kind tok = IDENT ->
  returns toks (lift (from_sql (text tok))) (fun _ => True).
Proof.
  intros Hs Hk. destruct (Token_upper_ident tok Hs Hk) as (s & -> & _).
  intros pos. unfold lift, from_sql.
  repeat (destruct (String.eqb _ _); [done|]). done.
Qed.

(** The loop: [I] holds of the loop variable before every step and [J]
    after every step. *)
Lemma returns_while_true {A} (step : A -> Parser (A * bool)) Hadv
  (I J : A -> Prop) a :
  (forall a, I a -> returns toks (step a) (fun ab => J (fst ab))) ->
  (forall a, J a -> I a) ->
  I a ->
  returns toks (while_true step Hadv a) J.
Proof.
  intros Hstep HJI Ha pos.
  remember (length toks - pos) as n eqn:Hn.
  revert a pos Ha Hn. induction n as [n IH] using lt_wf_ind.
  intros a pos Ha Hn. rewrite while_true_body.
  specialize (Hstep a Ha pos).
  destruct (step a toks pos) as [[[a' b] pos']|e] eqn:Hs; [|done].
  destruct b; [|exact Hstep].
  apply (IH (length toks - pos')); [|by apply HJI|done].
  subst n. exact (Hadv _ _ _ _ _ Hs).
Qed.

Lemma Forall_snoc_nonempty {A} (P : A -> Prop) (l : list A) x :
  Forall P l -> P x -> l ++ [x] <> [] /\ Forall P (l ++ [x]).
Proof.
  intros Hl Hx. split; [by destruct l|].
  apply Forall_app. split; [done|]. by constructor.
Qed.

Lemma returns_column_step columns :
  Forall parsed_column columns ->
  returns toks (column_step columns)
    (fun cb => fst cb <> [] /\ Forall parsed_column (fst cb)).
Proof.
  intros Hcols. unfold column_step.
  eapply returns_bind; [apply returns__match|]. intros t1 [Hs1 Hk1].
  eapply returns_bind; [apply returns__match|]. intros t2 [Hs2 Hk2].
  eapply returns_bind; [by apply returns_from_sql|]. intros ty _.
  eapply returns_bind; [by apply returns_name_of|]. intros name Hname.
  eapply returns_bind; [apply returns_comma_follows|]. intros more _.
  apply returns_ret. cbn [fst]. by apply Forall_snoc_nonempty.
Qed.

Lemma returns_value_step values :
  Forall parsed_value values ->
  returns toks (value_step values)
    (fun vb => fst vb <> [] /\ Forall parsed_value (fst vb)).
Proof.
  intros Hvs. unfold value_step.
  eapply returns_bind; [apply returns__peek|].
  intros [tok|] Htok; [|raises].
  specialize (Htok tok eq_refl).
  eapply returns_bind with
    (Q := fun vs => vs <> [] /\ Forall parsed_value vs).
  2:{ intros vs Hv. eapply returns_bind; [apply returns_comma_follows|].
      intros more _. by apply returns_ret. }
  unfold token_shape in Htok.
  destruct (kind tok) eqn:Hk; try raises.
  - destruct Htok as (s & Ht & Hne & Hd).
    eapply returns_bind; [apply returns_advance|]. intros _ _.
    eapply returns_bind with (Q := fun z => (0 <= z)%Z).
    + intros pos. unfold lift. rewrite Ht.
      pose proof (int_digit_string s Hne Hd) as Hint.
      destruct (int (Some s)); [done | by subst].
    + intros z Hz. apply returns_ret. apply Forall_snoc_nonempty; [done|].
      right. eauto.
  - eapply returns_bind; [apply returns_advance|]. intros _ _.
    apply returns_ret. rewrite Htok.
    apply Forall_snoc_nonempty; [done | by left].
Qed.

Lemma returns_select_step cols :
  Forall (fun c => is_identifier c = true) cols ->
  returns toks (select_step cols)
    (fun cb => fst cb <> []
               /\ Forall (fun c => is_identifier c = true) (fst cb)).
Proof.
  intros Hcols. unfold select_step.
  eapply returns_bind; [apply returns__match|]. intros t1 [Hs1 Hk1].
  eapply returns_bind; [by apply returns_name_of|]. intros name Hname.
  eapply returns_bind; [apply returns_comma_follows|]. intros more _.
  apply returns_ret. cbn [fst]. by apply Forall_snoc_nonempty.
Qed.

Lemma returns__parse_create_table :
  returns toks _parse_create_table parsed_statement.
Proof.
  unfold _parse_create_table.
  eapply returns_bind; [apply returns__match_keyword|]. intros _ _.
  eapply returns_bind; [apply returns__match_keyword|]. intros _ _.
  eapply returns_bind; [apply returns__match|]. intros t [Hs Hk].
  eapply returns_bind; [by apply returns_name_of|]. intros name Hname.
  eapply returns_bind; [apply returns__match|]. intros _ _.
  eapply returns_bind.
  { apply (returns_while_true _ _ (Forall parsed_column)
             (fun cols => cols <> [] /\ Forall parsed_column cols)).
    - apply returns_column_step.
    - by intros cols [_ ?].
    - constructor. }
  intros cols [Hne Hcols].
  eapply returns_bind; [apply returns__match|]. intros _ _.
  eapply returns_bind; [apply returns__optional|]. intros _ _.
  by apply returns_ret.
Qed.

Lemma returns__parse_insert : returns toks _parse_insert parsed_statement.
Proof.
  unfold _parse_insert.
  eapply returns_bind; [apply returns__match_keyword|]. intros _ _.
  eapply returns_bind; [apply returns__match_keyword|]. intros _ _.
  eapply returns_bind; [apply returns__match|]. intros t [Hs Hk].
  eapply returns_bind; [by apply returns_name_of|]. intros name Hname.
  eapply returns_bind; [apply returns__match_keyword|]. intros _ _.
  eapply returns_bind; [apply returns__match|]. intros _ _.
  eapply returns_bind.
  { apply (returns_while_true _ _ (Forall parsed_value)
             (fun vs => vs <> [] /\ Forall parsed_value vs)).
    - apply returns_value_step.
    - by intros vs [_ ?].
    - constructor. }
  intros vs [Hne Hvs].
  eapply returns_bind; [apply returns__match|]. intros _ _.
  eapply returns_bind; [apply returns__optional|]. intros _ _.
  by apply returns_ret.
Qed.

Lemma returns__parse_select : returns toks _parse_select parsed_statement.
Proof.
  unfold _parse_select.
  eapply returns_bind; [apply returns__match_keyword|]. intros _ _.
  eapply returns_bind; [apply returns__peek|].
  intros [tok|] Htok; [|raises].
  eapply returns_bind with
    (Q := fun o => match o with
                   | None => True
                   | Some cs =>
                       cs <> [] /\ Forall (fun c => is_identifier c = true) cs
                   end).
  { case_bool_decide.
    - eapply returns_bind; [apply returns_advance|]. intros _ _.
      by apply returns_ret.
    - eapply returns_bind.
      { apply (returns_while_true _ _
                 (Forall (fun c => is_identifier c = true))
                 (fun cs => cs <> []
                            /\ Forall (fun c => is_identifier c = true) cs)).
        - apply returns_select_step.
        - by intros cs [_ ?].
        - constructor. }
      intros cs Hcs. by apply returns_ret. }
  intros columns Hcolumns.
  eapply returns_bind; [apply returns__match_keyword|]. intros _ _.
  eapply returns_bind; [apply returns__match|]. intros t [Hs Hk].
  eapply returns_bind; [by apply returns_name_of|]. intros name Hname.
  eapply returns_bind; [apply returns__optional|]. intros _ _.
  apply returns_ret. by destruct columns.
Qed.

Lemma returns_parse_statement :
  returns toks parse_statement parsed_statement.
Proof.
  unfold parse_statement.
  eapply returns_bind; [apply returns__peek|].
  intros [tok|] Htok; [|raises].
  case_bool_decide as Hk; [|raises].
  destruct (Token_upper_ident tok) as (s & _ & _ & ->); [eauto | done |].
  unfold lift. apply (returns_ret_bind (upper s)).
  set (u := upper s).
  destruct (String.eqb u "CREATE"); [apply returns__parse_create_table|].
  destruct (String.eqb u "INSERT"); [apply returns__parse_insert|].
  destruct (String.eqb u "SELECT"); [apply returns__parse_select|].
  raises.
Qed.

Lemma parse_tokens_outcome :
  match parse_tokens toks with
  | Ok stmt => parsed_statement stmt
  | Raise e => parse_error e
  end.
Proof.
  unfold parse_tokens. pose proof (returns_parse_statement 0) as H.
  destruct (parse_statement toks 0) as [[stmt pos]|e]; [|done].
  by destruct (toks !! pos).
Qed.
End triples.

Lemma parse_outcome sql :
  match parse sql with
  | Ok stmt => parsed_statement stmt
  | Raise e => parse_error e
  end.
Proof.
  unfold parse. pose proof (tokenize_outcome sql) as Ht.
  destruct (tokenize sql) as [toks|e]; simpl.
  - apply parse_tokens_outcome, Ht.
  - by destruct Ht as (pos & c & tokens & _ & _ & _ & ->).
Qed.

(** X4.  On a source string [parse] raises nothing but a SyntaxError, the
    ValueError of [ColumnType.from_sql] for an unsupported column type,
    or the ValueError of [int] for a number of more digits than the
    interpreter converts: the texts the tokenizer gives to IDENT and
    NUMBER tokens are ones that [upper] and [int] accept. *)
Theorem parse_raises_only_parse_errors (sql : string) :
  match parse sql with
  | Ok _ => True
  | Raise e => parse_error e
  end.
Proof.
  pose proof (parse_outcome sql) as H. by destruct (parse sql).
Qed.

(** X5.  A statement that [parse] returns for a source string names its
    table and its columns by identifiers and has at least one column or
    value: CREATE TABLE declares a non-empty list of columns, each
    nullable and no primary key; INSERT carries a non-empty list of
    values, each a non-negative integer or [None] (a string literal gives
    [None]); SELECT carries no column list (the star) or a non-empty
    one. *)
Theorem parse_returns_parsed_statement (sql : string) :
  match parse sql with
  | Ok stmt => parsed_statement stmt
  | Raise _ => True
  end.
Proof.
  pose proof (parse_outcome sql) as H. by destruct (parse sql).
Qed.

(** ** Whole statements, and what may follow them *)

Section whole_statements.
Implicit Types (toks rest : list Token) (pos : nat) (stmt : Statement).

Lemma lookup_after_1' (pre : list Token) a (l : list Token) :
  (pre ++ a :: l) !! S (length pre) = l !! 0.
Proof. rewrite <- Nat.add_1_r, lookup_after. reflexivity. Qed.

(** The end of the three statement parsers and the check of [parse]. *)
Lemma parse_tokens_after (stmt_toks rest : list Token) stmt :
  parse_statement (stmt_toks ++ rest) 0 =
    (let* _ := _optional SEMICOLON None in ret stmt)
      (stmt_toks ++ rest) (length stmt_toks) ->
  parse_tokens (stmt_toks ++ rest) = after_statement stmt rest.
Proof.
  intros Hparse. unfold parse_tokens. rewrite Hparse.
  unfold pbind, _optional, pbind, _peek, ret, advance.
  destruct rest as [|tok rest'].
  - rewrite app_nil_r, lookup_ge_None_2 by lia. cbn.
    by rewrite lookup_ge_None_2 by lia.
  - rewrite lookup_after_0. cbn [after_statement].
    case_bool_decide as Hk; cbn.
    + rewrite lookup_after_1'. by destruct rest'.
    + by rewrite lookup_after_0.
Qed.

Lemma length_create_table_tokens kw1 kw2 table_name good rest :
  length (create_table_tokens kw1 kw2 table_name good rest) =
  4 + 3 * length good + length rest.
Proof.
  unfold create_table_tokens.
  rewrite !length_app, length_column_tokens. simpl. lia.
Qed.

Lemma parse_statement_create_table kw1 kw2 table_name good c ty T rest :
  upper kw1 = "CREATE" -> upper kw2 = "TABLE" ->
  Forall column_valid good -> column_valid (c, ty, T) ->
  let stmt_toks := create_table_tokens kw1 kw2 table_name good
                     [ident c; ident ty; rparen] in
  parse_statement (stmt_toks ++ rest) 0 =
    (let* _ := _optional SEMICOLON None in
     ret (CreateTableStmt table_name
            (map column_def good ++ [ColumnDef_new c T])))
      (stmt_toks ++ rest) (length stmt_toks).
Proof.
  intros H1 H2 Hgood Hlast stmt_toks.
  assert (stmt_toks ++ rest =
          create_table_tokens kw1 kw2 table_name good
            (ident c :: ident ty :: rparen :: rest)) as Htoks.
  { unfold stmt_toks, create_table_tokens. by rewrite <- !app_assoc. }
  assert (length stmt_toks = S (S (S (4 + 3 * length good)))) as ->.
  { unfold stmt_toks. rewrite length_create_table_tokens. simpl. lia. }
  rewrite Htoks.
  set (toks := create_table_tokens _ _ _ _ _).
  set (n := 4 + 3 * length good).
  assert (toks !! n = Some (ident c) /\ toks !! S n = Some (ident ty)
          /\ toks !! S (S n) = Some rparen) as (Hl0 & Hl1 & Hl2).
  { subst toks n. unfold create_table_tokens. rewrite app_assoc.
    rewrite <- length_column_tokens.
    change 4 with (length [ident kw1; ident kw2; ident table_name; lparen]).
    rewrite <- length_app.
    split_and!; [apply lookup_after_0 | apply lookup_after_1
                 | apply lookup_after_2]. }
  assert (parse_statement toks 0 = _parse_create_table toks 0) as ->
    by (by apply parse_statement_create).
  pose proof (_parse_create_table_columns kw1 kw2 table_name good
                (ident c :: ident ty :: rparen :: rest) H1 H2 Hgood)
    as Hcols.
  cbv zeta in Hcols. fold toks in Hcols. fold n in Hcols. rewrite Hcols.
  unfold pbind at 1. rewrite while_true_body.
  rewrite (column_step_last _ toks n (c, ty, T) Hl0 Hl1); [| | done].
  2:{ intros tok. rewrite Hl2. by intros [= <-]. }
  unfold pbind at 1. rewrite (_match_ok RPAREN _ _ _ Hl2) by done.
  reflexivity.
Qed.

Lemma value_step_comma values toks pos tok v :
  toks !! pos = Some tok -> literal_value tok = Some v ->
  toks !! S pos = Some comma ->
  value_step values toks pos = Ok ((values ++ [v], true), S (S pos)).
Proof.
  intros Hl Hv Hc. unfold value_step, pbind at 1, _peek. rewrite Hl.
  unfold literal_value in Hv. unfold pbind at 1.
  destruct (kind tok); try discriminate.
  - unfold pbind, advance, lift.
    destruct (int (text tok)); [|discriminate]. injection Hv as <-.
    unfold ret at 1. by rewrite (comma_follows_yes _ _ Hc).
  - unfold pbind, advance. injection Hv as <-.
    unfold ret at 1. by rewrite (comma_follows_yes _ _ Hc).
Qed.

Lemma value_step_last values toks pos tok v :
  toks !! pos = Some tok -> literal_value tok = Some v ->
  (forall t, toks !! S pos = Some t -> kind t <> COMMA) ->
  value_step values toks pos = Ok ((values ++ [v], false), S pos).
Proof.
  intros Hl Hv Hc. unfold value_step, pbind at 1, _peek. rewrite Hl.
  unfold literal_value in Hv. unfold pbind at 1.
  destruct (kind tok); try discriminate.
  - unfold pbind, advance, lift.
    destruct (int (text tok)); [|discriminate]. injection Hv as <-.
    unfold ret at 1. by rewrite (comma_follows_no _ _ Hc).
  - unfold pbind, advance. injection Hv as <-.
    unfold ret at 1. by rewrite (comma_follows_no _ _ Hc).
Qed.

Lemma length_literal_tokens literals :
  length (concat (map literal_tokens literals)) = 2 * length literals.
Proof. induction literals as [|l ls IH]; simpl; lia. Qed.

(** The value loop runs through the literals that are followed by a
    comma. *)
Lemma values_loop_run literals : forall pre values rest,
  Forall literal_valid literals ->
  while_true value_step value_step_advances values
    (pre ++ concat (map literal_tokens literals) ++ rest) (length pre) =
  while_true value_step value_step_advances (values ++ map snd literals)
    (pre ++ concat (map literal_tokens literals) ++ rest)
    (length pre + 2 * length literals).
Proof.
  induction literals as [|[tok v] literals IH]; intros pre values rest Hvalid.
  - cbn [map concat length]. rewrite app_nil_r, Nat.mul_0_r, Nat.add_0_r.
    reflexivity.
  - apply Forall_cons in Hvalid as [Hv Hvalid].
    rewrite while_true_body.
    cbn [map concat]. rewrite <- (app_assoc (literal_tokens (tok, v))).
    unfold literal_tokens at 1 3. cbn [app fst snd].
    rewrite (value_step_comma values _ _ tok v
               (lookup_after_0 _ _ _) Hv (lookup_after_1 _ _ _ _)).
    specialize (IH (pre ++ [tok; comma]) (values ++ [v]) rest Hvalid).
    rewrite length_app, <- !app_assoc in IH. cbn [length app] in IH.
    replace (length pre + 2) with (S (S (length pre))) in IH by lia.
    rewrite IH. unfold literal_tokens at 2. cbn [app length fst].
    f_equal. lia.
Qed.

Lemma parse_statement_insert kw1 kw2 table_name kw3 literals last v rest :
  upper kw1 = "INSERT" -> upper kw2 = "INTO" -> upper kw3 = "VALUES" ->
  Forall literal_valid literals -> literal_value last = Some v ->
  let stmt_toks := insert_tokens kw1 kw2 table_name kw3 literals last in
  parse_statement (stmt_toks ++ rest) 0 =
    (let* _ := _optional SEMICOLON None in
     ret (InsertStmt table_name (map snd literals ++ [v])))
      (stmt_toks ++ rest) (length stmt_toks).
Proof.
  intros H1 H2 H3 Hvalid Hlast stmt_toks.
  set (pre := [ident kw1; ident kw2; ident table_name; ident kw3; lparen]).
  assert (stmt_toks ++ rest =
          pre ++ concat (map literal_tokens literals)
          ++ last :: rparen :: rest) as Htoks.
  { unfold stmt_toks, insert_tokens. by rewrite <- !app_assoc. }
  assert (length stmt_toks = S (S (5 + 2 * length literals))) as ->.
  { unfold stmt_toks, insert_tokens.
    rewrite !length_app, length_literal_tokens. simpl. lia. }
  rewrite Htoks.
  set (toks := pre ++ _).
  set (n := 5 + 2 * length literals).
  assert (toks !! n = Some last /\ toks !! S n = Some rparen) as (Hl0 & Hl1).
  { subst toks n. rewrite app_assoc, <- length_literal_tokens.
    change 5 with (length pre). rewrite <- length_app.
    split; [apply lookup_after_0 | apply lookup_after_1]. }
  assert (parse_statement toks 0 = _parse_insert toks 0) as ->.
  { unfold parse_statement, pbind, _peek, lift.
    cbn [toks pre app lookup list_lookup ident kind text Token_upper].
    rewrite bool_decide_true by done. by rewrite H1. }
  unfold _parse_insert.
  unfold pbind at 1. rewrite (_match_keyword_ok _ _ 0 kw1) by done.
  unfold pbind at 1. rewrite (_match_keyword_ok _ _ 1 kw2) by done.
  unfold pbind at 1.
  rewrite (_match_ok IDENT _ 2 (ident table_name)) by done.
  unfold pbind at 1. unfold name_of at 1, ret at 1. cbn [text ident].
  unfold pbind at 1. rewrite (_match_keyword_ok _ _ 3 kw3) by done.
  unfold pbind at 1. rewrite (_match_ok LPAREN _ 4 lparen) by done.
  unfold pbind at 1.
  pose proof (values_loop_run literals pre [] (last :: rparen :: rest)
                Hvalid) as Hrun.
  change (length pre) with 5 in Hrun. fold toks in Hrun. fold n in Hrun.
  rewrite Hrun, while_true_body.
  rewrite (value_step_last _ toks n last v Hl0 Hlast).
  2:{ intros t. rewrite Hl1. by intros [= <-]. }
  unfold pbind at 1. rewrite (_match_ok RPAREN _ _ _ Hl1) by done.
  reflexivity.
Qed.

Lemma parse_statement_select kw1 cs c kw2 table_name rest :
  upper kw1 = "SELECT" -> upper kw2 = "FROM" ->
  let stmt_toks := select_tokens kw1 cs c kw2 table_name in
  parse_statement (stmt_toks ++ rest) 0 =
    (let* _ := _optional SEMICOLON None in
     ret (SelectStmt table_name (Some (cs ++ [c]))))
      (stmt_toks ++ rest) (length stmt_toks).
Proof.
  intros H1 H2 stmt_toks.
  assert (stmt_toks ++ rest =
          [ident kw1] ++ concat (map name_tokens cs)
          ++ ident c :: ident kw2 :: ident table_name :: rest) as Htoks.
  { unfold stmt_toks, select_tokens. by rewrite <- !app_assoc. }
  assert (length stmt_toks = S (S (S (1 + 2 * length cs)))) as ->.
  { unfold stmt_toks, select_tokens.
    rewrite !length_app, length_name_tokens. simpl. lia. }
  rewrite Htoks.
  set (toks := [ident kw1] ++ _).
  set (n := 1 + 2 * length cs).
  assert (toks !! n = Some (ident c) /\ toks !! S n = Some (ident kw2)
          /\ toks !! S (S n) = Some (ident table_name)) as (Hl0 & Hl1 & Hl2).
  { subst toks n. rewrite app_assoc, <- length_name_tokens.
    change 1 with (length [ident kw1]). rewrite <- length_app.
    split_and!; [apply lookup_after_0 | apply lookup_after_1
                 | apply lookup_after_2]. }
  assert (toks !! 0 = Some (ident kw1)) as Hk by done.
  assert (exists x, toks !! 1 = Some (ident x)) as [x Hx].
  { subst toks. destruct cs; simpl; eauto. }
  assert (parse_statement toks 0 = _parse_select toks 0) as ->.
  { unfold parse_statement, pbind, _peek, lift. rewrite Hk.
    cbn [ident kind text Token_upper].
    rewrite bool_decide_true by done. by rewrite H1. }
  unfold _parse_select.
  unfold pbind at 1. rewrite (_match_keyword_ok _ _ 0 kw1 Hk H1).
  unfold pbind at 1. unfold _peek at 1. rewrite Hx.
  rewrite bool_decide_false by done.
  unfold pbind at 1 2.
  pose proof (select_loop_run cs [ident kw1] []
                (ident c :: ident kw2 :: ident table_name :: rest)) as Hrun.
  cbn [length] in Hrun. fold toks in Hrun. fold n in Hrun.
  rewrite Hrun, while_true_body.
  rewrite (select_step_last _ toks n c Hl0).
  2:{ intros tok. rewrite Hl1. by intros [= <-]. }
  unfold ret at 1.
  unfold pbind at 1. rewrite (_match_keyword_ok _ _ _ kw2 Hl1 H2).
  unfold pbind at 1. rewrite (_match_ok IDENT _ _ _ Hl2) by done.
  unfold pbind at 1. unfold name_of at 1, ret at 1. cbn [text ident].
  reflexivity.
Qed.

Lemma parse_statement_select_star kw1 kw2 table_name rest :
  upper kw1 = "SELECT" -> upper kw2 = "FROM" ->
  let stmt_toks := [ident kw1; mkToken STAR (Some "*"); ident kw2;
                    ident table_name] in
  parse_statement (stmt_toks ++ rest) 0 =
    (let* _ := _optional SEMICOLON None in
     ret (SelectStmt table_name None))
      (stmt_toks ++ rest) (length stmt_toks).
Proof.
  intros H1 H2 stmt_toks. subst stmt_toks. cbn [app length].
  set (toks := ident kw1 :: _).
  assert (parse_statement toks 0 = _parse_select toks 0) as ->.
  { unfold parse_statement, pbind, _peek, lift.
    cbn [toks lookup list_lookup ident kind text Token_upper].
    rewrite bool_decide_true by done. by rewrite H1. }
  unfold _parse_select.
  unfold pbind at 1. rewrite (_match_keyword_ok _ _ 0 kw1) by done.
  unfold pbind at 1. unfold _peek at 1.
  cbn [toks lookup list_lookup kind].
  rewrite bool_decide_true by done.
  unfold pbind at 1 2. unfold advance at 1, ret at 1.
  unfold pbind at 1. rewrite (_match_keyword_ok _ _ 2 kw2) by done.
  unfold pbind at 1.
  rewrite (_match_ok IDENT _ 3 (ident table_name)) by done.
  unfold pbind at 1. unfold name_of at 1, ret at 1. cbn [text ident].
  reflexivity.
Qed.
End whole_statements.

(** X6.  CREATE TABLE, whatever the case of the two keywords and the texts
    of the names: the token list of [CREATE TABLE name (c1 T1, ..., cn Tn)]
    with type keywords among INT, TEXT and BOOL parses to the statement
    with the table name as written and the columns in the order written,
    each with its type; one semicolon after it changes nothing, and any
    other token after it is a SyntaxError naming that token. *)
Theorem parse_create_table_statement
  (kw1 kw2 table_name : string) (good : list (string * string * ColumnType))
  (c ty : string) (T : ColumnType) (rest : list Token) :
  upper kw1 = "CREATE" -> upper kw2 = "TABLE" ->
  Forall column_valid good -> column_valid (c, ty, T) ->
  parse_tokens (create_table_tokens kw1 kw2 table_name good
                  [ident c; ident ty; rparen] ++ rest) =
  after_statement
    (CreateTableStmt table_name (map column_def good ++ [ColumnDef_new c T]))
    rest.
Proof.
  intros H1 H2 Hgood Hlast. apply parse_tokens_after.
  by apply parse_statement_create_table.
Qed.

Lemma parse_create_table_statement_witness :
  parse_tokens [ident "create"; ident "Table"; ident "users"; lparen;
                ident "id"; ident "int"; comma;
                ident "name"; ident "Text"; rparen;
                mkToken SEMICOLON (Some ";")] =
  Ok (CreateTableStmt "users"
        [ColumnDef_new "id" INT; ColumnDef_new "name" TEXT]).
Proof.
  apply (parse_create_table_statement "create" "Table" "users"
           [("id", "int", INT)] "name" "Text" TEXT
           [mkToken SEMICOLON (Some ";")]);
    first [reflexivity | by repeat constructor].
Defined.

(** X7.  INSERT: the token list of [INSERT INTO name VALUES (l1, ..., ln)],
    each literal a NUMBER token that [int] converts or a STRING token,
    parses to the statement with the table name as written and the values
    of the literals in the order written; one semicolon after it changes
    nothing, and any other token after it is a SyntaxError naming that
    token. *)
Theorem parse_insert_statement
  (kw1 kw2 table_name kw3 : string) (literals : list (Token * Value))
  (last : Token) (v : Value) (rest : list Token) :
  upper kw1 = "INSERT" -> upper kw2 = "INTO" -> upper kw3 = "VALUES" ->
  Forall literal_valid literals -> literal_value last = Some v ->
  parse_tokens (insert_tokens kw1 kw2 table_name kw3 literals last ++ rest) =
  after_statement (InsertStmt table_name (map snd literals ++ [v])) rest.
Proof.
  intros H1 H2 H3 Hvalid Hlast. apply parse_tokens_after.
  by apply parse_statement_insert.
Qed.

Lemma parse_insert_statement_witness :
  parse_tokens [ident "insert"; ident "into"; ident "users"; ident "values";
                lparen; mkToken NUMBER (Some "42"); comma;
                mkToken STRING None; rparen;
                mkToken SEMICOLON (Some ";"); ident "x"] =
  Raise (SyntaxError (UnexpectedTokenAfterStatement (Some "x"))).
Proof.
  apply (parse_insert_statement "insert" "into" "users" "values"
           [(mkToken NUMBER (Some "42"), VInt 42)] (mkToken STRING None)
           VNone [mkToken SEMICOLON (Some ";"); ident "x"]);
    first [reflexivity | by repeat constructor].
Defined.

(** X8.  SELECT: the token list of [SELECT c1, ..., cn FROM name] parses to
    the statement with the column names in the order written, repeated
    names kept, and that of [SELECT * FROM name] to the statement with no
    column list; one semicolon after it changes nothing, and any other
    token after it is a SyntaxError naming that token. *)
Theorem parse_select_statement
  (kw1 kw2 table_name : string) (cs : list string) (c : string)
  (rest : list Token) :
  upper kw1 = "SELECT" -> upper kw2 = "FROM" ->
  parse_tokens (select_tokens kw1 cs c kw2 table_name ++ rest) =
    after_statement (SelectStmt table_name (Some (cs ++ [c]))) rest
  /\ parse_tokens ([ident kw1; mkToken STAR (Some "*"); ident kw2;
                    ident table_name] ++ rest) =
     after_statement (SelectStmt table_name None) rest.
Proof.
  intros H1 H2. split; apply parse_tokens_after.
  - by apply parse_statement_select.
  - by apply parse_statement_select_star.
Qed.

Lemma parse_select_statement_witness :
  parse_tokens [ident "Select"; ident "name"; comma; ident "id"; comma;
                ident "name"; ident "from"; ident "users"] =
  Ok (SelectStmt "users" (Some ["name"; "id"; "name"])).
Proof.
  apply (parse_select_statement "Select" "from" "users" ["name"; "id"]
           "name" []); reflexivity.
Defined.

(** ** Column type keywords *)

Section keywords.
Lemma upper_lower_char c :
  (code c <? 128)%N = true -> upper_char (lower_char c) = upper_char c.
Proof.
  destruct c as [[] [] [] [] [] [] [] []]; (reflexivity || discriminate).
Qed.

Lemma upper_lower s : is_ascii s = true -> upper (lower s) = upper s.
Proof.
  induction s as [|c s IH]; simpl; [done|].
  intros [Hc Hs]%andb_prop. by rewrite upper_lower_char, IH.
Qed.

Lemma upper_same_lower s1 s2 :
  is_ascii s1 = true -> is_ascii s2 = true ->
  lower s1 = lower s2 -> upper s1 = upper s2.
Proof.
  intros H1 H2 Hl.
  by rewrite <- (upper_lower s1), <- (upper_lower s2), Hl.
Qed.
End keywords.

(** X9.  [ColumnType.from_sql] does not look at the case of an ASCII
    keyword: two ASCII spellings that differ only in case name the same
    column type, or are both refused. *)
Theorem from_sql_ignores_case (s1 s2 : string) (T : ColumnType) :
  is_ascii s1 = true -> is_ascii s2 = true ->
  lower s1 = lower s2 ->
  from_sql (Some s1) = Ok T <-> from_sql (Some s2) = Ok T.
Proof.
  intros H1 H2 Hl. unfold from_sql.
  rewrite (upper_same_lower s1 s2) by done.
  repeat (destruct (String.eqb _ _); [done|]).
  split; discriminate.
Qed.

Lemma from_sql_ignores_case_witness :
  from_sql (Some "Text") = Ok TEXT <-> from_sql (Some "tEXT") = Ok TEXT.
Proof. apply from_sql_ignores_case; reflexivity. Defined.

(** ** The table store over a session *)

Section session.
Implicit Types (db : Database) (t : Table) (stmt : Statement).

Lemma execute_raise_unchanged stmt db e :
  fst (execute stmt db) = Raise e -> snd (execute stmt db) = db.
Proof.
  destruct stmt as [n cols | n vs | n cols]; simpl; [| |done].
  - unfold create_table. by destruct (db !! lower n).
  - unfold insert. destruct (get_table n db) as [t|] eqn:Ht; [|done].
    destruct (decide (length vs = length (columns t))) as [Hlen|Hlen].
    + by rewrite insert_row_ok.
    + rewrite insert_row_mismatch by done. simpl. intros _.
      apply insert_id. by apply get_table_Ok.
Qed.

Lemma execute_append_only stmt db key t :
  db !! key = Some t ->
  exists t', snd (execute stmt db) !! key = Some t'
             /\ name t' = name t /\ columns t' = columns t
             /\ _rows t `prefix_of` _rows t'.
Proof.
  intros Hl.
  assert (exists t', db !! key = Some t'
             /\ name t' = name t /\ columns t' = columns t
             /\ _rows t `prefix_of` _rows t') as Hsame by eauto.
  destruct stmt as [n cols | n vs | n cols]; simpl; [| |done].
  - unfold create_table. destruct (db !! lower n) eqn:Hn; simpl; [done|].
    rewrite lookup_insert_ne; [done | congruence].
  - unfold insert. destruct (get_table n db) as [t0|] eqn:Ht; [|done].
    apply get_table_Ok in Ht.
    destruct (decide (length vs = length (columns t0))) as [Hlen|Hlen].
    + rewrite insert_row_ok by done. simpl.
      destruct (decide (lower n = key)) as [<-|Hne].
      * rewrite lookup_insert_eq. eexists. split; [done|].
        assert (t0 = t) as -> by congruence. simpl.
        split_and!; [done.. | by apply prefix_app_r].
      * by rewrite lookup_insert_ne.
    + rewrite insert_row_mismatch by done. simpl. by rewrite insert_id.
Qed.
End session.

(** X10.  In a reachable database a table name is unknown exactly when no
    table has a name with the same lower-casing; [get_table], [insert] and
    [select] then raise the KeyError that carries the name as given, and
    [insert] leaves the database as it was. *)
Theorem unknown_table_raises_KeyError
  (db : Database) (table_name : string) :
  reachable db ->
  let e := KeyError (TableDoesNotExist table_name) in
  (get_table table_name db = Raise e
     <-> (forall key t, db !! key = Some t ->
                        lower (name t) <> lower table_name))
  /\ (get_table table_name db = Raise e ->
      (forall values, insert table_name values db = (Raise e, db))
      /\ (forall columns, select table_name columns db = Raise e)).
Proof.
  intros Hr e. split.
  - unfold get_table. destruct (db !! lower table_name) as [t|] eqn:Hl.
    + split; [discriminate|]. intros Hno. exfalso.
      destruct (reachable_ok db Hr _ _ Hl) as [Hkey _].
      by apply (Hno _ _ Hl).
    + split; [|done]. intros _ key t Hk Hsame.
      destruct (reachable_ok db Hr _ _ Hk) as [-> _]. congruence.
  - intros Hget. split.
    + intros values. unfold insert. by rewrite Hget.
    + intros columns. unfold select. by rewrite Hget.
Qed.

Lemma unknown_table_raises_KeyError_witness :
  insert "Orders" [VInt 1] users_db =
    (Raise (KeyError (TableDoesNotExist "Orders")), users_db).
Proof.
  destruct (unknown_table_raises_KeyError users_db "Orders"
              (reachable_execute (CreateTableStmt "users" users_columns)
                 ∅ reachable_empty)) as [_ Hraise].
  apply Hraise. reflexivity.
Defined.

(** X11.  A statement that raises changes nothing: whenever
    [Engine.execute] raises, the database is the one before the call. *)
Theorem execute_raises_leaves_database
  (stmt : Statement) (db : Database) (e : exn) :
  fst (execute stmt db) = Raise e -> snd (execute stmt db) = db.
Proof. apply execute_raise_unchanged. Qed.

Lemma execute_raises_leaves_database_witness :
  snd (execute (InsertStmt "users" [VInt 1]) users_db) = users_db.
Proof.
  apply (execute_raises_leaves_database _ _
           (ValueError (ExpectedValues 2 1))).
  reflexivity.
Defined.

(** X12.  The store only grows: whatever statements are executed, a table
    that exists stays under its key with its name and its columns, and
    the rows it had are the first of the rows it has afterwards, in the
    same order. *)
Theorem run_is_append_only
  (stmts : list Statement) (db : Database) (key : string) (t : Table) :
  db !! key = Some t ->
  exists t', run stmts db !! key = Some t'
             /\ name t' = name t /\ columns t' = columns t
             /\ _rows t `prefix_of` _rows t'.
Proof.
  revert db t; induction stmts as [|stmt stmts IH]; intros db t Hl; simpl.
  - eauto.
  - destruct (execute_append_only stmt db key t Hl)
      as (t1 & Hl1 & Hn1 & Hc1 & Hp1).
    destruct (IH _ _ Hl1) as (t2 & Hl2 & Hn2 & Hc2 & Hp2).
    exists t2. split_and!; [done | congruence.. |].
    by etrans.
Qed.

Lemma run_is_append_only_witness :
  exists t',
    run [InsertStmt "USERS" [VInt 1; VNone];
         CreateTableStmt "Users" []; InsertStmt "users" [VInt 2]] users_db
      !! "users" = Some t'
    /\ name t' = "users" /\ columns t' = users_columns
    /\ [] `prefix_of` _rows t'.
Proof.
  apply (run_is_append_only _ users_db "users"
           (mkTable "users" users_columns [])).
  reflexivity.
Defined.

(** X13.  When a select with an explicit column list returns, it returns
    one row per stored row, in order, and each returned row has as keys
    the requested names, each once, in the order they were first
    requested, bound to the values the stored row has for them; of the
    other columns nothing is returned. *)
Theorem select_returns_requested_columns
  (db : Database) (table_name : string) (cn : list string)
  (returned : list Row) :
  select table_name (Some cn) db = Ok returned ->
  exists t,
    get_table table_name db = Ok t
    /\ length returned = length (_rows t)
    /\ forall i out, returned !! i = Some out ->
         exists stored,
           _rows t !! i = Some stored
           /\ keys out = distinct cn
           /\ (forall c, c ∈ cn ->
                 is_Some (dict_get c out)
                 /\ dict_get c out = dict_get c stored)
           /\ (forall c, c ∉ cn -> dict_get c out = None).
Proof.
  intros Hsel. unfold select in Hsel.
  destruct (get_table table_name db) as [t|] eqn:Ht; [|discriminate].
  simpl in Hsel. exists t. split; [done|].
  destruct (negb _); [discriminate|].
  pose proof (project_rows_spec cn (_rows t) []) as Hp. rewrite Hsel in Hp.
  destruct Hp as (ps & -> & Hf). simpl.
  split; [symmetry; by eapply Forall2_length|].
  intros i out Hi.
  destruct (Forall2_lookup_r _ _ _ _ _ Hf Hi) as (stored & Hs & Hproj).
  pose proof (project_onto_spec cn stored []) as Hspec.
  fold (project cn stored) in Hspec. rewrite Hproj in Hspec.
  destruct Hspec as (Hkeys & Hget & Hin).
  exists stored. split_and!; [done | done | |].
  - intros c Hc. rewrite Hget, decide_True by done.
    split; [|done]. by apply dict_get_is_Some, Hin.
  - intros c Hc. by rewrite Hget, decide_False.
Qed.

Lemma select_returns_requested_columns_witness :
  exists t,
    get_table "users"
      (run [CreateTableStmt "users" users_columns;
            InsertStmt "users" [VInt 1; VNone]] ∅) = Ok t
    /\ length [[("name", VNone)]] = length (_rows t).
Proof.
  destruct (select_returns_requested_columns
    (run [CreateTableStmt "users" users_columns;
          InsertStmt "users" [VInt 1; VNone]] ∅)
    "users" ["name"] [[("name", VNone)]]) as (t & Ht & Hlen & _).
  - vm_compute; reflexivity.
  - exists t. split; [exact Ht | exact Hlen].
Defined.

Section identity.
Implicit Types (row acc : Row).

Lemma dict_get_app_fresh k (v : Value) acc rest :
  k ∉ keys acc -> dict_get k (acc ++ (k, v) :: rest) = Some v.
Proof.
  induction acc as [|[k' w] acc IH]; simpl; intros Hk.
  - by rewrite String.eqb_refl.
  - apply not_elem_of_cons in Hk as [Hne Hk].
    rewrite eqb_decide, bool_decide_false by done. by apply IH.
Qed.

Lemma dict_set_fresh k (v : Value) acc :
  k ∉ keys acc -> dict_set k v acc = acc ++ [(k, v)].
Proof.
  induction acc as [|[k' w] acc IH]; simpl; intros Hk; [done|].
  apply not_elem_of_cons in Hk as [Hne Hk].
  rewrite eqb_decide, bool_decide_false by done. by rewrite IH.
Qed.

(** Projecting a row onto its own keys rebuilds the row. *)
Lemma project_onto_own_keys rest : forall acc,
  NoDup (keys (acc ++ rest)) ->
  project_onto (keys rest) (acc ++ rest) acc = Ok (acc ++ rest).
Proof.
  induction rest as [|[k v] rest IH]; intros acc Hnd; simpl.
  - by rewrite app_nil_r.
  - assert (k ∉ keys acc) as Hk.
    { unfold keys in Hnd. rewrite map_app in Hnd.
      apply NoDup_app in Hnd as (_ & Hd & _). intros Hin.
      apply (Hd _ Hin). left. }
    unfold dict_getitem. rewrite dict_get_app_fresh by done. simpl.
    rewrite dict_set_fresh by done.
    specialize (IH (acc ++ [(k, v)])). rewrite <- app_assoc in IH.
    by apply IH.
Qed.

Lemma project_rows_own_keys cn rows : forall res,
  Forall (fun row => keys row = cn) rows -> NoDup cn ->
  project_rows cn rows res = Ok (res ++ rows).
Proof.
  induction rows as [|row rows IH]; intros res Hrows Hnd; simpl.
  - by rewrite app_nil_r.
  - apply Forall_cons in Hrows as [Hrow Hrows].
    unfold project, bind.
    pose proof (project_onto_own_keys row []) as Hp. simpl in Hp.
    rewrite <- Hrow, Hp by (by rewrite Hrow). rewrite Hrow.
    rewrite IH by done. by rewrite <- app_assoc.
Qed.
Lemma filter_missing_nil (names requested : list string) :
  (forall c, c ∈ requested -> c ∈ names) ->
  filter (fun c => c ∉ names) requested = [].
Proof.
  induction requested as [|c cs IH]; intros Hsub; [done|].
  rewrite filter_cons, decide_False.
  - apply IH. intros c' Hc'. apply Hsub. by right.
  - intros Hc. apply Hc, Hsub. left.
Qed.
End identity.

(** X14.  For a table of a reachable database whose declared column names
    are all different, selecting all the columns by name, in declared
    order, returns what [SELECT *] returns: the stored rows as they
    are. *)
Theorem select_all_columns_is_select_star
  (db : Database) (table_name : string) (t : Table) :
  reachable db ->
  get_table table_name db = Ok t ->
  NoDup (column_names t) ->
  select table_name (Some (column_names t)) db = select table_name None db
  /\ select table_name None db = Ok (_rows t).
Proof.
  intros Hr Ht Hnd. unfold select. rewrite Ht. simpl. split; [|done].
  rewrite (filter_missing_nil (column_names t) (column_names t)) by done.
  rewrite bool_decide_true by done. simpl.
  apply get_table_Ok in Ht.
  destruct (reachable_ok db Hr _ _ Ht) as [_ Hrows].
  rewrite project_rows_own_keys; [done | | done].
  eapply Forall_impl; [exact Hrows|]. intros row Hrow.
  unfold one_value_per_name in Hrow. by rewrite Hrow, distinct_NoDup.
Qed.

Lemma select_all_columns_is_select_star_witness :
  select "users" (Some ["id"; "name"])
    (run [CreateTableStmt "users" users_columns;
          InsertStmt "users" [VInt 1; VNone]] ∅)
  = Ok [[("id", VInt 1); ("name", VNone)]].
Proof.
  destruct (select_all_columns_is_select_star
    (run [CreateTableStmt "users" users_columns;
          InsertStmt "users" [VInt 1; VNone]] ∅)
    "users"
    (mkTable "users" users_columns [[("id", VInt 1); ("name", VNone)]])
    (run_reachable _ _ reachable_empty)
    ltac:(vm_compute; reflexivity)
    ltac:(apply (bool_decide_unpack _); vm_compute; exact I))
    as [Heq Hstar].
  exact (eq_trans Heq Hstar).
Defined.

(** ** Lines of equal length *)

Section lines.
Implicit Types (W : gmap string nat) (cols : list string) (row : Row).

Lemma length_replicate_char c n : String.length (replicate_char c n) = n.
Proof. induction n as [|n IH]; simpl; [done | by rewrite IH]. Qed.

Lemma length_ljust s w :
  String.length s <= w -> String.length (ljust s w) = w.
Proof.
  intros Hle. unfold ljust.
  rewrite length_string_app, length_replicate_char. lia.
Qed.

Lemma length_join sep (parts : list string) :
  String.length (join sep parts) =
  sum_list (map String.length parts)
  + String.length sep * (length parts - 1).
Proof.
  induction parts as [|s parts IH]; [simpl; lia|].
  destruct parts as [|s' parts]; [simpl; lia|].
  change (join sep (s :: s' :: parts))
    with (s +:+ sep +:+ join sep (s' :: parts)).
  rewrite !length_string_app, IH. simpl. lia.
Qed.

Lemma mapM_Forall2 {A B} (f : A -> result B) (l : list A) (l' : list B) :
  mapM f l = Ok l' -> Forall2 (fun a b => f a = Ok b) l l'.
Proof.
  revert l'; induction l as [|a l IH]; intros l'; simpl.
  - intros [= <-]. constructor.
  - destruct (f a) as [b|] eqn:Hb; [|discriminate]. simpl.
    destruct (mapM f l) as [bs|]; [|discriminate]. simpl.
    intros [= <-]. constructor; [done | by apply IH].
Qed.

Lemma mapM_Ok {A B} (f : A -> result B) (l : list A) :
  (forall a, a ∈ l -> exists b, f a = Ok b) -> exists l', mapM f l = Ok l'.
Proof.
  induction l as [|a l IH]; intros Hf; simpl; [eauto|].
  destruct (Hf a) as [b ->]; [left|]. simpl.
  destruct IH as [bs ->]; [|simpl; eauto].
  intros a' Ha'. apply Hf. by right.
Qed.

Lemma widths_le_refl W : widths_le W W.
Proof. intros c n Hc. eauto. Qed.

Lemma widths_le_trans W1 W2 W3 :
  widths_le W1 W2 -> widths_le W2 W3 -> widths_le W1 W3.
Proof.
  intros H12 H23 c n Hc.
  destruct (H12 c n Hc) as (n2 & Hc2 & Hle2).
  destruct (H23 c n2 Hc2) as (n3 & Hc3 & Hle3).
  exists n3. split; [done | lia].
Qed.

Lemma widths_le_insert W c old n :
  W !! c = Some old -> old <= n -> widths_le W (<[c := n]> W).
Proof.
  intros Hc Hle c' n' Hc'. destruct (decide (c = c')) as [<-|Hne].
  - rewrite lookup_insert_eq. exists n. split; [done|].
    assert (n' = old) by congruence. lia.
  - rewrite lookup_insert_ne by done. eauto.
Qed.

Lemma fits_le cols W W' row :
  widths_le W W' -> fits cols W row -> fits cols W' row.
Proof.
  intros Hle Hfit c Hc. destruct (Hfit c Hc) as (cell & n & Hcell & Hn & Hl).
  destruct (Hle c n Hn) as (n' & Hn' & Hle').
  exists cell, n'. split_and!; [done.. | lia].
Qed.

Lemma initial_widths_lookup cols : forall W c,
  fold_left (fun w c => <[c := String.length c]> w) cols W !! c =
  if decide (c ∈ cols) then Some (String.length c) else W !! c.
Proof.
  induction cols as [|c' cols IH]; intros W c; cbn [fold_left].
  - rewrite decide_False; [done | apply not_elem_of_nil].
  - rewrite IH. destruct (decide (c ∈ cols)) as [Hin|Hin].
    + rewrite decide_True; [done | by right].
    + destruct (decide (c' = c)) as [->|Hne].
      * rewrite lookup_insert_eq, decide_True; [done | left].
      * rewrite lookup_insert_ne by done.
        rewrite decide_False; [done|].
        by intros [?|?]%elem_of_cons.
Qed.

Lemma cell_str_Raise (v : option Value) e :
  cell_str v = Raise e -> exists z, v = Some (VInt z) /\ str_int z = Raise e.
Proof. destruct v as [[z|s|b|]|]; simpl; try discriminate. eauto. Qed.

(** One row of the width loop. *)
Lemma widen_row_spec row cols : forall W,
  (forall c, c ∈ cols -> is_Some (W !! c)) ->
  match widen_row row cols W with
  | Ok W' => widths_le W W' /\ fits cols W' row
  | Raise e =>
      exists c z, dict_get c row = Some (VInt z) /\ str_int z = Raise e
  end.
Proof.
  induction cols as [|c cols IH]; intros W Hdom; cbn [widen_row].
  - split; [apply widths_le_refl | by intros c ?%elem_of_nil].
  - destruct (Hdom c) as [old Hold]; [left|].
    unfold width_of. rewrite Hold. cbn [bind].
    destruct (cell_str (dict_get c row)) as [cell|e] eqn:Hcell; cbn [bind].
    2:{ apply cell_str_Raise in Hcell as (z & ? & ?). eauto. }
    set (W1 := <[c := Nat.max old (String.length cell)]> W).
    assert (widths_le W W1) as H01
      by (apply (widths_le_insert _ _ old); [done | lia]).
    specialize (IH W1).
    destruct (widen_row row cols W1) as [W'|e]; [|apply IH].
    2:{ intros c' Hc'. destruct (Hdom c') as [n Hn]; [by right|].
        destruct (H01 _ _ Hn) as (n' & -> & _). eauto. }
    destruct IH as [H12 Hfit].
    { intros c' Hc'. destruct (Hdom c') as [n Hn]; [by right|].
      destruct (H01 _ _ Hn) as (n' & -> & _). eauto. }
    split; [by eapply widths_le_trans|].
    intros c' [->|Hc']%elem_of_cons; [|by apply Hfit].
    destruct (H12 c (Nat.max old (String.length cell))) as (n' & Hn' & Hle).
    { apply lookup_insert_eq. }
    exists cell, n'. split_and!; [done.. | lia].
Qed.

(** The whole width loop. *)
Lemma widen_spec rows cols : forall W,
  (forall c, c ∈ cols -> is_Some (W !! c)) ->
  match widen rows cols W with
  | Ok W' => widths_le W W' /\ Forall (fits cols W') rows
  | Raise e => from_cell rows e
  end.
Proof.
  induction rows as [|row rows IH]; intros W Hdom; cbn [widen].
  - split; [apply widths_le_refl | constructor].
  - pose proof (widen_row_spec row cols W Hdom) as Hrow.
    destruct (widen_row row cols W) as [W1|e]; cbn [bind].
    2:{ destruct Hrow as (c & z & ? & ?). exists row, c, z.
        split_and!; [left | done..]. }
    destruct Hrow as [H01 Hfit1].
    specialize (IH W1).
    destruct (widen rows cols W1) as [W'|e].
    + destruct IH as [H12 Hfits].
      { intros c Hc. destruct (Hdom c Hc) as [n Hn].
        destruct (H01 _ _ Hn) as (n' & -> & _). eauto. }
      split; [by eapply widths_le_trans|].
      constructor; [by eapply fits_le | done].
    + destruct IH as (r & c & z & Hr & ? & ?).
      { intros c Hc. destruct (Hdom c Hc) as [n Hn].
        destruct (H01 _ _ Hn) as (n' & -> & _). eauto. }
      exists r, c, z. split_and!; [by right | done..].
Qed.
End lines.

Section table.
Implicit Types (W : gmap string nat) (cols : list string) (row : Row).

Lemma parts_widths (g : string -> result string) cols W :
  (forall c, c ∈ cols ->
     exists p n, g c = Ok p /\ W !! c = Some n /\ String.length p = n) ->
  exists parts,
    mapM g cols = Ok parts
    /\ map String.length parts = map (fun c => default 0 (W !! c)) cols.
Proof.
  induction cols as [|c cols IH]; intros Hg; simpl; [by exists []|].
  destruct (Hg c) as (p & n & -> & Hn & Hp); [left|]. simpl.
  destruct IH as (parts & -> & Hparts).
  { intros c' Hc'. apply Hg. by right. }
  simpl. eexists. split; [done|]. simpl. by rewrite Hn, Hp, Hparts.
Qed.

Lemma parts_line (g : string -> result string) cols W sep :
  String.length sep = 3 ->
  (forall c, c ∈ cols ->
     exists p n, g c = Ok p /\ W !! c = Some n /\ String.length p = n) ->
  exists line,
    bind (mapM g cols) (fun parts => Ok (join sep parts)) = Ok line
    /\ String.length line = line_width cols W.
Proof.
  intros Hsep Hg. destruct (parts_widths g cols W Hg) as (parts & -> & Hw).
  simpl. eexists. split; [done|].
  rewrite length_join, Hw, Hsep. unfold line_width.
  by rewrite <- (length_map String.length parts), Hw, length_map.
Qed.

Lemma header_line_spec cols W :
  (forall c, c ∈ cols ->
     exists n, W !! c = Some n /\ String.length c <= n) ->
  exists line, header_line cols W = Ok line
               /\ String.length line = line_width cols W.
Proof.
  intros Hcov. apply parts_line; [done|]. intros c Hc.
  destruct (Hcov c Hc) as (n & Hn & Hle). unfold width_of. rewrite Hn.
  simpl. exists (ljust c n), n. split_and!; [done.. |].
  by apply length_ljust.
Qed.

Lemma separator_line_spec cols W :
  (forall c, c ∈ cols -> is_Some (W !! c)) ->
  exists line, separator_line cols W = Ok line
               /\ String.length line = line_width cols W.
Proof.
  intros Hcov. apply parts_line; [done|]. intros c Hc.
  destruct (Hcov c Hc) as (n & Hn). unfold width_of. rewrite Hn.
  simpl. exists (replicate_char "-" n), n. split_and!; [done.. |].
  apply length_replicate_char.
Qed.

Lemma row_line_spec cols W row :
  fits cols W row ->
  exists line, row_line cols W row = Ok line
               /\ String.length line = line_width cols W.
Proof.
  intros Hfit. apply parts_line; [done|]. intros c Hc.
  destruct (Hfit c Hc) as (cell & n & -> & Hn & Hle).
  unfold width_of. rewrite Hn. simpl.
  exists (ljust cell n), n. split_and!; [done.. |].
  by apply length_ljust.
Qed.

Lemma body_lines_spec cols W rows :
  Forall (fits cols W) rows ->
  exists body,
    mapM (row_line cols W) rows = Ok body
    /\ length body = length rows
    /\ Forall (fun line => String.length line = line_width cols W) body.
Proof.
  induction 1 as [|row rows Hrow _ IH]; simpl; [by exists []|].
  destruct (row_line_spec cols W row Hrow) as (line & -> & Hline).
  destruct IH as (body & -> & Hlen & Hbody). simpl.
  eexists. split; [done|]. split; [simpl; by rewrite Hlen | by constructor].
Qed.

(** What [format_rows] builds, or why it raises. *)
Lemma format_lines_spec rows :
  match format_lines rows with
  | Ok lines =>
      exists header sep body,
        lines = [header; sep] ++ body ++ [footer_line rows]
        /\ length body = length rows
        /\ String.length sep = String.length header
        /\ Forall (fun line => String.length line = String.length header)
                  body
  | Raise e => from_cell rows e
  end.
Proof.
  unfold format_lines. set (cols := all_keys rows).
  assert (forall c, c ∈ cols ->
            initial_widths cols !! c = Some (String.length c)) as Hinit.
  { intros c Hc. unfold initial_widths.
    by rewrite initial_widths_lookup, decide_True. }
  pose proof (widen_spec rows cols (initial_widths cols)) as Hw.
  destruct (widen rows cols (initial_widths cols)) as [W|e]; cbn [bind].
  2:{ apply Hw. intros c Hc. rewrite Hinit by done. eauto. }
  destruct Hw as [Hle Hfits].
  { intros c Hc. rewrite Hinit by done. eauto. }
  assert (forall c, c ∈ cols ->
            exists n, W !! c = Some n /\ String.length c <= n) as Hcov.
  { intros c Hc. apply (Hle c). by apply Hinit. }
  destruct (header_line_spec cols W Hcov) as (header & -> & Hh).
  destruct (separator_line_spec cols W) as (sep & -> & Hs).
  { intros c Hc. destruct (Hcov c Hc) as (n & -> & _). eauto. }
  destruct (body_lines_spec cols W rows Hfits) as (body & -> & Hlen & Hb).
  cbn [bind]. exists header, sep, body. split_and!; [done | done | lia |].
  eapply Forall_impl; [exact Hb|]. intros line Hline. simpl in *. lia.
Qed.
End table.

(** ** The lines, column by column *)

Section columns.
Implicit Types (W : gmap string nat) (cols : list string) (row : Row).

Lemma mapM_map {A B} (f : A -> result B) (g : A -> B) (l : list A) :
  (forall a, a ∈ l -> f a = Ok (g a)) -> mapM f l = Ok (map g l).
Proof.
  induction l as [|a l IH]; intros Hf; simpl; [done|].
  rewrite (Hf a) by left. simpl. rewrite IH; [done|].
  intros a' Ha'. apply Hf. by right.
Qed.

Lemma fold_left_max {A} (f : A -> nat) (l : list A) : forall n,
  fold_left (fun w a => Nat.max w (f a)) l n = max_list (n :: map f l).
Proof.
  induction l as [|a l IH]; intros n; simpl; [lia|].
  rewrite IH. simpl. lia.
Qed.

(** The keys of the table are the keys of its rows, each once. *)
Lemma all_keys_spec (rows : list Row) :
  NoDup (all_keys rows)
  /\ forall c, c ∈ all_keys rows <-> exists row, row ∈ rows /\ c ∈ keys row.
Proof.
  unfold all_keys.
  assert (forall acc : list string,
    NoDup acc ->
    NoDup (fold_left (fun cols row => assign_keys cols (keys row)) rows acc)
    /\ forall c,
         c ∈ fold_left (fun cols row => assign_keys cols (keys row)) rows acc
         <-> c ∈ acc \/ exists row, row ∈ rows /\ c ∈ keys row) as H.
  { induction rows as [|row rows IH]; intros acc Hacc; cbn [fold_left].
    - split; [done|]. intros c. split; [by left|].
      intros [?|(row & []%elem_of_nil & _)]. done.
    - destruct (IH (assign_keys acc (keys row))) as [Hnd Hin];
        [by apply NoDup_assign_keys|].
      split; [done|]. intros c. rewrite Hin, elem_of_assign_keys. split.
      + intros [[?|?]|(r & ? & ?)]; [by left | right.. ].
        * exists row. split; [left | done].
        * exists r. split; [by right | done].
      + intros [?|(r & [->|?]%elem_of_cons & ?)]; [by left; left | |].
        * left. by right.
        * right. by exists r. }
  destruct (H [] (NoDup_nil_2)) as [Hnd Hin]. split; [done|].
  intros c. rewrite Hin, elem_of_nil. tauto.
Qed.

(** One row of the width loop, column by column. *)
Lemma widen_row_lookup row cols : forall W W',
  widen_row row cols W = Ok W' ->
  (forall c, c ∈ cols -> cell_str (dict_get c row) = Ok (cell_text c row))
  /\ forall c n, W !! c = Some n ->
       W' !! c = Some (if decide (c ∈ cols)
                       then Nat.max n (String.length (cell_text c row))
                       else n).
Proof.
  induction cols as [|c' cols IH]; intros W W'; cbn [widen_row].
  - intros [= <-]. split; [by intros c ?%elem_of_nil|].
    intros c n Hc. rewrite decide_False; [done | apply not_elem_of_nil].
  - unfold width_of. destruct (W !! c') as [old|] eqn:Hold; [|discriminate].
    cbn [bind].
    destruct (cell_str (dict_get c' row)) as [cell|] eqn:Hcell;
      [|discriminate].
    cbn [bind]. intros [Hcells Hw]%IH.
    assert (cell_text c' row = cell) as Htext
      by (unfold cell_text; by rewrite Hcell).
    split.
    + intros c [->|Hc]%elem_of_cons; [by rewrite Htext | by apply Hcells].
    + intros c n Hc. destruct (decide (c = c')) as [->|Hne].
      * rewrite decide_True by left.
        rewrite (Hw c' (Nat.max old (String.length cell)))
          by apply lookup_insert_eq.
        assert (n = old) as -> by congruence. rewrite Htext.
        destruct (decide (c' ∈ cols)); f_equal; lia.
      * rewrite (Hw c n) by (by rewrite lookup_insert_ne).
        destruct (decide (c ∈ cols)) as [Hin|Hin].
        -- rewrite decide_True; [done | by right].
        -- rewrite decide_False; [done|]. by intros [?|?]%elem_of_cons.
Qed.

(** The whole width loop, column by column. *)
Lemma widen_lookup rows cols : forall W W',
  widen rows cols W = Ok W' ->
  Forall (fun row => forall c, c ∈ cols ->
            cell_str (dict_get c row) = Ok (cell_text c row)) rows
  /\ forall c n, W !! c = Some n ->
       W' !! c =
       Some (if decide (c ∈ cols)
             then fold_left
                    (fun w row => Nat.max w (String.length (cell_text c row)))
                    rows n
             else n).
Proof.
  induction rows as [|row rows IH]; intros W W'; cbn [widen].
  - intros [= <-]. split; [constructor|]. intros c n Hc.
    by destruct (decide (c ∈ cols)).
  - destruct (widen_row row cols W) as [W1|] eqn:Hrow; [|discriminate].
    cbn [bind]. intros [Hcells Hw]%IH.
    destruct (widen_row_lookup _ _ _ _ Hrow) as [Hcell1 Hw1].
    split; [by constructor|]. intros c n Hc.
    rewrite (Hw c _ (Hw1 c n Hc)). cbn [fold_left].
    by destruct (decide (c ∈ cols)).
Qed.

Lemma initial_widths_all_keys cols c :
  c ∈ cols -> initial_widths cols !! c = Some (String.length c).
Proof.
  intros Hc. unfold initial_widths.
  by rewrite initial_widths_lookup, decide_True.
Qed.

(** The lines by their columns: the width loop leaves under each column
    the longest of its name and its cells, and no lookup fails. *)
Lemma format_lines_columns (rows : list Row) (lines : list string) :
  format_lines rows = Ok lines ->
  lines = [table_header rows; table_separator rows]
          ++ map (table_row rows) rows ++ [footer_line rows]
  /\ Forall (fun row =>
       Forall (fun c => cell_str (dict_get c row) = Ok (cell_text c row))
              (all_keys rows)) rows.
Proof.
  unfold format_lines. set (cols := all_keys rows).
  destruct (widen rows cols (initial_widths cols)) as [W|] eqn:HW;
    [|discriminate].
  cbn [bind]. apply widen_lookup in HW as [Hcells HW].
  assert (forall c, c ∈ cols -> W !! c = Some (column_width rows c)) as Hw.
  { intros c Hc.
    rewrite (HW c _ (initial_widths_all_keys cols c Hc)).
    rewrite decide_True by done. by rewrite fold_left_max. }
  assert (header_line cols W = Ok (table_header rows)) as ->.
  { unfold header_line, table_header.
    rewrite (mapM_map _ (fun c => ljust c (column_width rows c))); [done|].
    intros c Hc. unfold width_of. by rewrite (Hw c Hc). }
  assert (separator_line cols W = Ok (table_separator rows)) as ->.
  { unfold separator_line, table_separator.
    rewrite (mapM_map _ (fun c => replicate_char "-" (column_width rows c)));
      [done|].
    intros c Hc. unfold width_of. by rewrite (Hw c Hc). }
  assert (mapM (row_line cols W) rows = Ok (map (table_row rows) rows)) as ->.
  { apply mapM_map. intros row Hrow. unfold row_line, table_row.
    rewrite (mapM_map _ (fun c => ljust (cell_text c row)
                                        (column_width rows c))); [done|].
    intros c Hc. rewrite Forall_forall in Hcells.
    rewrite (Hcells row Hrow c Hc). cbn [bind].
    unfold width_of. by rewrite (Hw c Hc). }
  cbn [bind]. intros [= <-]. split; [done|].
  eapply Forall_impl; [exact Hcells|]. intros row Hrow.
  by apply Forall_forall.
Qed.

Lemma length_fields (g : string -> string) (w : string -> nat) sep cols :
  (forall c, c ∈ cols -> String.length (g c) = w c) ->
  String.length (join sep (map g cols)) =
  sum_list (map w cols) + String.length sep * (length cols - 1).
Proof.
  intros Hg. rewrite length_join, length_map. f_equal. f_equal.
  rewrite map_map. apply map_ext_in. intros c Hc. apply Hg.
  by apply list_elem_of_In.
Qed.

Lemma column_width_name rows c : String.length c <= column_width rows c.
Proof. unfold column_width. simpl. lia. Qed.

Lemma column_width_cell rows row c :
  row ∈ rows -> String.length (cell_text c row) <= column_width rows c.
Proof.
  intros Hrow. unfold column_width.
  apply max_list_elem_of_le. right.
  apply list_elem_of_fmap. by exists row.
Qed.

Lemma column_width_attained rows c :
  column_width rows c = String.length c
  \/ exists row, row ∈ rows
                 /\ column_width rows c = String.length (cell_text c row).
Proof.
  unfold column_width. induction rows as [|row rows IH]; simpl in *.
  - left. lia.
  - destruct (Nat.max_spec (String.length (cell_text c row))
                (max_list (map (fun row => String.length (cell_text c row))
                               rows))) as [[Hlt Hm]|[Hle Hm]].
    + destruct IH as [IH|(r & Hr & IH)].
      * left. simpl in *. lia.
      * destruct (Nat.max_spec (String.length c)
                    (String.length (cell_text c row)
                       `max` max_list (map (fun row =>
                               String.length (cell_text c row)) rows)))
          as [[? Hm']|[? Hm']]; [|by left].
        right. exists r. split; [by right|]. simpl in *. lia.
    + destruct (Nat.max_spec (String.length c)
                  (String.length (cell_text c row)
                     `max` max_list (map (fun row =>
                             String.length (cell_text c row)) rows)))
        as [[? Hm']|[? Hm']]; [|by left].
      right. exists row. split; [left|]. simpl in *. lia.
Qed.
End columns.

(** X15.  The lines [format_rows] builds for a non-empty result are the
    header, the separator, one line for each row, in the order of the
    rows, and the footer.  The columns are the keys of the rows, each
    once; the width of a column is the longest of its name and its cells;
    the header holds the names, the separator dashes and the line of a row
    the cells of that row (the empty string for [None] and for a key the
    row lacks), each padded with spaces on the right to the width of its
    column.  Nothing is cut, so the header, the separator and the row
    lines all have the same length. *)
Theorem format_rows_lines_align (rows : list Row) (lines : list string) :
  format_lines rows = Ok lines ->
  lines = [table_header rows; table_separator rows]
          ++ map (table_row rows) rows ++ [footer_line rows]
  /\ NoDup (all_keys rows)
  /\ (forall c, c ∈ all_keys rows <->
                exists row, row ∈ rows /\ c ∈ keys row)
  /\ Forall (fun row =>
       Forall (fun c => cell_str (dict_get c row) = Ok (cell_text c row))
              (all_keys rows)) rows
  /\ (forall c, column_width rows c = String.length c
                \/ exists row, row ∈ rows
                     /\ column_width rows c
                        = String.length (cell_text c row))
  /\ String.length (table_separator rows)
     = String.length (table_header rows)
  /\ Forall (fun row => String.length (table_row rows row)
                        = String.length (table_header rows)) rows.
Proof.
  intros [Hlines Hcells]%format_lines_columns.
  destruct (all_keys_spec rows) as [Hnd Hkeys].
  split_and!; [done.. | apply column_width_attained | |].
  - unfold table_separator, table_header.
    rewrite !(length_fields _ (column_width rows)); [done | |].
    + intros c _. apply length_ljust, column_width_name.
    + intros c _. apply length_replicate_char.
  - apply Forall_forall. intros row Hrow.
    unfold table_row, table_header.
    rewrite !(length_fields _ (column_width rows)); [done | |].
    + intros c _. apply length_ljust, column_width_name.
    + intros c _. by apply length_ljust, column_width_cell.
Qed.

Lemma format_rows_lines_align_witness :
  ["id | name "; "---+------"; "1  | Alice"; "20 |      "; "(2 rows)"]
  = [table_header people_rows; table_separator people_rows]
    ++ map (table_row people_rows) people_rows ++ [footer_line people_rows].
Proof.
  apply (format_rows_lines_align people_rows
           ["id | name "; "---+------"; "1  | Alice"; "20 |      ";
            "(2 rows)"]).
  vm_compute. reflexivity.
Defined.

(** X16.  [format_rows] returns ["(0 rows)"] for an empty result, and
    for any other the lines joined by newlines; it raises only when [str]
    refuses an integer of some cell for its number of digits, so it never
    raises a KeyError, whatever keys the rows have. *)
Theorem format_rows_raises_only_from_str (rows : list Row) :
  match format_rows rows with
  | Ok out =>
      (rows = [] /\ out = "(0 rows)")
      \/ (rows <> []
          /\ exists lines,
               format_lines rows = Ok lines /\ out = join newline lines)
  | Raise e => from_cell rows e
  end.
Proof.
  destruct rows as [|row rows]; [by left|].
  unfold format_rows. pose proof (format_lines_spec (row :: rows)) as H.
  destruct (format_lines (row :: rows)) as [lines|e]; [|exact H].
  right. split; [done|]. by exists lines.
Qed.

(** ** Whitespace between two strings *)

Section separation.
Implicit Types (s w : string) (p : ascii -> bool) (m : Match).

Lemma take_while_app p s w :
  (take_while p s = s -> forall c w', w = String c w' -> p c = false) ->
  take_while p (s +:+ w) = take_while p s.
Proof.
  induction s as [|c s IH]; intros Hstop.
  - change ("" +:+ w) with w. destruct w as [|c w']; [done|]. simpl.
    by rewrite (Hstop eq_refl c w').
  - rewrite string_app_cons. simpl. destruct (p c) eqn:Hc; [|done].
    f_equal. apply IH. intros Hs. apply Hstop. simpl. by rewrite Hc, Hs.
Qed.

Lemma take_while_app_all p s w :
  all_chars p s = true ->
  take_while p (s +:+ w) = s +:+ take_while p w.
Proof.
  induction s as [|c s IH]; [done|]. simpl.
  intros [Hc Hs]%andb_prop. rewrite !string_app_cons. simpl.
  by rewrite Hc, IH.
Qed.

Lemma suffix_app n s w :
  n <= String.length s -> suffix n (s +:+ w) = suffix n s +:+ w.
Proof.
  revert s; induction n as [|n IH]; intros s Hn; [done|].
  destruct s as [|c s]; simpl in Hn; [lia|].
  rewrite string_app_cons. simpl. apply IH. lia.
Qed.

Lemma suffix_length_app s w : suffix (String.length s) (s +:+ w) = w.
Proof. induction s as [|c s IH]; [by destruct w | exact IH]. Qed.

Lemma take_while_stops p s :
  suffix (String.length (take_while p s)) s <> "" -> take_while p s <> s.
Proof. intros Hne Heq. apply Hne. rewrite Heq. apply suffix_all. Qed.

(** A match is not changed by what is appended to the input, so long as
    the match ends before the end of the input or cannot go on into what
    is appended. *)
Lemma regex_match_app s m c w :
  regex_match s = Some m ->
  is_space c = true ->
  (lastgroup m = WS -> suffix (String.length (group0 m)) s <> "") ->
  regex_match (s +:+ String c w) = Some m.
Proof.
  intros Hm Hc Hws.
  assert (is_digit c = false /\ is_ident_char c = false) as [Hcd Hci].
  { destruct c as [[] [] [] [] [] [] [] []]; try discriminate; done. }
  destruct s as [|a rest]; [discriminate|].
  rewrite string_app_cons. cbn [regex_match] in *.
  destruct (is_space a) eqn:Has.
  { injection Hm as <-. cbn [lastgroup group0] in Hws. f_equal. f_equal.
    rewrite <- string_app_cons. apply take_while_app.
    intros Heq. by destruct (take_while_stops _ _ (Hws eq_refl)). }
  destruct (is_digit a) eqn:Had.
  { injection Hm as <-.
    assert (take_while is_digit (String a (rest +:+ String c w))
            = take_while is_digit (String a rest)) as ->; [|done].
    rewrite <- string_app_cons. apply take_while_app.
    by intros _ c' w' [= <- _]. }
  destruct (is_quote a) eqn:Haq.
  { set (inner := take_while _ rest) in *.
    destruct (suffix (String.length inner) rest) as [|q r] eqn:Hr;
      [discriminate|].
    assert (take_while (fun x => negb (is_quote x)) (rest +:+ String c w)
            = inner) as ->.
    { apply take_while_app. fold inner. intros Heq.
      rewrite Heq, suffix_all in Hr. discriminate. }
    rewrite suffix_app, Hr; [done|].
    pose proof (take_while_suffix (fun x => negb (is_quote x)) rest) as Hs.
    fold inner in Hs. apply (f_equal String.length) in Hs.
    rewrite length_string_app in Hs. lia. }
  destruct (is_ident_start a) eqn:Hai.
  { injection Hm as <-. f_equal. f_equal. f_equal. apply take_while_app.
    by intros _ c' w' [= <- _]. }
  done.
Qed.

Lemma string_app_nil s : s +:+ "" = s.
Proof. induction s as [|c s IH]; [done|]. by rewrite string_app_cons, IH. Qed.

(** A whitespace match is the whole run of whitespace. *)
Lemma regex_match_WS s m :
  regex_match s = Some m -> lastgroup m = WS ->
  group0 m = take_while is_space s.
Proof.
  destruct s as [|c rest]; cbn [regex_match]; [discriminate|].
  destruct (is_space c) eqn:Hs; [by intros [= <-]|].
  destruct (is_digit c); [by intros [= <-]|].
  destruct (is_quote c).
  { destruct (suffix _ rest); [discriminate|]. by intros [= <-]. }
  destruct (is_ident_start c); [by intros [= <-]|].
  destruct (punctuation c) as [k|] eqn:Hk; intros [= <-]; cbn [lastgroup].
  intros ->. by apply punctuation_text in Hk.
Qed.

Lemma tokenize_step_app m (tokens : list Token) :
  tokenize_step m tokens = tokens ++ tokenize_step m [].
Proof.
  unfold tokenize_step. destruct (lastgroup m); by rewrite ?app_nil_r.
Qed.

(** The tokens of a string depend neither on the position the scan starts
    from nor on the tokens it already has. *)
Lemma tokenize_from_tokens s : forall pos tokens out,
  tokenize_from s pos tokens = Ok out ->
  exists toks,
    out = tokens ++ toks
    /\ forall pos' tokens', tokenize_from s pos' tokens' = Ok (tokens' ++ toks).
Proof.
  remember (String.length s) as n eqn:Hn. revert s Hn.
  induction n as [n IH] using lt_wf_ind. intros s Hn pos tokens out Hout.
  destruct s as [|c rest].
  - rewrite tokenize_from_equation_1 in Hout. injection Hout as <-.
    exists []. split; [by rewrite app_nil_r|]. intros pos' tokens'.
    by rewrite tokenize_from_equation_1, app_nil_r.
  - destruct (regex_match (String c rest)) as [m|] eqn:Hm.
    2:{ by rewrite (tokenize_from_no_match _ _ _ _ Hm) in Hout. }
    rewrite (tokenize_from_match _ _ _ _ Hm) in Hout.
    eapply IH in Hout as (toks & -> & Hall); [|  | reflexivity].
    2:{ pose proof (regex_match_nonempty _ _ Hm).
        rewrite length_suffix. subst n. simpl. lia. }
    exists (tokenize_step m [] ++ toks). split.
    + by rewrite (tokenize_step_app m tokens), <- app_assoc.
    + intros pos' tokens'. rewrite (tokenize_from_match _ _ _ _ Hm), Hall.
      by rewrite (tokenize_step_app m tokens'), <- app_assoc.
Qed.

(** Whitespace in front of a string adds no token. *)
Lemma tokenize_from_leading_space c w pos tokens :
  is_space c = true ->
  tokenize_from (String c w) pos tokens =
  tokenize_from (suffix (String.length (take_while is_space w)) w)
    (pos + S (String.length (take_while is_space w))) tokens.
Proof.
  intros Hc.
  assert (regex_match (String c w)
          = Some (mkMatch WS (String c (take_while is_space w)) None)) as Hm.
  { unfold regex_match. simpl. by rewrite Hc. }
  by rewrite (tokenize_from_match _ _ _ _ Hm).
Qed.

Lemma tokenize_skip_space w toks :
  tokenize w = Ok toks ->
  forall pos tokens,
    tokenize_from (suffix (String.length (take_while is_space w)) w)
      pos tokens = Ok (tokens ++ toks).
Proof.
  intros Hw pos tokens. unfold tokenize in Hw.
  destruct w as [|c w']; [by rewrite tokenize_from_equation_1 in *;
                          injection Hw as <-; rewrite app_nil_r|].
  destruct (is_space c) eqn:Hc.
  - rewrite (tokenize_from_leading_space _ _ _ _ Hc) in Hw.
    apply tokenize_from_tokens in Hw as (toks' & -> & Hall).
    simpl. rewrite Hc. simpl. apply Hall.
  - simpl. rewrite Hc. simpl.
    apply tokenize_from_tokens in Hw as (toks' & -> & Hall). apply Hall.
Qed.

Lemma tokenize_from_app s1 : forall pos tokens out c s2 t2,
  tokenize_from s1 pos tokens = Ok out ->
  is_space c = true ->
  tokenize s2 = Ok t2 ->
  tokenize_from (s1 +:+ String c s2) pos tokens = Ok (out ++ t2).
Proof.
  remember (String.length s1) as n eqn:Hn. revert s1 Hn.
  induction n as [n IH] using lt_wf_ind.
  intros s1 Hn pos tokens out c s2 t2 Hout Hc Ht2.
  destruct s1 as [|a rest].
  - rewrite tokenize_from_equation_1 in Hout. injection Hout as <-.
    change ("" +:+ String c s2) with (String c s2).
    rewrite (tokenize_from_leading_space _ _ _ _ Hc).
    by apply tokenize_skip_space.
  - destruct (regex_match (String a rest)) as [m|] eqn:Hm.
    2:{ by rewrite (tokenize_from_no_match _ _ _ _ Hm) in Hout. }
    rewrite (tokenize_from_match _ _ _ _ Hm) in Hout.
    destruct (decide (lastgroup m = WS
                      /\ suffix (String.length (group0 m)) (String a rest)
                         = "")) as [[Hws Hend]|Hnot].
    + (* the whitespace at the end of [s1] runs on into what follows *)
      rewrite Hend, tokenize_from_equation_1 in Hout. injection Hout as <-.
      assert (all_chars is_space (String a rest) = true) as Hall.
      { rewrite (regex_match_WS _ _ Hm Hws) in Hend.
        pose proof (take_while_suffix is_space (String a rest)) as Hs.
        rewrite Hend, string_app_nil in Hs. rewrite Hs.
        apply all_chars_take_while. }
      assert (tokenize_step m tokens = tokens) as ->
        by (unfold tokenize_step; by rewrite Hws).
      assert (regex_match (String a rest +:+ String c s2)
              = Some (mkMatch WS
                        (String a rest +:+ String c (take_while is_space s2))
                        None)) as Hm'.
      { rewrite string_app_cons. unfold regex_match.
        simpl in Hall. apply andb_prop in Hall as [Ha Hrest].
        rewrite Ha. f_equal. f_equal.
        rewrite <- string_app_cons, take_while_app_all by (simpl; by rewrite Ha, Hrest).
        simpl. by rewrite Hc. }
      rewrite (tokenize_from_match _ _ _ _ Hm'). cbn [group0 lastgroup].
      unfold tokenize_step. cbn [lastgroup].
      rewrite length_string_app.
      assert (suffix (String.length (String a rest)
                      + String.length (String c (take_while is_space s2)))
                (String a rest +:+ String c s2)
              = suffix (String.length (take_while is_space s2)) s2) as ->.
      { rewrite <- suffix_suffix, suffix_length_app. done. }
      by apply tokenize_skip_space.
    + rewrite (tokenize_from_match _ _ _ m).
      2:{ apply regex_match_app; [done..|]. intros Hws Hend.
          apply Hnot. done. }
      rewrite suffix_app by (by apply regex_match_length).
      eapply IH; [| reflexivity | done..].
      pose proof (regex_match_nonempty _ _ Hm).
      rewrite length_suffix. subst n. simpl. lia.
Qed.
End separation.

(** X17.  Whitespace separates tokens: if two strings tokenize, then the
    first, one whitespace character and the second tokenize to the tokens
    of the first followed by the tokens of the second. *)
Theorem tokenize_separated_by_whitespace
  (s1 s2 : string) (c : ascii) (t1 t2 : list Token) :
  is_space c = true ->
  tokenize s1 = Ok t1 ->
  tokenize s2 = Ok t2 ->
  tokenize (s1 +:+ String c s2) = Ok (t1 ++ t2).
Proof. intros Hc H1 H2. by apply tokenize_from_app. Qed.

Lemma tokenize_separated_by_whitespace_witness :
  tokenize "SELECT * FROM users" =
  Ok [ident "SELECT"; mkToken STAR (Some "*"); ident "FROM"; ident "users"].
Proof.
  apply (tokenize_separated_by_whitespace "SELECT *" "FROM users" " "
           [ident "SELECT"; mkToken STAR (Some "*")]
           [ident "FROM"; ident "users"]); reflexivity.
Defined.
